(** * EdgeDB runtime configuration: server side and CONFIGURE compiler

    A shallow embedding of
      - [edb/server/server.py]  (class [Server]: management listener restart,
        configured ports, cached auth list, system connection arbitration),
      - [edb/edgeql/compiler/config.py]  (compilation of CONFIGURE SET / RESET /
        INSERT),
    together with the properties stated about them in the specification.

    Python objects that are mutated in place live in explicit stores; Python
    exceptions are values of [Exn]; a coroutine that is awaited to completion
    is a state transformer. *)

From Stdlib Require Import ZArith String Ascii List Bool Lia Sorting.Sorted
  Sorting.Permutation.
From stdpp Require Import base option list gmap strings.
Import ListNotations.
Local Open Scope string_scope.
Local Open Scope Z_scope.
Local Open Scope list_scope.
#[local] Set Warnings "-register-all".

(** ** Exceptions *)

Inductive Exn : Type :=
| ConfigurationError (msg : string)
| QueryError (msg : string)
| UnsupportedFeatureError (msg : string)
| InvalidReferenceError (msg : string)
| RuntimeError (msg : string)
| OSError (msg : string)
| JSONDecodeError
| AssertionError
| AttributeError
| IndexError.

#[global] Instance Exn_eq_dec : EqDecision Exn.
Proof. solve_decision. Defined.

(** ** Results and effects

    [Exn + A] is the result of code that returns an [A] or raises;
    [SE S A] is code that also reads and writes a state [S].  What a body
    wrote before it raised stays written, as in Python. *)

Definition err_bind {A B} (m : Exn + A) (k : A -> Exn + B) : Exn + B :=
  match m with
  | inl e => inl e
  | inr a => k a
  end.

Definition SE (S A : Type) : Type := S -> (Exn + A) * S.

Definition ret {S A} (a : A) : SE S A := fun s => (inr a, s).

Definition raise {S A} (e : Exn) : SE S A := fun s => (inl e, s).

Definition bind {S A B} (m : SE S A) (k : A -> SE S B) : SE S B :=
  fun s => match m s with
           | (inl e, s') => (inl e, s')
           | (inr a, s') => k a s'
           end.

(** [try: body / except Exception as e: handler e / else: orelse]. *)
Definition try_except_else {S A B} (body : SE S A) (handler : Exn -> SE S B)
    (orelse : A -> SE S B) : SE S B :=
  fun s => match body s with
           | (inl e, s') => handler e s'
           | (inr a, s') => orelse a s'
           end.

Definition try_except {S A} (body : SE S A) (handler : Exn -> SE S A)
    : SE S A :=
  try_except_else body handler ret.

Definition gets {S A} (f : S -> A) : SE S A := fun s => (inr (f s), s).

Definition modify {S} (f : S -> S) : SE S unit := fun s => (inr tt, f s).

Definition lift_err {S A} (r : Exn + A) : SE S A := fun s => (r, s).

Notation "x <- m ;; k" := (bind m (fun x => k))
  (at level 100, m at next level, right associativity).
Notation "m ;;; k" := (bind m (fun _ => k))
  (at level 100, right associativity).
Notation "x <-? m ;; k" := (err_bind m (fun x => k))
  (at level 100, m at next level, right associativity).
Notation "m ?;; k" := (err_bind m (fun _ => k))
  (at level 100, right associativity).

(** [assert cond]. *)
Definition assert (cond : bool) : Exn + unit :=
  if cond then inr tt else inl AssertionError.

(** [repr] of a Python [str], as an f-string prints it with [!r] (for a text
    without quotes or escapes). *)
Definition repr_str (x : string) : string := "'" ++ x ++ "'".

(** The last character of a text. *)
Fixpoint last_char (x : string) : option ascii :=
  match x with
  | EmptyString => None
  | String c EmptyString => Some c
  | String _ rest => last_char rest
  end.

(** ** Server-side model ([edb/server/server.py]) *)

Module Server.

(** Port classes handed to [_new_port]. *)
Inductive PortCls : Type :=
| ManagementPort | HttpGraphQLPort | HttpEdgeQLPort | NotebookPort.

#[global] Instance PortCls_eq_dec : EqDecision PortCls.
Proof. solve_decision. Defined.

(** Modelled from the spec: the listener primitive ([mng_port], [http_*_port],
    [baseport] are not part of the sources).  A listener handle has one of the
    states of section 3 and the capability set [{start(), stop()}]. *)
Inductive LState : Type :=
| NotStarted | Starting | Running | Stopping | Stopped.

#[global] Instance LState_eq_dec : EqDecision LState.
Proof. solve_decision. Defined.

(** A value of the [ports] setting ([config.ConfigType]); it is the key of
    the [_sys_conf_ports] dictionary. *)
Record PortConf : Type := mkPortConf {
  protocol : string;
  address : string;
  port : Z;
  database : string;
  user : string;
  concurrency : Z }.

#[global] Instance PortConf_eq_dec : EqDecision PortConf.
Proof. solve_decision. Defined.

Definition PortConf_to_tuple (c : PortConf) :
    string * string * Z * string * string * Z :=
  (protocol c, address c, port c, database c, user c, concurrency c).

Definition PortConf_of_tuple
    (t : string * string * Z * string * string * Z) : PortConf :=
  let '(a, b, c, d, e, f) := t in mkPortConf a b c d e f.

#[global] Instance PortConf_countable : Countable PortConf.
Proof.
  apply (inj_countable' PortConf_to_tuple PortConf_of_tuple).
  intros []; reflexivity.
Defined.

(** A port object on the heap: the keyword arguments it was built with and
    the state of its listener. *)
Record Port : Type := mkPort {
  port_cls : PortCls;
  nethost : string;
  netport : Z;
  port_conf : option PortConf;
  lstate : LState }.

Definition set_lstate (st : LState) (p : Port) : Port :=
  mkPort (port_cls p) (nethost p) (netport p) (port_conf p) st.

(** An entry of the [auth] setting ([cfg::Auth]). *)
Record AuthMethod : Type := mkAuthMethod { method_type : string }.

Record Auth : Type := mkAuth {
  priority : Z;
  auth_user : list string;
  method : AuthMethod }.

(** The system configuration as [config.lookup] sees it: [None] is a setting
    that is not set; a set-valued setting is the list of its elements in
    iteration order. *)
Record SysConfig : Type := mkSysConfig {
  cfg_auth : option (list Auth);
  cfg_ports : option (list PortConf) }.

(** Calls into the external listener implementation, and what the run
    of a server method leaves behind: the hook calls with their outcome
    ([None] is a normal return) and the records sent to [logging]. *)
Inductive HookCall : Type :=
| CConstruct (cls : PortCls) (host : string) (port : Z)
| CStart (p : nat)
| CStop (p : nat).

Inductive LogLevel : Type := LInfo | LWarning | LError | LException.

Inductive Event : Type :=
| EvHook (c : HookCall) (outcome : option Exn)
| EvLog (lvl : LogLevel) (msg : string).

#[global] Instance HookCall_eq_dec : EqDecision HookCall.
Proof. solve_decision. Defined.
#[global] Instance LogLevel_eq_dec : EqDecision LogLevel.
Proof. solve_decision. Defined.
#[global] Instance Event_eq_dec : EqDecision Event.
Proof. solve_decision. Defined.

(** The environment decides whether a hook call fails; its answer may depend
    on everything that happened before. *)
Definition Env : Type := list Event -> HookCall -> option Exn.

(** The attributes of [Server] that the modelled methods read or write.
    [heap] holds the port objects, addressed by their index. *)
Record State : Type := mkState {
  heap : list Port;
  _mgmt_port : option nat;
  _mgmt_host_addr : string;
  _mgmt_port_no : Z;
  _sys_conf_ports : gmap PortConf nat;
  _sys_auth : list Auth;
  sys_config : SysConfig;
  events : list Event }.

Definition with_heap (h : list Port) (s : State) : State :=
  mkState h (_mgmt_port s) (_mgmt_host_addr s) (_mgmt_port_no s)
          (_sys_conf_ports s) (_sys_auth s) (sys_config s) (events s).

Definition with_mgmt (p : option nat) (host : string) (no : Z) (s : State)
    : State :=
  mkState (heap s) p host no
          (_sys_conf_ports s) (_sys_auth s) (sys_config s) (events s).

Definition with_sys_conf_ports (r : gmap PortConf nat) (s : State) : State :=
  mkState (heap s) (_mgmt_port s) (_mgmt_host_addr s) (_mgmt_port_no s)
          r (_sys_auth s) (sys_config s) (events s).

Definition with_sys_auth (a : list Auth) (s : State) : State :=
  mkState (heap s) (_mgmt_port s) (_mgmt_host_addr s) (_mgmt_port_no s)
          (_sys_conf_ports s) a (sys_config s) (events s).

Definition with_event (e : Event) (s : State) : State :=
  mkState (heap s) (_mgmt_port s) (_mgmt_host_addr s) (_mgmt_port_no s)
          (_sys_conf_ports s) (_sys_auth s) (sys_config s) (events s ++ [e]).

(** The methods of [Server] run over its attributes. *)
Definition M (A : Type) : Type := SE State A.

Definition logging (lvl : LogLevel) (msg : string) : M unit :=
  modify (with_event (EvLog lvl msg)).

Section WithEnv.

Variable env : Env.

(** Ask the environment for the outcome of a hook call and record it. *)
Definition hook (c : HookCall) : M (option Exn) :=
  fun s => let o := env (events s) c in
           (inr o, with_event (EvHook c o) s).

(** Modelled from the spec: [port.start()] of the listener primitive.  The
    listener goes through [Starting] and reaches [Running] when the start
    returns; a failed start raises and leaves it in [Starting]. *)
Definition port_start (p : nat) : M unit :=
  h <- gets heap ;;
  match h !! p with
  | None => raise AttributeError
  | Some P =>
      modify (with_heap (<[p := set_lstate Starting P]> h)) ;;;
      o <- hook (CStart p) ;;
      match o with
      | Some e => raise e
      | None => modify (with_heap (<[p := set_lstate Running P]> h))
      end
  end.

(** Modelled from the spec: [port.stop()] of the listener primitive, through
    [Stopping] to [Stopped]; a failed stop raises and leaves it in
    [Stopping]. *)
Definition port_stop (p : nat) : M unit :=
  h <- gets heap ;;
  match h !! p with
  | None => raise AttributeError
  | Some P =>
      modify (with_heap (<[p := set_lstate Stopping P]> h)) ;;;
      o <- hook (CStop p) ;;
      match o with
      | Some e => raise e
      | None => modify (with_heap (<[p := set_lstate Stopped P]> h))
      end
  end.

(** [Server._new_port]: builds a port object of class [cls]; the constructor
    of the port class is external and may raise.  The new object is stored at
    a fresh address. *)
Definition _new_port (cls : PortCls) (host : string) (no : Z)
    (conf : option PortConf) : M nat :=
  o <- hook (CConstruct cls host no) ;;
  match o with
  | Some e => raise e
  | None =>
      h <- gets heap ;;
      modify (with_heap (h ++ [mkPort cls host no conf NotStarted])) ;;;
      ret (length h)
  end.

(** [self._mgmt_port.<method>()]: the attribute is [None] until [init] has
    run and after [stop]. *)
Definition the_mgmt_port : M nat :=
  mp <- gets _mgmt_port ;;
  match mp with
  | None => raise AttributeError
  | Some p => ret p
  end.

(** [Server._restart_mgmt_port]. *)
Definition _restart_mgmt_port (host : string) (no : Z) : M unit :=
  (p0 <- the_mgmt_port ;; port_stop p0) ;;;
  new_mgmt_port <-
    try_except
      (_new_port ManagementPort host no None)
      (fun e => (p0 <- the_mgmt_port ;; port_start p0) ;;; raise e) ;;
  try_except_else
    (port_start new_mgmt_port)
    (fun e =>
       try_except
         (port_stop new_mgmt_port)
         (fun _ => logging LException "could not stop the new server") ;;;
       (p0 <- the_mgmt_port ;; port_start p0) ;;;
       raise e)
    (fun _ =>
       modify (with_mgmt (Some new_mgmt_port) host no)).

(** [Server._start_portconf].  The result is the value the coroutine returns:
    [None] or the port.  Log records keep their format string. *)
Definition _start_portconf (portconf : PortConf) (suppress_errors : bool)
    : M (option nat) :=
  reg <- gets _sys_conf_ports ;;
  match reg !! portconf with
  | Some _ =>
      logging LInfo "port for config %r has been already started" ;;;
      ret None
  | None =>
      port_cls <-
        (if String.eqb (protocol portconf) "graphql+http" then
           ret HttpGraphQLPort
         else if String.eqb (protocol portconf) "edgeql+http" then
           ret HttpEdgeQLPort
         else if String.eqb (protocol portconf) "notebook" then
           ret NotebookPort
         else
           raise (InvalidReferenceError
                    ("unknown protocol " ++ repr_str (protocol portconf)))) ;;
      port <- _new_port port_cls (address portconf) (port portconf)
                        (Some portconf) ;;
      try_except_else
        (port_start port)
        (fun ex =>
           port_stop port ;;;
           if suppress_errors then
             logging LError "failed to start port for config: %r"
           else
             raise ex)
        (fun _ => logging LInfo "started port for config: %r") ;;;
      modify (fun s =>
                with_sys_conf_ports (<[portconf := port]> (_sys_conf_ports s))
                                    s) ;;;
      ret (Some port)
  end.

(** [Server._stop_portconf]. *)
Definition _stop_portconf (portconf : PortConf) : M unit :=
  reg <- gets _sys_conf_ports ;;
  match reg !! portconf with
  | None => logging LWarning "no port to stop for config: %r"
  | Some port =>
      try_except_else
        (modify (with_sys_conf_ports (delete portconf reg)) ;;;
         port_stop port)
        (fun _ => logging LError "failed to stop port for config: %r")
        (fun _ => logging LInfo "stopped port for config: %r")
  end.

End WithEnv.

(** *** The cached authentication rules *)

(** [sorted(auth, key=lambda a: a.priority)]: Python's sort is stable, so
    the result is the one of a stable insertion sort. *)
Fixpoint insert_by_priority (a : Auth) (l : list Auth) : list Auth :=
  match l with
  | [] => [a]
  | b :: l' =>
      if priority a <=? priority b then a :: b :: l'
      else b :: insert_by_priority a l'
  end.

Definition sorted_by_priority (l : list Auth) : list Auth :=
  foldr insert_by_priority [] l.

(** Ascending order of priority. *)
Definition by_priority (a b : Auth) : Prop := priority a <= priority b.

(** [config.lookup('auth', cfg) or ()]. *)
Definition lookup_auth (cfg : SysConfig) : list Auth :=
  match cfg_auth cfg with
  | None => []
  | Some l => l
  end.

(** [Server._populate_sys_auth]. *)
Definition _populate_sys_auth : M unit :=
  cfg <- gets sys_config ;;
  let auth := lookup_auth cfg in
  modify (with_sys_auth (sorted_by_priority auth)).

(** A value delivered with a configuration delta. *)
Inductive ConfigValue : Type :=
| VStr (v : string)
| VInt (v : Z)
| VPortConf (v : PortConf)
| VAuth (v : Auth).

(** [Server._after_system_config_add], [_after_system_config_rem],
    [_after_system_config_set] and [_after_system_config_reset]. *)
Definition _after_system_config_add (setting_name : string)
    (value : ConfigValue) : M unit :=
  if String.eqb setting_name "auth" then _populate_sys_auth else ret tt.

Definition _after_system_config_rem (setting_name : string)
    (value : ConfigValue) : M unit :=
  if String.eqb setting_name "auth" then _populate_sys_auth else ret tt.

Definition _after_system_config_set (setting_name : string)
    (value : ConfigValue) : M unit := ret tt.

Definition _after_system_config_reset (setting_name : string) : M unit :=
  ret tt.

(** [user in auth.user or '*' in auth.user]. *)
Definition auth_matches (user : string) (a : Auth) : bool :=
  bool_decide (user ∈ auth_user a) || bool_decide ("*" ∈ auth_user a).

(** The [for] loop of [get_auth_method]; falling off its end returns
    [None]. *)
Fixpoint first_matching_method (user : string) (authlist : list Auth)
    : option AuthMethod :=
  match authlist with
  | [] => None
  | a :: rest =>
      if auth_matches user a then Some (method a)
      else first_matching_method user rest
  end.

(** [config.get_settings().get_type_by_name('SCRAM')()]. *)
Definition default_method : AuthMethod := mkAuthMethod "SCRAM".

(** [Server.get_auth_method]; the result [None] is Python's [None]. *)
Definition get_auth_method (s : State) (user : string) : option AuthMethod :=
  let authlist := _sys_auth s in
  match authlist with
  | [] => Some default_method
  | _ => first_matching_method user authlist
  end.

(** *** Vocabulary for the statements about listeners *)

(** The state after a hook call [c] with outcome [o] that left the heap
    [h]. *)
Definition after_hook (h : list Port) (c : HookCall) (o : option Exn)
    (s : State) : State :=
  mkState h (_mgmt_port s) (_mgmt_host_addr s) (_mgmt_port_no s)
          (_sys_conf_ports s) (_sys_auth s) (sys_config s)
          (events s ++ [EvHook c o]).

(** Among the events [evs] of a restart of the management port [p0]: the
    construction of the replacement, or its start, failed with [e]. *)
Definition replacement_failed (p0 : nat) (e : Exn) (evs : list Event) : Prop :=
  (exists cls h n, In (EvHook (CConstruct cls h n) (Some e)) evs) \/
  (exists p, p <> p0 /\ In (EvHook (CStart p) (Some e)) evs).

(** The statement that a failed restart of the original listener is logged
    and hidden behind the error of the replacement. *)
Definition rollback_failure_is_swallowed : Prop :=
  forall (env : Env) (s s' : State) (host : string) (no : Z)
         (r : Exn + unit) (p0 : nat) (P0 : Port) (e e' : Exn)
         (evs : list Event),
    _mgmt_port s = Some p0 ->
    heap s !! p0 = Some P0 ->
    _restart_mgmt_port env host no s = (r, s') ->
    events s' = events s ++ evs ->
    replacement_failed p0 e evs ->
    In (EvHook (CStart p0) (Some e')) evs ->
    r = inl e /\ exists lvl msg, In (EvLog lvl msg) evs.

(** All the ways through [_restart_mgmt_port] on a server whose management
    port [p0] exists: the events it appends, its result and its final state,
    by the outcomes of the hook calls. *)
Inductive RestartPath (p0 : nat) (P0 : Port) (s : State)
    (host : string) (no : Z)
    : list Event -> Exn + unit -> State -> Prop :=
| StopFailed e0 s' :
    RestartPath p0 P0 s host no
      [EvHook (CStop p0) (Some e0)] (inl e0) s'
| ConstructFailed e1 o s' :
    _mgmt_port s' = _mgmt_port s ->
    _mgmt_host_addr s' = _mgmt_host_addr s ->
    _mgmt_port_no s' = _mgmt_port_no s ->
    heap s' !! p0 =
      Some (set_lstate
              (match o with None => Running | _ => Starting end)
              P0) ->
    RestartPath p0 P0 s host no
      [EvHook (CStop p0) None;
       EvHook (CConstruct ManagementPort host no)
                     (Some e1);
       EvHook (CStart p0) o]
      (inl (match o with None => e1 | Some e' => e' end)) s'
| StartFailed new e2 o3 o s' :
    new <> p0 ->
    _mgmt_port s' = _mgmt_port s ->
    _mgmt_host_addr s' = _mgmt_host_addr s ->
    _mgmt_port_no s' = _mgmt_port_no s ->
    heap s' !! p0 =
      Some (set_lstate
              (match o with None => Running | _ => Starting end)
              P0) ->
    RestartPath p0 P0 s host no
      ([EvHook (CStop p0) None;
        EvHook (CConstruct ManagementPort host no) None;
        EvHook (CStart new) (Some e2);
        EvHook (CStop new) o3] ++
       match o3 with
       | Some _ =>
           [EvLog LException "could not stop the new server"]
       | None => []
       end ++
       [EvHook (CStart p0) o])
      (inl (match o with None => e2 | Some e' => e' end)) s'
| Replaced new s' :
    new <> p0 ->
    _mgmt_port s' = Some new ->
    _mgmt_host_addr s' = host ->
    _mgmt_port_no s' = no ->
    RestartPath p0 P0 s host no
      [EvHook (CStop p0) None;
       EvHook (CConstruct ManagementPort host no) None;
       EvHook (CStart new) None]
      (inr tt) s'.

(** *** Sample servers and environments *)

(** A server whose management listener runs on localhost:10701, with no
    configured ports. *)
Definition mgmt_10701 : Port :=
  mkPort ManagementPort "localhost" 10701 None Running.

Definition server_10701 : State :=
  mkState [mgmt_10701] (Some 0%nat) "localhost" 10701 ∅ []
          (mkSysConfig None None) [].

Definition address_in_use : Exn := OSError "address already in use".
Definition cannot_listen : Exn := OSError "cannot listen".

(** Every start of a port other than port 0 finds its address taken. *)
Definition env_new_port_cannot_start : Env :=
  fun _ c =>
    match c with
    | CStart (S _) => Some address_in_use
    | _ => None
    end.

(** No start succeeds any more: new ports find their address taken and port
    0 cannot listen again. *)
Definition env_nothing_starts : Env :=
  fun _ c =>
    match c with
    | CStart (S _) => Some address_in_use
    | CStart O => Some cannot_listen
    | _ => None
    end.

Definition graphql_8888 : PortConf :=
  mkPortConf "graphql+http" "localhost" 8888 "edgedb" "edgedb" 4.

(** A server with cached rules for [alice] and [bob] only. *)
Definition auth_alice : Auth :=
  mkAuth 10 ["alice"] (mkAuthMethod "Trust").
Definition auth_bob : Auth :=
  mkAuth 5 ["bob"] (mkAuthMethod "SCRAM").

Definition server_with_rules : State :=
  mkState [mgmt_10701] (Some 0%nat) "localhost" 10701 ∅
          [auth_bob; auth_alice]
          (mkSysConfig (Some [auth_alice; auth_bob]) None) [].

End Server.

(** ** The system connection arbitrator ([edb/server/server.py])

    [Server.init] creates the one system connection and an [asyncio.Queue]
    holding it; [_acquire_sys_pgcon] awaits [Queue.get] and
    [_release_sys_pgcon] calls [Queue.put_nowait].  The event loop runs one
    task at a time, so a run of the server is a sequence of atomic actions of
    its tasks. *)

Module Arbitrator.

Definition Task : Type := nat.
Definition Conn : Type := nat.

(** The part of Python's [asyncio.Queue] that is used: the items ([_queue])
    and the futures of the suspended [get] calls ([_getters]), each named
    by its task; the queue is unbounded.  An item is the value of
    [self.__sys_pgcon] at the time of the release. *)
Record Queue : Type := mkQueue {
  _queue : list (option Conn);
  _getters : list Task }.

(** The two attributes of [Server], and the tasks around them:
    - [woken]: tasks whose [get] future has its result and that have not
      run since;
    - [holding]: tasks to which [_acquire_sys_pgcon] returned and that did
      not release since;
    - [arrivals]: the calls of [_acquire_sys_pgcon], in order;
    - [granted]: the returns of [_acquire_sys_pgcon], in order. *)
Record State : Type := mkState {
  __sys_pgcon : option Conn;
  _sys_pgcon_waiters : option Queue;
  woken : list Task;
  holding : list Task;
  arrivals : list Task;
  granted : list Task }.

(** [Server.__init__], and the first three statements of [Server.init]. *)
Definition new_server : State := mkState None None [] [] [] [].

Definition init (conn : Conn) (s : State) : State :=
  mkState (Some conn) (Some (mkQueue [Some conn] []))
          (woken s) (holding s) (arrivals s) (granted s).

(** One turn of the loop of [Queue.get], run by task [t]:
    [while self.empty(): getter = create_future();
     self._getters.append(getter); await getter]
    and then [return self.get_nowait()].  With an item present the call
    returns it at once; with none, the task parks a new future at the back
    of [_getters] and is suspended. *)
Definition Queue_get (t : Task) (q : Queue)
    : option (option Conn) * Queue :=
  match _queue q with
  | [] => (None, mkQueue [] (_getters q ++ [t]))
  | c :: rest => (Some c, mkQueue rest (_getters q))
  end.

(** [Queue.put_nowait]: appends the item and wakes the first suspended
    getter ([_wakeup_next]); the woken task, if any, is returned. *)
Definition Queue_put_nowait (c : option Conn) (q : Queue)
    : option Task * Queue :=
  match _getters q with
  | [] => (None, mkQueue (_queue q ++ [c]) [])
  | g :: gs => (Some g, mkQueue (_queue q ++ [c]) gs)
  end.

Fixpoint remove_first (t : Task) (l : list Task) : list Task :=
  match l with
  | [] => []
  | x :: l' => if Nat.eqb x t then l' else x :: remove_first t l'
  end.

Definition is_in (t : Task) (l : list Task) : bool :=
  existsb (Nat.eqb t) l.

(** What a turn of [Queue.get] means for [t]: the call returns and [t]
    holds the connection, or [t] is suspended. *)
Definition get_turn (t : Task) (q : Queue) (s : State) : State :=
  match Queue_get t q with
  | (Some _, q') =>
      mkState (__sys_pgcon s) (Some q') (woken s) (holding s ++ [t])
              (arrivals s) (granted s ++ [t])
  | (None, q') =>
      mkState (__sys_pgcon s) (Some q') (woken s) (holding s)
              (arrivals s) (granted s)
  end.

Definition note_arrival (t : Task) (s : State) : State :=
  mkState (__sys_pgcon s) (_sys_pgcon_waiters s) (woken s) (holding s)
          (arrivals s ++ [t]) (granted s).

Definition unwake (t : Task) (s : State) : State :=
  mkState (__sys_pgcon s) (_sys_pgcon_waiters s) (remove_first t (woken s))
          (holding s) (arrivals s) (granted s).

(** [Server._acquire_sys_pgcon], called by task [t], up to its return or
    its suspension. *)
Definition _acquire_sys_pgcon (t : Task) (s : State) : Exn + State :=
  match _sys_pgcon_waiters s with
  | None => inl (RuntimeError "invalid request to acquire a system pgcon")
  | Some q => inr (get_turn t q (note_arrival t s))
  end.

(** The event loop runs [t]: a task woken inside [Queue.get] goes through
    the loop once more; a task that is not ready does not run. *)
Definition resume (t : Task) (s : State) : State :=
  match _sys_pgcon_waiters s with
  | Some q => if is_in t (woken s) then get_turn t q (unwake t s) else s
  | None => s
  end.

(** [Server._release_sys_pgcon], called by task [t]: it puts
    [self.__sys_pgcon] into the queue, whoever calls it. *)
Definition _release_sys_pgcon (t : Task) (s : State) : Exn + State :=
  match _sys_pgcon_waiters s with
  | None => inl AttributeError
  | Some q =>
      let '(w, q') := Queue_put_nowait (__sys_pgcon s) q in
      inr (mkState (__sys_pgcon s) (Some q')
                   (woken s ++ match w with Some g => [g] | None => [] end)
                   (remove_first t (holding s))
                   (arrivals s) (granted s))
  end.

Inductive Action : Type :=
| Acquire (t : Task)
| Resume (t : Task)
| Release (t : Task).

Definition step (s : State) (a : Action) : Exn + State :=
  match a with
  | Acquire t => _acquire_sys_pgcon t s
  | Resume t => inr (resume t s)
  | Release t => _release_sys_pgcon t s
  end.

Fixpoint run (s : State) (tr : list Action) : Exn + State :=
  match tr with
  | [] => inr s
  | a :: tr' =>
      match step s a with
      | inl e => inl e
      | inr s' => run s' tr'
      end
  end.

(** The scoped-acquisition discipline of the callers: only a task that
    holds the connection releases it. *)
Fixpoint disciplined (s : State) (tr : list Action) : bool :=
  match tr with
  | [] => true
  | a :: tr' =>
      match a with
      | Release t => is_in t (holding s)
      | _ => true
      end &&
      match step s a with
      | inl _ => true
      | inr s' => disciplined s' tr'
      end
  end.

(** No caller enters [_acquire_sys_pgcon] between a release that woke a
    waiter and the moment that waiter runs. *)
Fixpoint no_overtaking (s : State) (tr : list Action) : bool :=
  match tr with
  | [] => true
  | a :: tr' =>
      match a with
      | Acquire _ => match woken s with [] => true | _ => false end
      | _ => true
      end &&
      match step s a with
      | inl _ => true
      | inr s' => no_overtaking s' tr'
      end
  end.

(** Service in the order of the calls: the tasks served so far are the first
    callers, in the order in which they called. *)
Definition fifo_service (s : State) : Prop :=
  granted s `prefix_of` arrivals s.


(** A run in which a late caller overtakes: task 0 holds the connection,
    tasks 1, 2 and 3 queue up, task 0 releases, and task 4 asks before the
    woken task 1 has run. *)
Definition overtaking_run : list Action :=
  [Acquire 0%nat; Acquire 1%nat; Acquire 2%nat; Acquire 3%nat;
   Release 0%nat; Acquire 4%nat; Resume 1%nat;
   Release 4%nat; Resume 2%nat;
   Release 2%nat; Resume 3%nat;
   Release 3%nat; Resume 1%nat].

Definition after_overtaking_run : State :=
  mkState (Some 7%nat) (Some (mkQueue [] [])) [] [1%nat]
          [0%nat; 1%nat; 2%nat; 3%nat; 4%nat]
          [0%nat; 4%nat; 2%nat; 3%nat; 1%nat].



(** Invariants of the runs of disciplined callers.  The connection is
    either in the queue or with exactly one holder. *)
Definition exclusive_inv (s : State) : Prop :=
  match _sys_pgcon_waiters s with
  | Some q => (length (_queue q) + length (holding s) = 1)%nat
  | None => holding s = []
  end.

(** Without overtaking: the callers not served yet wait in the order in
    which they called, a woken one first; at most one is woken, and only
    while the connection is in the queue. *)
Definition fifo_inv (s : State) : Prop :=
  match _sys_pgcon_waiters s with
  | Some q =>
      granted s ++ woken s ++ _getters q = arrivals s
      /\ (woken s = [] \/ exists w, woken s = [w] /\ _queue q <> [])
      /\ (_queue q <> [] -> woken s = [] -> _getters q = [])
  | None => fifo_service s
  end.

End Arbitrator.

(** ** CONFIGURE statement compilation ([edb/edgeql/compiler/config.py]) *)

Module Config.

(** [qltypes.ConfigScope] and [qltypes.SchemaCardinality]. *)
Inductive ConfigScope : Type := INSTANCE | DATABASE | SESSION.

Inductive SchemaCardinality : Type := One | Many.

#[global] Instance ConfigScope_eq_dec : EqDecision ConfigScope.
Proof. solve_decision. Defined.

(** [str(scope)], as an f-string prints it. *)
Definition scope_str (sc : ConfigScope) : string :=
  match sc with
  | INSTANCE => "INSTANCE"
  | DATABASE => "DATABASE"
  | SESSION => "SESSION"
  end.

(** *** EdgeQL syntax trees ([qlast]) *)

Record ObjectRef : Type := mkObjectRef {
  name : string;
  module : option string }.

(** The steps of a [qlast.Path]. [Introspect maintype] stands for
    [qlast.Introspect(type=qlast.TypeName(maintype=...))]. *)
Inductive QlStep : Type :=
| StepObjectRef (r : ObjectRef)
| StepPtr (ptr : ObjectRef)
| StepIntrospect (maintype : QlStep)
| StepOther (tag : nat).

(** Expressions; the [subject] of an [InsertQuery] is a [qlast.Path], given
    by its steps. *)
Inductive QlExpr : Type :=
| Path (steps : list QlStep)
| InsertQuery (subject : list QlStep) (shape : list ShapeElement)
| SelectQuery (result : QlExpr) (where_ : option QlExpr)
| Shape (expr : QlExpr) (elements : list ShapeElement)
| OtherExpr (tag : nat)
with ShapeElement : Type :=
| mkShapeElement (expr : QlExpr) (compexpr : option QlExpr).

(** [qlast.ConfigOp] and its three subclasses. *)
Inductive ConfigOp : Type :=
| ConfigSet (name : ObjectRef) (scope : ConfigScope) (expr : QlExpr)
| ConfigReset (name : ObjectRef) (scope : ConfigScope)
              (where_ : option QlExpr)
| ConfigInsert (name : ObjectRef) (scope : ConfigScope)
               (shape : list ShapeElement).

Definition op_name (expr : ConfigOp) : ObjectRef :=
  match expr with
  | ConfigSet n _ _ | ConfigReset n _ _ | ConfigInsert n _ _ => n
  end.

Definition op_scope (expr : ConfigOp) : ConfigScope :=
  match expr with
  | ConfigSet _ sc _ | ConfigReset _ sc _ | ConfigInsert _ sc _ => sc
  end.

(** *** Values decoded by [json.loads] *)
Inductive PyJson : Type :=
| JNull
| JBool (b : bool)
| JInt (z : Z)
| JStr (s : string)
| JList (l : list PyJson)
| JDict (l : list (string * PyJson)).

(** *** The intermediate representation ([irast]) *)

(** [irast.Set]: [rptr] is [None] or the short name of the pointer the set
    was reached by ([rptr.ptrref.shortname.name]); [typeref_is_object] is
    [irtyputils.is_object(typeref)]; [shape] pairs each element with its
    shape operation. *)
Inductive IrSet : Type :=
| mkIrSet (rptr : option string) (typeref_is_object : bool)
          (expr : option IrExpr) (shape : list (IrSet * nat))
with IrExpr : Type :=
| InsertStmt (subject : IrSet)
| SelectStmt (result : IrSet)
| OtherStmt (tag : nat)
| IrConfigSet (name : string) (cardinality : SchemaCardinality)
              (scope : ConfigScope) (requires_restart : bool)
              (backend_setting : option PyJson) (expr : IrSet)
| IrConfigReset (name : string) (cardinality : SchemaCardinality)
                (scope : ConfigScope) (requires_restart : bool)
                (backend_setting : option PyJson) (selector : option IrSet)
| IrConfigInsert (name : string) (cardinality : SchemaCardinality)
                 (scope : ConfigScope) (requires_restart : bool)
                 (backend_setting : option PyJson) (expr : IrSet).

(** What [dispatch.compile] returns: a set or an expression node. *)
Inductive IrNode : Type :=
| NodeSet (s : IrSet)
| NodeExpr (e : IrExpr).

Definition set_rptr (s : IrSet) : option string :=
  match s with mkIrSet r _ _ _ => r end.
Definition set_is_object (s : IrSet) : bool :=
  match s with mkIrSet _ o _ _ => o end.
Definition set_expr (s : IrSet) : option IrExpr :=
  match s with mkIrSet _ _ e _ => e end.
Definition set_shape (s : IrSet) : list (IrSet * nat) :=
  match s with mkIrSet _ _ _ sh => sh end.

Definition is_InsertStmt (e : option IrExpr) : bool :=
  match e with
  | Some (InsertStmt _) => true
  | _ => false
  end.

(** *** The catalog *)

Definition TypeId : Type := nat.
Definition PtrId : Type := nat.

(** The read-only catalog view (the schema modules are external
    collaborators; section 6 of the specification lists these accessors).
    - [lookup_type m n]: [env.get_track_schema_type(QualName(m, n),
      default=None)];
    - [lookup_object m n]: [env.get_track_schema_object(QualName(m, n), ...,
      default=None)];
    - [is_object_type t]: [t] is an [ObjectType] ([t.is_object_type()]);
    - [get_ancestors t]: [t.get_ancestors(schema).objects(schema)];
    - [issubclass a b]: [a.issubclass(schema, b)];
    - [maybe_get_ptr t n]: [t.maybe_get_ptr(schema, UnqualName(n))];
    - [get_link_referrers t]: [schema.get_referrers(t, scls_type=Link,
      field_name='target')], in iteration order;
    - [ptr_annotation p k]: the value of annotation [cfg::k] of [p], if
      set. *)
Record Catalog : Type := mkCatalog {
  lookup_type : string -> string -> option TypeId;
  lookup_object : string -> string -> option nat;
  is_object_type : TypeId -> bool;
  type_name : TypeId -> string * string;
  get_ancestors : TypeId -> list TypeId;
  issubclass : TypeId -> TypeId -> bool;
  maybe_get_ptr : TypeId -> string -> option PtrId;
  get_link_referrers : TypeId -> list PtrId;
  ptr_target : PtrId -> option TypeId;
  ptr_source : PtrId -> option TypeId;
  ptr_shortname : PtrId -> string;
  ptr_cardinality : PtrId -> option SchemaCardinality;
  ptr_annotation : PtrId -> string -> option string }.

Record SettingInfo : Type := mkSettingInfo {
  param_name : string;
  param_type : TypeId;
  cardinality : SchemaCardinality;
  requires_restart : bool;
  backend_setting : option PyJson;
  affects_compilation : PyJson }.

(** *** Compilation contexts *)

(** [ctx.modaliases] is a dictionary shared by reference between context
    levels: the store holds the dictionaries, a context holds an address.
    The key [None] is the default module. *)
Definition Store : Type := list (gmap (option string) string).

Record Ctx : Type := mkCtx {
  modaliases : nat;
  expr_exposed : bool;
  special_computables_in_mutation_shape : gset string }.

(** [ctx.newscope(fenced=False)]: a new level that starts with the
    attributes of [ctx]. *)
Definition newscope (ctx : Ctx) : Ctx := ctx.

Definition dquote : string := String "034"%char EmptyString.

Section WithSchema.

(** [ctx.env.schema], [json.loads] ([None]: the text is not JSON) and the
    collaborators of the compiler: [dispatch.compile], [setgen.ensure_set],
    [s_utils.get_config_type_shape] and [ireval.evaluate] ([false]: it
    raises [UnsupportedExpressionError]). *)
Variable schema : Catalog.
Variable json_loads : string -> option PyJson.
Variable dispatch_compile :
  QlExpr -> Ctx -> Store -> (Exn + IrNode) * Store.
Variable ensure_set : IrNode -> Ctx -> IrSet.
Variable get_config_type_shape : TypeId -> list QlStep -> list ShapeElement.
Variable evaluate : IrSet -> bool.

(** The [for ct in mro] loop of [_validate_op]: the first type of [mro] that
    is the target of some link stops the search, with the first link of its
    referrers. *)
Fixpoint find_ptr_candidate (mro : list TypeId) : option PtrId :=
  match mro with
  | [] => None
  | ct :: rest =>
      match get_link_referrers schema ct with
      | [] => find_ptr_candidate rest
      | pointer_link :: _ => Some pointer_link
      end
  end.

Definition cannot_be_configured (name : string) : Exn :=
  ConfigurationError (repr_str name ++ " cannot be configured directly").

Definition is_ConfigSet (expr : ConfigOp) : bool :=
  match expr with ConfigSet _ _ _ => true | _ => false end.

(** The branch [if cfg_type is None] of [_validate_op]: [name] names a
    configuration type.  Returns [cfg_type], [ptr] and the new [name]. *)
Definition resolve_object_type (expr : ConfigOp) (cfg_host_type : TypeId)
    (name : string) : Exn + (TypeId * PtrId * string) :=
  (if is_ConfigSet expr then
     inl (ConfigurationError
            ("unrecognized configuration parameter " ++ repr_str name))
   else inr tt) ?;;
  match lookup_type schema "cfg" name with
  | None =>
      inl (ConfigurationError
             ("unrecognized configuration object " ++ repr_str name))
  | Some cfg_type =>
      assert (is_object_type schema cfg_type) ?;;
      let mro := cfg_type :: get_ancestors schema cfg_type in
      match find_ptr_candidate mro with
      | None => inl (cannot_be_configured name)
      | Some ptr_candidate =>
          match ptr_source schema ptr_candidate with
          | None => inl (cannot_be_configured name)
          | Some ptr_source_ =>
              if issubclass schema ptr_source_ cfg_host_type then
                inr (cfg_type, ptr_candidate,
                     ptr_shortname schema ptr_candidate)
              else inl (cannot_be_configured name)
          end
      end
  end.

Definition annotation_is_true (ptr : PtrId) (key : string) : bool :=
  match ptr_annotation schema ptr key with
  | None => false
  | Some v => String.eqb v "true"
  end.

Definition loads (text : string) : Exn + PyJson :=
  match json_loads text with
  | None => inl JSONDecodeError
  | Some v => inr v
  end.

(** [_validate_op].  The referrers asked for are links and [ptr] is a
    pointer on every path, so the two [isinstance] assertions on them hold
    and are left out; the assertions on the types and on the cardinality are
    kept. *)
Definition _validate_op (expr : ConfigOp) : Exn + SettingInfo :=
  (match module (op_name expr) with
   | Some m =>
       if negb (String.eqb m EmptyString) && negb (String.eqb m "cfg") then
         inl (QueryError
                ("invalid configuration parameter name: module must be " ++
                 "either 'cfg' or empty"))
       else inr tt
   | None => inr tt
   end) ?;;
  let name := name (op_name expr) in
  cfg_host_type <-?
    match lookup_type schema "cfg" "AbstractConfig" with
    | None => inl (InvalidReferenceError
                     "type 'cfg::AbstractConfig' does not exist")
    | Some t => inr t
    end ;;
  assert (is_object_type schema cfg_host_type) ?;;
  let ptr0 :=
    match expr with
    | ConfigSet _ _ _ | ConfigReset _ _ _ =>
        maybe_get_ptr schema cfg_host_type name
    | ConfigInsert _ _ _ => None
    end in
  resolved <-?
    match ptr0 with
    | Some ptr =>
        match ptr_target schema ptr with
        | Some cfg_type => inr (cfg_type, ptr, name)
        | None => resolve_object_type expr cfg_host_type name
        end
    | None => resolve_object_type expr cfg_host_type name
    end ;;
  let '(cfg_type, ptr, name) := resolved in
  let system := annotation_is_true ptr "system" in
  cardinality <-?
    match ptr_cardinality schema ptr with
    | None => inl AssertionError
    | Some c => inr c
    end ;;
  let requires_restart := annotation_is_true ptr "requires_restart" in
  backend_setting <-?
    match ptr_annotation schema ptr "backend_setting" with
    | Some v => b <-? loads v ;; inr (Some b)
    | None => inr None
    end ;;
  affects_compilation <-?
    match ptr_annotation schema ptr "affects_compilation" with
    | Some v => loads v
    | None => inr (JBool false)
    end ;;
  (if system && negb (bool_decide (op_scope expr = INSTANCE)) then
     inl (ConfigurationError
            (repr_str name ++
             " is a system-level configuration parameter; use " ++
             dquote ++ "CONFIGURE INSTANCE" ++ dquote))
   else inr tt) ?;;
  inr (mkSettingInfo name cfg_type cardinality requires_restart
                     backend_setting affects_compilation).

(** The element that [_inject_tname] appends to the shape of an insert
    whose subject starts with [step0]:
    [_tname := (INTROSPECT TYPEOF <subject>).name]. *)
Definition tname_element (step0 : QlStep) : ShapeElement :=
  mkShapeElement
    (Path [StepPtr (mkObjectRef "_tname" None)])
    (Some (Path [StepIntrospect step0;
                 StepPtr (mkObjectRef "name" None)])).

Definition is_BaseObjectRef (st : QlStep) : bool :=
  match st with StepObjectRef _ => true | _ => false end.

(** [_inject_tname].  Python appends to the shape of the statement in place;
    here the statement with the extended shapes is returned.  The argument
    is an [InsertQuery] at every call. *)
Fixpoint _inject_tname (insert_stmt : QlExpr) : Exn + QlExpr :=
  match insert_stmt with
  | InsertQuery subject shape =>
      shape' <-?
        (fix each (els : list ShapeElement) : Exn + list ShapeElement :=
           match els with
           | [] => inr []
           | mkShapeElement e (Some (InsertQuery _ _ as q)) :: rest =>
               q' <-? _inject_tname q ;;
               rest' <-? each rest ;;
               inr (mkShapeElement e (Some q') :: rest')
           | el :: rest =>
               rest' <-? each rest ;;
               inr (el :: rest')
           end) shape ;;
      match subject with
      | [] => inl IndexError
      | step0 :: _ =>
          assert (is_BaseObjectRef step0) ?;;
          inr (InsertQuery subject (shape' ++ [tname_element step0]))
      end
  | other => inr other
  end.

(** The loop [for el in expr.shape] of [compile_ConfigInsert]. *)
Fixpoint inject_tname_in_shape (els : list ShapeElement)
    : Exn + list ShapeElement :=
  match els with
  | [] => inr []
  | mkShapeElement e (Some (InsertQuery _ _ as q)) :: rest =>
      q' <-? _inject_tname q ;;
      rest' <-? inject_tname_in_shape rest ;;
      inr (mkShapeElement e (Some q') :: rest')
  | el :: rest =>
      rest' <-? inject_tname_in_shape rest ;;
      inr (el :: rest')
  end.

(** [_validate_config_object]; its keyword arguments [scope] and [ctx] are
    not used by its body. *)
Fixpoint _validate_config_object (expr : IrSet) : Exn + unit :=
  match expr with
  | mkIrSet _ _ _ shape =>
      (fix each (els : list (IrSet * nat)) : Exn + unit :=
         match els with
         | [] => inr tt
         | (element, _) :: rest =>
             match set_rptr element with
             | None => inl AssertionError
             | Some shortname =>
                 if String.eqb shortname "id" then each rest
                 else if set_is_object element
                         && is_InsertStmt (set_expr element) then
                   _validate_config_object element ?;; each rest
                 else each rest
             end
         end) shape
  end.

(** [d = store[l]], [store[l][k] = v] and [store[l].copy()] on the
    dictionaries of the store; the address of a context is always in the
    store. *)
Definition dict_setitem (l : nat) (k : option string) (v : string)
    : SE Store unit :=
  fun st => match st !! l with
            | Some d => (inr tt, <[l := <[k := v]> d]> st)
            | None => (inl AttributeError, st)
            end.

Definition dict_copy (l : nat) : SE Store nat :=
  fun st => match st !! l with
            | Some d => (inr (length st), st ++ [d])
            | None => (inl AttributeError, st)
            end.

Definition is_Some_b {A} (o : option A) : bool :=
  match o with Some _ => true | None => false end.

(** [compile_ConfigSet] on [ConfigSet name scope expr]. *)
Definition compile_ConfigSet (name : ObjectRef) (scope : ConfigScope)
    (expr : QlExpr) (ctx : Ctx) : SE Store IrSet :=
  info <- lift_err (_validate_op (ConfigSet name scope expr)) ;;
  ir <- dispatch_compile expr ctx ;;
  let param_val := ensure_set ir ctx in
  (if evaluate param_val then ret tt
   else raise (QueryError
                 ("non-constant expression in CONFIGURE " ++
                  scope_str scope ++ " SET"))) ;;;
  let config_set :=
    IrConfigSet (param_name info) (cardinality info) scope
                (requires_restart info) (backend_setting info) param_val in
  ret (ensure_set (NodeExpr config_set) ctx).

(** [compile_ConfigReset] on [ConfigReset name scope where_]. *)
Definition compile_ConfigReset (name : ObjectRef) (scope : ConfigScope)
    (where_ : option QlExpr) (ctx : Ctx) : SE Store IrSet :=
  let expr := ConfigReset name scope where_ in
  info <- lift_err (_validate_op expr) ;;
  let filter_expr := where_ in
  select_ir <-
    (if negb (is_object_type schema (param_type info))
        && is_Some_b filter_expr then
       raise (QueryError
                ("RESET of a primitive configuration parameter " ++
                 "must not have a FILTER clause"))
     else if is_object_type schema (param_type info) then
       let param_type_name := type_name schema (param_type info) in
       let param_type_ref :=
         StepObjectRef (mkObjectRef (snd param_type_name)
                                    (Some (fst param_type_name))) in
       let select :=
         SelectQuery
           (Shape (Path [param_type_ref])
                  (get_config_type_shape (param_type info) [param_type_ref]))
           filter_expr in
       dict_setitem (modaliases ctx) None "cfg" ;;;
       ir <- dispatch_compile select ctx ;;
       ret (Some (ensure_set ir ctx))
     else ret None) ;;
  let config_reset :=
    IrConfigReset (param_name info) (cardinality info) scope
                  (requires_restart info) (backend_setting info) select_ir in
  ret (ensure_set (NodeExpr config_reset) ctx).

(** [compile_ConfigInsert] on [ConfigInsert name scope shape]. *)
Definition compile_ConfigInsert (name : ObjectRef) (scope : ConfigScope)
    (shape : list ShapeElement) (ctx : Ctx) : SE Store IrSet :=
  let expr := ConfigInsert name scope shape in
  info <- lift_err (_validate_op expr) ;;
  (if bool_decide (scope = INSTANCE) then ret tt
   else raise (UnsupportedFeatureError
                 ("CONFIGURE " ++ scope_str scope ++
                  " INSERT is not supported"))) ;;;
  match lookup_object schema "cfg" (Config.name name) with
  | None =>
      raise (ConfigurationError
               (repr_str (Config.name name) ++
                " is not a valid configuration item"))
  | Some subject =>
      shape' <- lift_err (inject_tname_in_shape shape) ;;
      let insert_stmt :=
        InsertQuery
          [StepObjectRef (mkObjectRef (Config.name name) (Some "cfg"))]
          shape' in
      let subctx := newscope ctx in
      copy <- dict_copy (modaliases ctx) ;;
      dict_setitem copy None "cfg" ;;;
      let subctx :=
        mkCtx copy true
              (special_computables_in_mutation_shape subctx ∪ {["_tname"]}) in
      insert_ir <- dispatch_compile insert_stmt subctx ;;
      let insert_ir_set := ensure_set insert_ir subctx in
      match set_expr insert_ir_set with
      | Some (InsertStmt insert_subject) =>
          lift_err (_validate_config_object insert_subject) ;;;
          ret (ensure_set
                 (NodeExpr
                    (IrConfigInsert (param_name info) (cardinality info) scope
                                    (requires_restart info)
                                    (backend_setting info) insert_subject))
                 ctx)
      | _ => raise AssertionError
      end
  end.

End WithSchema.

(** *** The statements of the specification, for comparison with the code *)

(** An element of a compiled shape that refers to an object that already
    exists: it is not the identity field, its type is an object type and it
    is not computed by a nested insert. *)
Definition is_existing_reference (element : IrSet) : bool :=
  match set_rptr element with
  | Some shortname =>
      negb (String.eqb shortname "id")
      && set_is_object element
      && negb (is_InsertStmt (set_expr element))
  | None => false
  end.

(** The specification's rule for a CONFIGURE INSERT shape: a reference to a
    pre-existing object anywhere in the shape, looking into nested inserts
    only, must make the validation fail. *)
Fixpoint has_existing_reference (expr : IrSet) : bool :=
  match expr with
  | mkIrSet _ _ _ shape =>
      (fix each (els : list (IrSet * nat)) : bool :=
         match els with
         | [] => false
         | (element, _) :: rest =>
             is_existing_reference element
             || (set_is_object element && is_InsertStmt (set_expr element)
                 && has_existing_reference element)
             || each rest
         end) shape
  end.

Definition rejects_existing_references : Prop :=
  forall expr : IrSet,
    has_existing_reference expr = true ->
    exists e, _validate_config_object expr = inl e.

(** Every set of a shape tree has the pointer it was reached by. *)
Fixpoint all_have_rptr (expr : IrSet) : bool :=
  match expr with
  | mkIrSet _ _ _ shape =>
      (fix each (els : list (IrSet * nat)) : bool :=
         match els with
         | [] => true
         | (element, _) :: rest =>
             is_Some_b (set_rptr element)
             && all_have_rptr element
             && each rest
         end) shape
  end.

(** The specification's resolution of a configuration object type: along
    the ancestor chain, the first link whose source is under the root
    configuration object. *)
Definition link_is_under_root (schema : Catalog) (cfg_host_type : TypeId)
    (l : PtrId) : bool :=
  match ptr_source schema l with
  | Some src => issubclass schema src cfg_host_type
  | None => false
  end.

Fixpoint resolve_link_spec (schema : Catalog) (cfg_host_type : TypeId)
    (mro : list TypeId) : option PtrId :=
  match mro with
  | [] => None
  | ct :: rest =>
      match List.find (link_is_under_root schema cfg_host_type)
                      (get_link_referrers schema ct) with
      | Some l => Some l
      | None => resolve_link_spec schema cfg_host_type rest
      end
  end.

(** An operation whose name [_validate_op] resolves as a configuration
    object type: an INSERT, or a RESET whose name is not a property of the
    root configuration object with a target. *)
Definition names_object_type (schema : Catalog) (cfg_host_type : TypeId)
    (expr : ConfigOp) : bool :=
  match expr with
  | ConfigInsert _ _ _ => true
  | ConfigReset n _ _ =>
      match maybe_get_ptr schema cfg_host_type (name n) with
      | Some ptr => negb (is_Some_b (ptr_target schema ptr))
      | None => true
      end
  | ConfigSet _ _ _ => false
  end.

Definition module_is_accepted (n : ObjectRef) : bool :=
  match module n with
  | Some m => String.eqb m EmptyString || String.eqb m "cfg"
  | None => true
  end.

(** The statement that resolution searches for the first link whose source
    is under the root configuration object, and fails exactly when that
    search finds nothing (or finds a link whose source is not under the
    root). *)
Definition filtered_resolution_claim : Prop :=
  forall (schema : Catalog) (json_loads : string -> option PyJson)
         (expr : ConfigOp) (cfg_host_type cfg_type : TypeId),
    module_is_accepted (op_name expr) = true ->
    lookup_type schema "cfg" "AbstractConfig" = Some cfg_host_type ->
    is_object_type schema cfg_host_type = true ->
    names_object_type schema cfg_host_type expr = true ->
    lookup_type schema "cfg" (name (op_name expr)) = Some cfg_type ->
    is_object_type schema cfg_type = true ->
    let found :=
      resolve_link_spec schema cfg_host_type
                        (cfg_type :: get_ancestors schema cfg_type) in
    _validate_op schema json_loads expr
      = inl (cannot_be_configured (name (op_name expr)))
    <-> (found = None
         \/ exists l, found = Some l
                      /\ link_is_under_root schema cfg_host_type l = false).

(** The statement that every CONFIGURE INSERT outside the instance scope
    fails with [UnsupportedFeatureError], whatever its target. *)
Definition insert_scope_claim : Prop :=
  forall (schema : Catalog) (json_loads : string -> option PyJson)
         (dispatch_compile : QlExpr -> Ctx -> Store -> (Exn + IrNode) * Store)
         (ensure_set : IrNode -> Ctx -> IrSet)
         (n : ObjectRef) (scope : ConfigScope) (shape : list ShapeElement)
         (ctx : Ctx) (st : Store),
    scope <> INSTANCE ->
    exists msg,
      fst (compile_ConfigInsert schema json_loads dispatch_compile ensure_set
                                n scope shape ctx st)
      = inl (UnsupportedFeatureError msg).

(** [dispatch.compile] leaves the dictionaries that exist alone (it may
    make new ones). *)
Definition keeps_dictionaries
    (dispatch_compile : QlExpr -> Ctx -> Store -> (Exn + IrNode) * Store)
    : Prop :=
  forall q c st r st',
    dispatch_compile q c st = (r, st') ->
    forall l d, st !! l = Some d -> st' !! l = Some d.

(** *** A sample catalog and sample collaborators

    Types: 0 [cfg::AbstractConfig], 1 [cfg::Auth], 2 [cfg::AuthMethod],
    3 [cfg::Trust] (under 2), 4 [std::int64], 5 [default::Holder],
    6 [cfg::Special] (under 7), 7 [cfg::Base].
    Pointers: 0 property [listen_port] of 0; links 1 [auth] from 0 to 1,
    2 [method] from 1 to 2, 3 [held] from 5 to 6, 4 [specials] from 0
    to 7.  [listen_port] and [auth] carry the annotation
    [cfg::system := 'true']. *)
Definition sample_catalog : Catalog :=
  mkCatalog
    (fun m n =>
       if String.eqb m "cfg" then
         if String.eqb n "AbstractConfig" then Some 0%nat
         else if String.eqb n "Auth" then Some 1%nat
         else if String.eqb n "AuthMethod" then Some 2%nat
         else if String.eqb n "Trust" then Some 3%nat
         else if String.eqb n "Special" then Some 6%nat
         else if String.eqb n "Base" then Some 7%nat
         else None
       else None)
    (fun m n =>
       if String.eqb m "cfg" then
         if String.eqb n "AbstractConfig" then Some 0%nat
         else if String.eqb n "Auth" then Some 1%nat
         else if String.eqb n "AuthMethod" then Some 2%nat
         else if String.eqb n "Trust" then Some 3%nat
         else if String.eqb n "Special" then Some 6%nat
         else if String.eqb n "Base" then Some 7%nat
         else None
       else None)
    (fun t => negb (Nat.eqb t 4))
    (fun t =>
       match t with
       | 0%nat => ("cfg", "AbstractConfig")
       | 1%nat => ("cfg", "Auth")
       | 2%nat => ("cfg", "AuthMethod")
       | 3%nat => ("cfg", "Trust")
       | 4%nat => ("std", "int64")
       | 5%nat => ("default", "Holder")
       | 6%nat => ("cfg", "Special")
       | _ => ("cfg", "Base")
       end)
    (fun t =>
       match t with
       | 3%nat => [2%nat]
       | 6%nat => [7%nat]
       | _ => []
       end)
    (fun a b =>
       Nat.eqb a b
       || (Nat.eqb a 3 && Nat.eqb b 2)
       || (Nat.eqb a 6 && Nat.eqb b 7))
    (fun t n =>
       if Nat.eqb t 0 && String.eqb n "listen_port" then Some 0%nat
       else None)
    (fun t =>
       match t with
       | 1%nat => [1%nat]
       | 2%nat => [2%nat]
       | 6%nat => [3%nat]
       | 7%nat => [4%nat]
       | _ => []
       end)
    (fun p =>
       match p with
       | 0%nat => Some 4%nat
       | 1%nat => Some 1%nat
       | 2%nat => Some 2%nat
       | 3%nat => Some 6%nat
       | _ => Some 7%nat
       end)
    (fun p =>
       match p with
       | 2%nat => Some 1%nat
       | 3%nat => Some 5%nat
       | _ => Some 0%nat
       end)
    (fun p =>
       match p with
       | 0%nat => "listen_port"
       | 1%nat => "auth"
       | 2%nat => "method"
       | 3%nat => "held"
       | _ => "specials"
       end)
    (fun p => match p with 0%nat => Some One | _ => Some Many end)
    (fun p k =>
       if (Nat.eqb p 0 || Nat.eqb p 1) && String.eqb k "system"
       then Some "true" else None).

Definition sample_json_loads (text : string) : option PyJson :=
  if String.eqb text "true" then Some (JBool true)
  else if String.eqb text "false" then Some (JBool false)
  else None.

(** The compiled subject of
    [INSERT Auth { priority := 0, method := (SELECT Trust LIMIT 1) }]:
    its [method] is an object that exists already. *)
Definition subject_with_reference : IrSet :=
  mkIrSet None true None
    [(mkIrSet (Some "id") false None [], 0%nat);
     (mkIrSet (Some "priority") false (Some (OtherStmt 0)) [], 0%nat);
     (mkIrSet (Some "method") true
              (Some (SelectStmt (mkIrSet None true None []))) [], 0%nat)].

(** A compiler that answers every insert with that subject and leaves the
    store alone, and the plain [ensure_set]. *)
Definition sample_compile (q : QlExpr) (c : Ctx) (st : Store)
    : (Exn + IrNode) * Store :=
  match q with
  | InsertQuery _ _ => (inr (NodeExpr (InsertStmt subject_with_reference)), st)
  | _ => (inr (NodeSet (mkIrSet None true None [])), st)
  end.

Definition sample_ensure_set (n : IrNode) (c : Ctx) : IrSet :=
  match n with
  | NodeSet s => s
  | NodeExpr e => mkIrSet None true (Some e) []
  end.

Definition sample_type_shape (t : TypeId) (path : list QlStep)
    : list ShapeElement := [].

Definition sample_ctx : Ctx := mkCtx 0 false ∅.

(** The caller's alias map: the default module is [default]. *)
Definition sample_aliases : gmap (option string) string :=
  {[ None := "default" ]}.

Definition sample_store : Store := [sample_aliases].

Definition insert_Auth_shape : list ShapeElement :=
  [mkShapeElement (Path [StepPtr (mkObjectRef "priority" None)])
                  (Some (OtherExpr 0));
   mkShapeElement (Path [StepPtr (mkObjectRef "method" None)])
                  (Some (SelectQuery (Path [StepObjectRef
                                              (mkObjectRef "Trust" None)])
                                     None))].

End Config.

(** ** The configuration hooks of the server ([edb/server/server.py]) *)

Module Hooks.

Import Server.

(** What [_restart_mgmt_port] and the port hooks may change only on purpose:
    the recorded management listener, the registry of configured ports and
    the cached rules. *)
Definition recorded (s : State)
    : option nat * string * Z * gmap PortConf nat * list Auth :=
  (_mgmt_port s, _mgmt_host_addr s, _mgmt_port_no s, _sys_conf_ports s,
   _sys_auth s).

(** The recorded management listener and the cached rules. *)
Definition mgmt_and_rules (s : State) : option nat * string * Z * list Auth :=
  (_mgmt_port s, _mgmt_host_addr s, _mgmt_port_no s, _sys_auth s).

(** The management listener as recorded. *)
Definition recorded_mgmt (s : State) : option nat * string * Z :=
  (_mgmt_port s, _mgmt_host_addr s, _mgmt_port_no s).

(** A computation that leaves [f] of the state as it was, whatever its
    outcome. *)
Definition keeps {A B} (f : State -> B) (m : M A) : Prop :=
  forall s r s', m s = (r, s') -> f s' = f s.

(** A computation that leaves [f] of the state as it was when it raises. *)
Definition keeps_on_error {A B} (f : State -> B) (m : M A) : Prop :=
  forall s e s', m s = (inl e, s') -> f s' = f s.

(** A part of the state that no heap update and no event touches, and one
    that no update of the registry touches. *)
Definition heap_blind {B} (f : State -> B) : Prop :=
  (forall e s, f (with_event e s) = f s)
  /\ (forall h s, f (with_heap h s) = f s).

Definition registry_blind {B} (f : State -> B) : Prop :=
  forall r s, f (with_sys_conf_ports r s) = f s.

(** The port class [_start_portconf] picks for a protocol. *)
Definition port_cls_of (proto : string) : option PortCls :=
  if String.eqb proto "graphql+http" then Some HttpGraphQLPort
  else if String.eqb proto "edgeql+http" then Some HttpEdgeQLPort
  else if String.eqb proto "notebook" then Some NotebookPort
  else None.

Section WithEnv.

Variable env : Env.

(** [defines.EDGEDB_PORT]. *)
Variable EDGEDB_PORT : Z.

(** [Server._on_system_config_add].  A value that is no port configuration
    is not a key of [_sys_conf_ports] and has no attribute [protocol]. *)
Definition _on_system_config_add (setting_name : string)
    (value : ConfigValue) : M unit :=
  if String.eqb setting_name "ports" then
    match value with
    | VPortConf portconf =>
        _start_portconf env portconf false ;;; ret tt
    | _ => raise AttributeError
    end
  else ret tt.

(** [Server._on_system_config_rem].  A value that is no port configuration
    is not a key of [_sys_conf_ports]. *)
Definition _on_system_config_rem (setting_name : string)
    (value : ConfigValue) : M unit :=
  if String.eqb setting_name "ports" then
    match value with
    | VPortConf portconf => _stop_portconf env portconf
    | _ => logging LWarning "no port to stop for config: %r"
    end
  else ret tt.

(** [Server._on_system_config_reset]. *)
Definition _on_system_config_reset (setting_name : string) : M unit :=
  if String.eqb setting_name "listen_addresses" then
    no <- gets _mgmt_port_no ;;
    _restart_mgmt_port env "localhost" no
  else if String.eqb setting_name "listen_port" then
    host <- gets _mgmt_host_addr ;;
    _restart_mgmt_port env host EDGEDB_PORT
  else ret tt.

(** The part of [Server.start] that brings up the configured ports, after
    the listeners have been started:
    [ports = config.lookup('ports', sys_config)] and, when it is not empty,
    [_start_portconf(portconf, suppress_errors=True)] for each. *)
Fixpoint start_each (ports : list PortConf) : M unit :=
  match ports with
  | [] => ret tt
  | portconf :: rest =>
      _start_portconf env portconf true ;;; start_each rest
  end.

Definition start_configured_ports : M unit :=
  cfg <- gets sys_config ;;
  match cfg_ports cfg with
  | Some ports => start_each ports
  | None => ret tt
  end.

End WithEnv.

(** An environment in which every hook call succeeds. *)
Definition env_all_good : Env := fun _ _ => None.

(** A port configuration with a protocol the server does not know. *)
Definition gopher_7070 : PortConf :=
  mkPortConf "gopher" "localhost" 7070 "edgedb" "edgedb" 1.

(** A server configured with two ports, the second of an unknown
    protocol, and a third one after it. *)
Definition edgeql_8889 : PortConf :=
  mkPortConf "edgeql+http" "localhost" 8889 "edgedb" "edgedb" 4.

Definition server_with_ports (ports : list PortConf) : State :=
  mkState [mgmt_10701] (Some 0%nat) "localhost" 10701 ∅ []
          (mkSysConfig None (Some ports)) [].

End Hooks.

(** ** More on the system connection arbitrator *)

Module ArbitratorFacts.

Import Arbitrator.

(** The callers that wait: woken and not run yet, or suspended in the
    queue. *)
Definition waiting (s : State) : list Task :=
  woken s ++ match _sys_pgcon_waiters s with
             | Some q => _getters q
             | None => []
             end.

(** No wake-up is lost: while the connection lies in the queue and a caller
    is suspended, some caller is woken and about to run. *)
Definition wakeup_inv (s : State) : Prop :=
  match _sys_pgcon_waiters s with
  | Some q => _queue q <> [] -> _getters q <> [] -> woken s <> []
  | None => True
  end.

(** Every caller is accounted for. *)
Definition callers_inv (s : State) : Prop :=
  Permutation (granted s ++ waiting s) (arrivals s).

End ArbitratorFacts.

(** ** More on the CONFIGURE compiler *)

Module ConfigFacts.

Import Config.

(** The nested inserts of a shape: the computed expressions of its elements
    that are [InsertQuery] nodes. *)
Fixpoint nested_inserts (els : list ShapeElement) : list QlExpr :=
  match els with
  | [] => []
  | mkShapeElement _ (Some (InsertQuery _ _ as c)) :: rest =>
      c :: nested_inserts rest
  | _ :: rest => nested_inserts rest
  end.



Definition element_expr (el : ShapeElement) : QlExpr :=
  match el with mkShapeElement e _ => e end.

Definition element_compexpr (el : ShapeElement) : option QlExpr :=
  match el with mkShapeElement _ c => c end.

Definition is_InsertQuery (q : option QlExpr) : bool :=
  match q with Some (InsertQuery _ _) => true | _ => false end.

(** The same operation at another scope, and under another spelling of the
    module of its name. *)
Definition with_scope (sc : ConfigScope) (expr : ConfigOp) : ConfigOp :=
  match expr with
  | ConfigSet n _ e => ConfigSet n sc e
  | ConfigReset n _ w => ConfigReset n sc w
  | ConfigInsert n _ sh => ConfigInsert n sc sh
  end.

Definition with_module (m : option string) (expr : ConfigOp) : ConfigOp :=
  match expr with
  | ConfigSet n sc e => ConfigSet (mkObjectRef (name n) m) sc e
  | ConfigReset n sc w => ConfigReset (mkObjectRef (name n) m) sc w
  | ConfigInsert n sc sh => ConfigInsert (mkObjectRef (name n) m) sc sh
  end.

(** A nested insert two levels deep, as in
    [INSERT Auth { method := (INSERT SCRAM { transport :=
    (INSERT Transport) }) }]. *)
Definition insert_Transport : QlExpr :=
  InsertQuery [StepObjectRef (mkObjectRef "Transport" None)] [].

Definition insert_SCRAM : QlExpr :=
  InsertQuery [StepObjectRef (mkObjectRef "SCRAM" None)]
    [mkShapeElement (Path [StepPtr (mkObjectRef "transport" None)])
                    (Some insert_Transport)].

Definition insert_Auth_nested_shape : list ShapeElement :=
  [mkShapeElement (Path [StepPtr (mkObjectRef "priority" None)])
                  (Some (OtherExpr 0));
   mkShapeElement (Path [StepPtr (mkObjectRef "method" None)])
                  (Some insert_SCRAM)].

(** [dispatch.compile] on a configuration operation: the handler
    registered for its class. *)
Definition compile_config_op (schema : Catalog)
    (json_loads : string -> option PyJson)
    (dispatch_compile : QlExpr -> Ctx -> Store -> (Exn + IrNode) * Store)
    (ensure_set : IrNode -> Ctx -> IrSet)
    (get_config_type_shape : TypeId -> list QlStep -> list ShapeElement)
    (evaluate : IrSet -> bool) (expr : ConfigOp) (ctx : Ctx)
    : SE Store IrSet :=
  match expr with
  | ConfigSet n sc e =>
      compile_ConfigSet schema json_loads dispatch_compile ensure_set
                        evaluate n sc e ctx
  | ConfigReset n sc w =>
      compile_ConfigReset schema json_loads dispatch_compile ensure_set
                          get_config_type_shape n sc w ctx
  | ConfigInsert n sc sh =>
      compile_ConfigInsert schema json_loads dispatch_compile ensure_set
                           n sc sh ctx
  end.

Definition system_level_error (name : string) : Exn :=
  ConfigurationError
    (repr_str name ++ " is a system-level configuration parameter; use " ++
     dquote ++ "CONFIGURE INSTANCE" ++ dquote).

(** The context that [compile_ConfigInsert] hands to [dispatch.compile],
    when the store has [n] dictionaries. *)
Definition insert_subctx (ctx : Ctx) (n : nat) : Ctx :=
  mkCtx n true (special_computables_in_mutation_shape ctx ∪ {["_tname"]}).

(** A compiler that cannot compile a [SELECT] and leaves the store alone. *)
Definition select_fails (q : QlExpr) (c : Ctx) (st : Store)
    : (Exn + IrNode) * Store :=
  match q with
  | SelectQuery _ _ => (inl (QueryError "cannot compile"), st)
  | _ => sample_compile q c st
  end.

(** An evaluator that takes nothing for a constant, and one that takes
    everything. *)
Definition nothing_is_constant (s : IrSet) : bool := false.
Definition all_constant (s : IrSet) : bool := true.

End ConfigFacts.

(** * Properties *)

(** ** Running the monad *)

Lemma bind_run {S A B} (m : SE S A) (k : A -> SE S B) (s : S) :
  bind m k s = match m s with
               | (inl e, s') => (inl e, s')
               | (inr a, s') => k a s'
               end.
Proof. reflexivity. Qed.

Lemma try_run {S A B} (m : SE S A) (h : Exn -> SE S B) (k : A -> SE S B)
    (s : S) :
  try_except_else m h k s = match m s with
                            | (inl e, s') => h e s'
                            | (inr a, s') => k a s'
                            end.
Proof. reflexivity. Qed.

Lemma lift_err_run {S A B} (r : Exn + A) (k : A -> SE S B) (s : S) :
  bind (lift_err r) k s = match r with
                          | inl e => (inl e, s)
                          | inr a => k a s
                          end.
Proof. by destruct r. Qed.

Lemma lookup_snoc {A} (l : list A) (x : A) : (l ++ [x]) !! length l = Some x.
Proof. rewrite lookup_app_r by lia. by rewrite Nat.sub_diag. Qed.

(** ** The management listener and the configured ports *)

Section ServerProperties.

Import Server.

Variable env : Env.

(** What the listener hooks do to the state, by outcome. *)
Lemma port_stop_run p s P :
  heap s !! p = Some P ->
  port_stop env p s =
    match env (events s) (CStop p) with
    | Some e =>
        (inl e, after_hook (<[p := set_lstate Stopping P]> (heap s))
                           (CStop p) (Some e) s)
    | None =>
        (inr tt, after_hook (<[p := set_lstate Stopped P]> (heap s))
                            (CStop p) None s)
    end.
Proof.
  intros H. unfold port_stop, bind, gets, modify, hook, raise. simpl.
  rewrite H. simpl. destruct (env (events s) (CStop p)); reflexivity.
Qed.

Lemma port_start_run p s P :
  heap s !! p = Some P ->
  port_start env p s =
    match env (events s) (CStart p) with
    | Some e =>
        (inl e, after_hook (<[p := set_lstate Starting P]> (heap s))
                           (CStart p) (Some e) s)
    | None =>
        (inr tt, after_hook (<[p := set_lstate Running P]> (heap s))
                            (CStart p) None s)
    end.
Proof.
  intros H. unfold port_start, bind, gets, modify, hook, raise. simpl.
  rewrite H. simpl. destruct (env (events s) (CStart p)); reflexivity.
Qed.

Lemma new_port_run cls host no conf s :
  _new_port env cls host no conf s =
    match env (events s) (CConstruct cls host no) with
    | Some e =>
        (inl e, after_hook (heap s) (CConstruct cls host no) (Some e) s)
    | None =>
        (inr (length (heap s)),
         after_hook (heap s ++ [mkPort cls host no conf NotStarted])
                    (CConstruct cls host no) None s)
    end.
Proof.
  unfold _new_port, bind, gets, modify, hook, raise, ret. simpl.
  destruct (env (events s) (CConstruct cls host no)); reflexivity.
Qed.

Lemma the_mgmt_port_run s p :
  _mgmt_port s = Some p -> the_mgmt_port s = (inr p, s).
Proof.
  intros H. unfold the_mgmt_port, bind, gets, ret. simpl. by rewrite H.
Qed.

(** The recovery step of [_restart_mgmt_port]: start the original again and
    re-raise [e]; an error of that start takes the place of [e]. *)
Lemma restart_original_run {A} p0 P e s :
  _mgmt_port s = Some p0 ->
  heap s !! p0 = Some P ->
  ((p <- the_mgmt_port ;; port_start env p) ;;; raise (A:=A) e) s =
    match env (events s) (CStart p0) with
    | Some e' =>
        (inl e', after_hook (<[p0 := set_lstate Starting P]> (heap s))
                            (CStart p0) (Some e') s)
    | None =>
        (inl e, after_hook (<[p0 := set_lstate Running P]> (heap s))
                           (CStart p0) None s)
    end.
Proof.
  intros Hm Hh.
  rewrite bind_run, bind_run, (the_mgmt_port_run _ _ Hm),
    (port_start_run _ _ _ Hh).
  destruct (env (events s) (CStart p0)); reflexivity.
Qed.

End ServerProperties.

(** The events that a run appended, read off the final state. *)
Ltac events_of H :=
  repeat match goal with x := _ |- _ => subst x end;
  cbn [Server.events Server.after_hook Server.with_event Server.with_mgmt] in H;
  repeat rewrite <- app_assoc in H;
  apply app_inv_head in H; subst.

Ltac no_event :=
  match goal with
  | H : In _ _ |- _ => cbn in H; intuition congruence
  end.

Ltac failed_with Hfail :=
  let Hin := fresh "Hin" in
  let Hneq := fresh "Hneq" in
  destruct Hfail as [(? & ? & ? & Hin) | (? & Hneq & Hin)];
  cbn in Hin; intuition congruence.

Section RestartProperties.

Import Server.

Variable env : Env.

(** Every run of [_restart_mgmt_port] on a server whose management port
    exists follows one of the four paths. *)
Lemma restart_paths (s s' : State) (host : string) (no : Z)
    (r : Exn + unit) (p0 : nat) (P0 : Port) (evs : list Event) :
  _mgmt_port s = Some p0 ->
  heap s !! p0 = Some P0 ->
  _restart_mgmt_port env host no s = (r, s') ->
  events s' = events s ++ evs ->
  RestartPath p0 P0 s host no evs r s'.
Proof.
  intros Hm Hh Hrun Hev.
  assert (Hlt : (p0 < length (heap s))%nat) by (eapply lookup_lt_Some; eauto).
  unfold _restart_mgmt_port in Hrun.
  rewrite bind_run, bind_run, (the_mgmt_port_run _ _ Hm),
    (port_stop_run _ _ _ _ Hh) in Hrun.
  destruct (env (events s) (CStop p0)) as [e0|] eqn:E0.
  { inversion Hrun; subst; clear Hrun. events_of Hev. constructor. }
  rewrite bind_run in Hrun. unfold try_except in Hrun.
  rewrite try_run, new_port_run in Hrun.
  set (s1 := after_hook _ (CStop p0) None s) in *.
  assert (H1 : heap s1 !! p0 = Some (set_lstate Stopped P0)).
  { subst s1. cbn. by apply list_lookup_insert_eq. }
  destruct (env (events s1) (CConstruct ManagementPort host no))
    as [e1|] eqn:E1.
  - cbv beta iota in Hrun.
    erewrite (restart_original_run _ p0) in Hrun;
      [ | subst s1; exact Hm | cbn; exact H1 ].
    match type of Hrun with context [env ?h (CStart p0)] =>
      destruct (env h (CStart p0)) as [e2|] eqn:E2 end;
    inversion Hrun; subst r s'; clear Hrun; events_of Hev.
    + apply (ConstructFailed _ _ _ _ _ e1 (Some e2)); try reflexivity.
      cbn. rewrite list_lookup_insert_eq by (rewrite length_insert; lia).
      reflexivity.
    + apply (ConstructFailed _ _ _ _ _ e1 None); try reflexivity.
      cbn. rewrite list_lookup_insert_eq by (rewrite length_insert; lia).
      reflexivity.
  - cbn [ret] in Hrun.
    set (s2 := after_hook _ (CConstruct _ _ _) None s1) in *.
    set (new := length (heap s1)) in *.
    assert (Hnew : new = length (heap s)).
    { subst new s1. cbn. by rewrite length_insert. }
    assert (H2 : heap s2 !! new
                 = Some (mkPort ManagementPort host no None NotStarted)).
    { subst s2 new. cbn. apply lookup_snoc. }
    rewrite try_run in Hrun. erewrite port_start_run in Hrun by exact H2.
    destruct (env (events s2) (CStart new)) as [e2|] eqn:E2.
    + rewrite bind_run in Hrun. unfold try_except in Hrun.
      rewrite try_run in Hrun.
      erewrite port_stop_run in Hrun
        by (cbn; apply list_lookup_insert_eq; subst s2; cbn;
            rewrite length_app; cbn; lia).
      match type of Hrun with context [env ?h (CStop new)] =>
        destruct (env h (CStop new)) as [e3|] eqn:E3 end;
      cbn [logging modify ret] in Hrun;
      (erewrite (restart_original_run _ p0) in Hrun;
        [ | exact Hm
          | subst new s2 s1; cbn; rewrite ?length_insert;
            repeat (rewrite list_lookup_insert_ne by lia);
            rewrite lookup_app_l by (rewrite length_insert; lia);
            apply list_lookup_insert_eq; lia ]);
      match type of Hrun with context [env ?h (CStart p0)] =>
        destruct (env h (CStart p0)) as [e4|] eqn:E4 end;
      inversion Hrun; subst r s'; clear Hrun; events_of Hev.
      * apply (StartFailed _ _ _ _ _ _ e2 (Some e3) (Some e4));
          try reflexivity; [cbn in Hlt |- *; rewrite length_insert; lia|].
        cbn. rewrite list_lookup_insert_eq
          by (repeat (rewrite ?length_insert, ?length_app; cbn); lia).
        reflexivity.
      * apply (StartFailed _ _ _ _ _ _ e2 (Some e3) None);
          try reflexivity; [cbn in Hlt |- *; rewrite length_insert; lia|].
        cbn. rewrite list_lookup_insert_eq
          by (repeat (rewrite ?length_insert, ?length_app; cbn); lia).
        reflexivity.
      * apply (StartFailed _ _ _ _ _ _ e2 None (Some e4));
          try reflexivity; [cbn in Hlt |- *; rewrite length_insert; lia|].
        cbn. rewrite list_lookup_insert_eq
          by (repeat (rewrite ?length_insert, ?length_app; cbn); lia).
        reflexivity.
      * apply (StartFailed _ _ _ _ _ _ e2 None None);
          try reflexivity; [cbn in Hlt |- *; rewrite length_insert; lia|].
        cbn. rewrite list_lookup_insert_eq
          by (repeat (rewrite ?length_insert, ?length_app; cbn); lia).
        reflexivity.
    + cbn in Hrun. inversion Hrun; subst r s'; clear Hrun. events_of Hev.
      apply Replaced; try reflexivity.
      cbn in Hlt |- *. rewrite length_insert. lia.
Qed.

End RestartProperties.

Section ListenerClaims.

Import Server.

(** C1.  Take an environment in which the stop of the management listener
    succeeds, the construction of the replacement or else its start fails
    with [e], and a start of the original listener succeeds whenever it is
    asked for.  Then [_restart_mgmt_port] raises [e]; the last thing it did
    before that was to start the original listener again; the original port
    object is [Running] with the host and port it had; and the recorded
    [_mgmt_port], [_mgmt_host_addr] and [_mgmt_port_no] are the ones from
    before. *)
Theorem restart_mgmt_port_rollback (env : Env) (s : State)
    (host : string) (no : Z) (p0 : nat) (P0 : Port) (e : Exn) :
  _mgmt_port s = Some p0 ->
  heap s !! p0 = Some P0 ->
  env (events s) (CStop p0) = None ->
  (env (events s ++ [EvHook (CStop p0) None])
       (CConstruct ManagementPort host no) = Some e
   \/ (env (events s ++ [EvHook (CStop p0) None])
           (CConstruct ManagementPort host no) = None
       /\ env (events s ++ [EvHook (CStop p0) None;
                            EvHook (CConstruct ManagementPort host no) None])
              (CStart (length (heap s))) = Some e)) ->
  (forall h, env h (CStart p0) = None) ->
  let run := _restart_mgmt_port env host no s in
  fst run = inl e /\
  last (events (snd run)) = Some (EvHook (CStart p0) None) /\
  heap (snd run) !! p0 = Some (set_lstate Running P0) /\
  _mgmt_port (snd run) = Some p0 /\
  _mgmt_host_addr (snd run) = _mgmt_host_addr s /\
  _mgmt_port_no (snd run) = _mgmt_port_no s.
Proof.
  intros Hm Hh Hstop Hfail Hstart run. subst run.
  assert (Hlt : (p0 < length (heap s))%nat) by (eapply lookup_lt_Some; eauto).
  unfold _restart_mgmt_port.
  rewrite bind_run, bind_run, (the_mgmt_port_run _ _ Hm),
    (port_stop_run _ _ _ _ Hh), Hstop.
  rewrite bind_run. unfold try_except.
  rewrite try_run, new_port_run.
  set (s1 := after_hook _ (CStop p0) None s) in *.
  assert (H1 : heap s1 !! p0 = Some (set_lstate Stopped P0)).
  { subst s1. cbn. by apply list_lookup_insert_eq. }
  assert (Hev1 : events s1 = events s ++ [EvHook (CStop p0) None])
    by reflexivity.
  assert (Hlen1 : length (heap s1) = length (heap s))
    by (subst s1; cbn; by rewrite length_insert).
  rewrite Hev1.
  destruct Hfail as [Hc|[Hc Hs]]; rewrite Hc.
  - cbv beta iota.
    erewrite (restart_original_run _ p0);
      [ | subst s1; exact Hm | cbn; exact H1 ].
    rewrite Hstart. cbn [fst snd].
    split; [reflexivity|]. split; [cbn; by rewrite last_snoc|].
    split; [|by repeat split].
    cbn. rewrite list_lookup_insert_eq by (rewrite length_insert; lia).
    reflexivity.
  - cbn [ret].
    set (s2 := after_hook _ (CConstruct _ _ _) None s1) in *.
    set (new := length (heap s1)) in *.
    assert (H2 : heap s2 !! new
                 = Some (mkPort ManagementPort host no None NotStarted)).
    { subst s2 new. cbn. apply lookup_snoc. }
    assert (Hev2 : events s2
                   = events s ++ [EvHook (CStop p0) None;
                                  EvHook (CConstruct ManagementPort host no)
                                         None]).
    { subst s2. cbn. by rewrite <- app_assoc. }
    assert (Hs' : env (events s2) (CStart new) = Some e)
      by (rewrite Hev2; fold new in Hlen1; rewrite Hlen1; exact Hs).
    rewrite try_run. erewrite port_start_run by exact H2.
    rewrite Hs'.
    rewrite bind_run. unfold try_except. rewrite try_run.
    erewrite port_stop_run
      by (cbn; apply list_lookup_insert_eq; subst s2; cbn;
          rewrite length_app; cbn; lia).
    match goal with |- context [env ?h (CStop new)] =>
      destruct (env h (CStop new)) as [e3|] eqn:E3 end;
    cbn [logging modify ret];
    (erewrite (restart_original_run _ p0);
      [ | exact Hm
        | subst new s2 s1; cbn; rewrite ?length_insert;
          repeat (rewrite list_lookup_insert_ne by lia);
          rewrite lookup_app_l by (rewrite length_insert; lia);
          apply list_lookup_insert_eq; lia ]);
    rewrite Hstart; cbn [fst snd];
    (split; [reflexivity|]); (split; [cbn; by rewrite last_snoc|]);
    (split; [|by repeat split]);
    cbn; rewrite list_lookup_insert_eq
      by (repeat (rewrite ?length_insert, ?length_app; cbn); lia);
    reflexivity.
Qed.

Lemma restart_mgmt_port_rollback_witness :
  let run :=
    _restart_mgmt_port env_new_port_cannot_start "localhost" 10702
                       server_10701 in
  fst run = inl address_in_use /\
  last (events (snd run)) = Some (EvHook (CStart 0%nat) None) /\
  heap (snd run) !! 0%nat = Some (set_lstate Running mgmt_10701) /\
  _mgmt_port (snd run) = Some 0%nat /\
  _mgmt_host_addr (snd run) = "localhost" /\
  _mgmt_port_no (snd run) = 10701.
Proof.
  apply (restart_mgmt_port_rollback env_new_port_cannot_start
           server_10701 "localhost" 10702 0%nat mgmt_10701 address_in_use).
  - reflexivity.
  - reflexivity.
  - reflexivity.
  - right. split; reflexivity.
  - intros h. reflexivity.
Defined.

(** C6, as stated, fails: when the restart of the original listener fails
    too, its error is what the caller gets, and nothing is logged. *)
Lemma rollback_failure_counterexample :
  fst (_restart_mgmt_port env_nothing_starts "localhost" 10702 server_10701)
    = inl cannot_listen /\
  ~ rollback_failure_is_swallowed.
Proof.
  split; [vm_compute; reflexivity|].
  intros H.
  destruct (H env_nothing_starts server_10701
              (snd (_restart_mgmt_port env_nothing_starts "localhost" 10702
                                       server_10701))
              "localhost" 10702 (inl cannot_listen) 0%nat mgmt_10701
              address_in_use cannot_listen
              [EvHook (CStop 0%nat) None;
               EvHook (CConstruct ManagementPort "localhost" 10702) None;
               EvHook (CStart 1%nat) (Some address_in_use);
               EvHook (CStop 1%nat) None;
               EvHook (CStart 0%nat) (Some cannot_listen)])
    as [Hr _].
  - reflexivity.
  - reflexivity.
  - vm_compute; reflexivity.
  - vm_compute; reflexivity.
  - right. exists 1%nat. split; [lia | cbn; auto].
  - cbn; auto 10.
  - discriminate Hr.
Qed.

(** C6, amended.  When the replacement fails with [e] and the restart of the
    original listener fails with [e'], [_restart_mgmt_port] raises [e'] and
    not [e]; it logs nothing about that failure (its only log record is the
    one for a failed stop of the replacement); the recorded management
    fields stay as they were. *)
Theorem restart_rollback_failure_propagates (env : Env) (s s' : State)
    (host : string) (no : Z) (r : Exn + unit) (p0 : nat) (P0 : Port)
    (e e' : Exn) (evs : list Event) :
  _mgmt_port s = Some p0 ->
  heap s !! p0 = Some P0 ->
  _restart_mgmt_port env host no s = (r, s') ->
  events s' = events s ++ evs ->
  replacement_failed p0 e evs ->
  In (EvHook (CStart p0) (Some e')) evs ->
  r = inl e' /\
  (forall lvl msg, In (EvLog lvl msg) evs ->
     lvl = LException /\ msg = "could not stop the new server" /\
     exists p e3, p <> p0 /\ In (EvHook (CStop p) (Some e3)) evs) /\
  _mgmt_port s' = Some p0 /\
  _mgmt_host_addr s' = _mgmt_host_addr s /\
  _mgmt_port_no s' = _mgmt_port_no s.
Proof.
  intros Hm Hh Hrun Hev Hfail Hbad.
  pose proof (restart_paths env _ _ _ _ _ _ _ _ Hm Hh Hrun Hev) as Hpath.
  inversion Hpath as [ e0 s0
                     | e1 o s0 Hp Ha Hn Hl
                     | new e2 o3 o s0 Hne Hp Ha Hn Hl
                     | new s0 Hne Hp Ha Hn ]; subst; clear Hpath.
  - failed_with Hfail.
  - destruct o as [e4|].
    + assert (e4 = e') by (cbn in Hbad; intuition congruence). subst e4.
      repeat split; try congruence;
        cbn in H; intuition congruence.
    + cbn in Hbad. intuition congruence.
  - destruct o as [e4|]; [|destruct o3; cbn in Hbad; intuition congruence].
    assert (e4 = e').
    { destruct o3; cbn in Hbad; intuition try congruence;
        match goal with
        | H : EvHook (CStart new) _ = EvHook (CStart p0) _ |- _ =>
            inversion H; congruence
        end. }
    subst e4.
    split; [reflexivity|]. split; [|repeat split; congruence].
    intros lvl msg Hin.
    destruct o3 as [e3|]; cbn in Hin.
    + assert (EvLog LException "could not stop the new server"
              = EvLog lvl msg) as Heq by (intuition congruence).
      inversion Heq; subst. split; [reflexivity|]. split; [reflexivity|].
      exists new, e3. split; [exact Hne | cbn; auto 10].
    + intuition congruence.
  - failed_with Hfail.
Qed.

Lemma restart_rollback_failure_propagates_witness :
  let run :=
    _restart_mgmt_port env_nothing_starts "localhost" 10702 server_10701 in
  fst run = inl cannot_listen /\
  (forall lvl msg,
     In (EvLog lvl msg)
        [EvHook (CStop 0%nat) None;
         EvHook (CConstruct ManagementPort "localhost" 10702) None;
         EvHook (CStart 1%nat) (Some address_in_use);
         EvHook (CStop 1%nat) None;
         EvHook (CStart 0%nat) (Some cannot_listen)] ->
     lvl = LException /\ msg = "could not stop the new server" /\
     exists p e3, p <> 0%nat /\
       In (EvHook (CStop p) (Some e3))
          [EvHook (CStop 0%nat) None;
           EvHook (CConstruct ManagementPort "localhost" 10702) None;
           EvHook (CStart 1%nat) (Some address_in_use);
           EvHook (CStop 1%nat) None;
           EvHook (CStart 0%nat) (Some cannot_listen)]) /\
  _mgmt_port (snd run) = Some 0%nat /\
  _mgmt_host_addr (snd run) = "localhost" /\
  _mgmt_port_no (snd run) = 10701.
Proof.
  intros run.
  apply (restart_rollback_failure_propagates env_nothing_starts server_10701
           (snd run) "localhost" 10702 (fst run) 0%nat mgmt_10701
           address_in_use cannot_listen).
  - reflexivity.
  - reflexivity.
  - apply surjective_pairing.
  - vm_compute; reflexivity.
  - right. exists 1%nat. split; [lia | cbn; auto].
  - cbn; auto 10.
Defined.

(** C4, at the input where the code departs from it: in best-effort mode
    ([suppress_errors=True]) a port whose start failed and that was stopped
    is stored in [_sys_conf_ports] all the same, and returned; with
    [suppress_errors=False] the same failure is re-raised and nothing is
    stored. *)
Theorem start_portconf_registers_failed_port :
  let run :=
    _start_portconf env_new_port_cannot_start graphql_8888 true
                    server_10701 in
  let strict :=
    _start_portconf env_new_port_cannot_start graphql_8888 false
                    server_10701 in
  fst run = inr (Some 1%nat) /\
  _sys_conf_ports (snd run) !! graphql_8888 = Some 1%nat /\
  lstate <$> heap (snd run) !! 1%nat = Some Stopped /\
  events (snd run) =
    [EvHook (CConstruct HttpGraphQLPort "localhost" 8888) None;
     EvHook (CStart 1%nat) (Some address_in_use);
     EvHook (CStop 1%nat) None;
     EvLog LError "failed to start port for config: %r"] /\
  fst strict = inl address_in_use /\
  _sys_conf_ports (snd strict) !! graphql_8888 = None.
Proof.
  cbv zeta. repeat split; vm_compute; reflexivity.
Qed.

End ListenerClaims.

(** ** The cached authentication rules *)

Section AuthClaims.

Import Server.

Lemma insert_by_priority_perm (a : Auth) (l : list Auth) :
  Permutation (insert_by_priority a l) (a :: l).
Proof.
  induction l as [|b l IH]; cbn; [reflexivity|].
  destruct (priority a <=? priority b); [reflexivity|].
  rewrite IH. apply perm_swap.
Qed.

Lemma insert_by_priority_head (a x : Auth) (l : list Auth) :
  by_priority x a ->
  Forall (by_priority x) l ->
  Forall (by_priority x) (insert_by_priority a l).
Proof.
  intros Hxa Hl. eapply Permutation_Forall.
  - symmetry. apply insert_by_priority_perm.
  - by constructor.
Qed.

Lemma insert_by_priority_sorted (a : Auth) (l : list Auth) :
  StronglySorted by_priority l ->
  StronglySorted by_priority (insert_by_priority a l).
Proof.
  induction 1 as [|b l Hs IH Hb]; cbn.
  - repeat constructor.
  - destruct (Z.leb_spec (priority a) (priority b)) as [Hle|Hgt].
    + constructor; [by constructor|].
      constructor; [exact Hle|].
      eapply Forall_impl; [exact Hb|].
      intros c Hc. unfold by_priority in *. lia.
    + constructor; [exact IH|].
      apply insert_by_priority_head; [|exact Hb].
      unfold by_priority. lia.
Qed.

Lemma sorted_by_priority_perm (l : list Auth) :
  Permutation (sorted_by_priority l) l.
Proof.
  induction l as [|a l IH]; cbn; [reflexivity|].
  rewrite insert_by_priority_perm. by constructor.
Qed.

Lemma sorted_by_priority_sorted (l : list Auth) :
  StronglySorted by_priority (sorted_by_priority l).
Proof.
  induction l as [|a l IH]; cbn; [constructor|].
  by apply insert_by_priority_sorted.
Qed.





End AuthClaims.

(** ** The system connection arbitrator *)

Section ArbitratorClaims.

Import Arbitrator.

Lemma is_in_true (t : Task) (l : list Task) : is_in t l = true -> In t l.
Proof.
  unfold is_in. rewrite existsb_exists. intros (x & Hx & Heq).
  apply Nat.eqb_eq in Heq. by subst.
Qed.

Lemma remove_first_length (t : Task) (l : list Task) :
  In t l -> S (length (remove_first t l)) = length l.
Proof.
  induction l as [|x l IH]; cbn; [intros []|].
  intros [->|Hin].
  - by rewrite Nat.eqb_refl.
  - destruct (Nat.eqb_spec x t); [reflexivity|]. cbn. by rewrite IH.
Qed.

Lemma exclusive_inv_init (conn : Conn) : exclusive_inv (init conn new_server).
Proof. reflexivity. Qed.

Lemma fifo_inv_init (conn : Conn) : fifo_inv (init conn new_server).
Proof. cbn. repeat split; auto. Qed.

(** One action of a disciplined caller keeps the connection exclusive. *)
Lemma exclusive_inv_step (s s' : State) (a : Action) :
  exclusive_inv s ->
  match a with Release t => is_in t (holding s) = true | _ => True end ->
  step s a = inr s' ->
  exclusive_inv s'.
Proof.
  unfold exclusive_inv. intros Hinv Hd Hstep.
  destruct a as [t|t|t]; cbn in Hstep.
  - unfold _acquire_sys_pgcon in Hstep.
    destruct (_sys_pgcon_waiters s) as [[items getters]|]; [|discriminate].
    inversion Hstep; subst; clear Hstep.
    unfold get_turn, Queue_get; cbn in *.
    destruct items as [|c rest]; cbn in *; [exact Hinv|].
    rewrite length_app. cbn. lia.
  - inversion Hstep; subst; clear Hstep. unfold resume.
    destruct (_sys_pgcon_waiters s) as [[items getters]|] eqn:Eq;
      [|by rewrite Eq].
    destruct (is_in t (woken s)); [|by rewrite Eq].
    unfold get_turn, Queue_get; cbn in *.
    destruct items as [|c rest]; cbn in *; [exact Hinv|].
    rewrite length_app. cbn. lia.
  - unfold _release_sys_pgcon in Hstep.
    destruct (_sys_pgcon_waiters s) as [[items getters]|]; [|discriminate].
    unfold Queue_put_nowait in Hstep; cbn in *.
    apply is_in_true, remove_first_length in Hd.
    destruct getters; inversion Hstep; subst; clear Hstep; cbn;
      rewrite length_app; cbn; lia.
Qed.

(** Without overtaking, one action also keeps the waiting callers in the
    order of their calls. *)
Lemma fifo_inv_step (s s' : State) (a : Action) :
  exclusive_inv s ->
  fifo_inv s ->
  match a with Release t => is_in t (holding s) = true | _ => True end ->
  match a with Acquire _ => woken s = [] | _ => True end ->
  step s a = inr s' ->
  fifo_inv s'.
Proof.
  unfold exclusive_inv, fifo_inv. intros Hex Hinv Hd Hno Hstep.
  destruct a as [t|t|t]; cbn in Hstep.
  - unfold _acquire_sys_pgcon in Hstep.
    destruct (_sys_pgcon_waiters s) as [[items getters]|]; [|discriminate].
    inversion Hstep; subst; clear Hstep.
    destruct Hinv as (Ha & Hb & Hc).
    unfold get_turn, Queue_get; cbn in *. rewrite Hno in *.
    destruct items as [|c rest]; cbn in *.
    + repeat split; auto; [|congruence].
      rewrite <- Ha. by rewrite !app_assoc.
    + rewrite Hc in * by (auto; congruence).
      rewrite app_nil_r in *. rewrite Ha.
      repeat split; auto.
  - inversion Hstep; subst; clear Hstep. unfold resume.
    destruct (_sys_pgcon_waiters s) as [[items getters]|] eqn:Eq;
      [|by rewrite Eq].
    destruct (is_in t (woken s)) eqn:Ew; [|by rewrite Eq].
    destruct Hinv as (Ha & Hb & Hc).
    apply is_in_true in Ew. cbn in *.
    destruct Hb as [Hb|(w & Hb & Hq)]; rewrite Hb in *; [destruct Ew|].
    destruct Ew as [->|[]].
    unfold get_turn, Queue_get; cbn in *. rewrite Hb. cbn.
    rewrite Nat.eqb_refl.
    destruct items as [|c rest]; [congruence|]. cbn.
    repeat split; auto.
    + rewrite <- Ha. by rewrite <- app_assoc.
    + intros Hrest. destruct rest; [congruence | cbn in Hex; lia].
  - unfold _release_sys_pgcon in Hstep.
    destruct (_sys_pgcon_waiters s) as [[items getters]|]; [|discriminate].
    destruct Hinv as (Ha & Hb & Hc).
    apply is_in_true, remove_first_length in Hd. cbn in *.
    assert (items = []) as ->
      by (destruct items; [reflexivity | cbn in Hex; lia]).
    assert (Hw : woken s = []) by (destruct Hb as [|(w & _ & Hq)]; congruence).
    unfold Queue_put_nowait in Hstep; cbn in *.
    destruct getters as [|g gs]; inversion Hstep; subst; clear Hstep; cbn;
      rewrite Hw in *; cbn in *.
    + repeat split; auto.
    + repeat split; auto; [|congruence].
      right. exists g. split; [reflexivity | congruence].
Qed.


Lemma fifo_inv_run (tr : list Action) (s s' : State) :
  exclusive_inv s ->
  fifo_inv s ->
  disciplined s tr = true ->
  no_overtaking s tr = true ->
  run s tr = inr s' ->
  fifo_inv s'.
Proof.
  revert s. induction tr as [|a tr IH]; intros s Hex Hinv Hd Hno Hrun;
    cbn in *.
  - by inversion Hrun; subst.
  - apply andb_prop in Hd as [Hd1 Hd2].
    apply andb_prop in Hno as [Hn1 Hn2].
    destruct (step s a) as [e|s1] eqn:Es; [discriminate|].
    apply (IH s1); auto.
    + eapply exclusive_inv_step; eauto. destruct a; auto.
    + eapply fifo_inv_step; eauto.
      * destruct a; auto.
      * destruct a; auto. by destruct (woken s).
Qed.





End ArbitratorClaims.

(** ** CONFIGURE compilation *)

Section ConfigClaims.

Import Config.

(** A shape all of whose sets carry their pointer passes the validation,
    whatever its elements are. *)
Lemma validate_config_object_accepts :
  forall expr : IrSet,
    all_have_rptr expr = true -> _validate_config_object expr = inr tt.
Proof.
  fix IH 1. intros [r o e shape]. cbn.
  induction shape as [|[element n] rest IHrest]; [reflexivity|].
  intros H.
  apply andb_prop in H as [H Hrest]. apply andb_prop in H as [Hr Hel].
  destruct (set_rptr element) as [shortname|]; [|discriminate].
  destruct (String.eqb shortname "id"); [by apply IHrest|].
  destruct (set_is_object element && is_InsertStmt (set_expr element)).
  - rewrite (IH element Hel). cbn. by apply IHrest.
  - by apply IHrest.
Qed.

(** The only error of the validation is the failed assertion. *)
Lemma validate_config_object_error :
  forall (expr : IrSet) (e : Exn),
    _validate_config_object expr = inl e -> e = AssertionError.
Proof.
  fix IH 1. intros [r o ex shape] e. cbn.
  induction shape as [|[element n] rest IHrest]; [discriminate|].
  destruct (set_rptr element) as [shortname|]; [|congruence].
  destruct (String.eqb shortname "id"); [exact IHrest|].
  destruct (set_is_object element && is_InsertStmt (set_expr element));
    [|exact IHrest].
  destruct (_validate_config_object element) as [e'|[]] eqn:Eel; cbn.
  - intros Heq. inversion Heq; subst. by apply (IH element).
  - exact IHrest.
Qed.

(** C2, as stated, fails: the compiled subject of an insert whose [method]
    is a reference to an object that exists passes the validation, and the
    CONFIGURE INSTANCE INSERT compiles. *)
Lemma existing_reference_accepted_counterexample :
  has_existing_reference subject_with_reference = true /\
  _validate_config_object subject_with_reference = inr tt /\
  (exists ir,
     fst (compile_ConfigInsert sample_catalog sample_json_loads
            sample_compile sample_ensure_set (mkObjectRef "Auth" None)
            INSTANCE insert_Auth_shape sample_ctx sample_store) = inr ir) /\
  ~ rejects_existing_references.
Proof.
  split; [reflexivity|]. split; [reflexivity|]. split.
  - eexists. vm_compute. reflexivity.
  - intros H. destruct (H subject_with_reference eq_refl) as [e He].
    discriminate He.
Qed.

(** C2, amended.  [_validate_config_object] walks the compiled shape,
    skips the identity field and descends into object-typed nested inserts
    only (the shape of any other element is not looked at), and rejects
    nothing: a shape in which every set carries its pointer passes, also
    when an element refers to a pre-existing object, and the only failure
    is the assertion that an element has its [rptr]. *)
Theorem validate_config_object_rejects_nothing (expr : IrSet) :
  (all_have_rptr expr = true -> _validate_config_object expr = inr tt) /\
  (forall e, _validate_config_object expr = inl e -> e = AssertionError) /\
  (forall r o ex sh sh' n,
     o && is_InsertStmt ex = false ->
     _validate_config_object
       (mkIrSet (set_rptr expr) (set_is_object expr) (set_expr expr)
                ((mkIrSet r o ex sh, n) :: set_shape expr))
     = _validate_config_object
         (mkIrSet (set_rptr expr) (set_is_object expr) (set_expr expr)
                  ((mkIrSet r o ex sh', n) :: set_shape expr))).
Proof.
  split; [apply validate_config_object_accepts|].
  split; [apply validate_config_object_error|].
  intros r o ex sh sh' n Hno. cbn.
  destruct r as [shortname|]; [|reflexivity].
  destruct (String.eqb shortname "id"); [reflexivity|].
  rewrite Hno. reflexivity.
Qed.

Lemma validate_config_object_rejects_nothing_witness :
  has_existing_reference subject_with_reference = true /\
  _validate_config_object subject_with_reference = inr tt.
Proof.
  split; [reflexivity|].
  destruct (validate_config_object_rejects_nothing subject_with_reference)
    as [Hok _].
  apply Hok. reflexivity.
Defined.

(** C5, as stated, fails: at session scope an INSERT of a name that is no
    configuration object, and an INSERT of [Auth], whose link is flagged as
    system-level, both fail with [ConfigurationError], raised by
    [_validate_op] before the scope of the INSERT is looked at. *)
Lemma insert_scope_counterexample :
  fst (compile_ConfigInsert sample_catalog sample_json_loads sample_compile
         sample_ensure_set (mkObjectRef "Nope" None) SESSION
         insert_Auth_shape sample_ctx sample_store)
    = inl (ConfigurationError "unrecognized configuration object 'Nope'") /\
  fst (compile_ConfigInsert sample_catalog sample_json_loads sample_compile
         sample_ensure_set (mkObjectRef "Auth" None) SESSION
         insert_Auth_shape sample_ctx sample_store)
    = inl (ConfigurationError
             ("'auth' is a system-level configuration parameter; use " ++
              dquote ++ "CONFIGURE INSTANCE" ++ dquote)) /\
  ~ insert_scope_claim.
Proof.
  split; [vm_compute; reflexivity|].
  split; [vm_compute; reflexivity|].
  intros H.
  destruct (H sample_catalog sample_json_loads sample_compile
              sample_ensure_set (mkObjectRef "Nope" None) SESSION
              insert_Auth_shape sample_ctx sample_store) as [msg Hmsg].
  - discriminate.
  - vm_compute in Hmsg. discriminate Hmsg.
Qed.

(** C5, amended.  Every CONFIGURE INSERT at a scope other than [INSTANCE]
    fails to compile and leaves the store as it was: with the error of
    [_validate_op] when the resolution of the target fails, and with
    [UnsupportedFeatureError] in every other case. *)
Theorem insert_outside_instance_fails (schema : Catalog)
    (json_loads : string -> option PyJson)
    (dispatch_compile : QlExpr -> Ctx -> Store -> (Exn + IrNode) * Store)
    (ensure_set : IrNode -> Ctx -> IrSet)
    (n : ObjectRef) (scope : ConfigScope) (shape : list ShapeElement)
    (ctx : Ctx) (st : Store) :
  scope <> INSTANCE ->
  compile_ConfigInsert schema json_loads dispatch_compile ensure_set
                       n scope shape ctx st
  = (inl match _validate_op schema json_loads (ConfigInsert n scope shape) with
         | inl e => e
         | inr _ =>
             UnsupportedFeatureError
               ("CONFIGURE " ++ scope_str scope ++ " INSERT is not supported")
         end,
     st).
Proof.
  intros Hscope. unfold compile_ConfigInsert.
  rewrite lift_err_run.
  destruct (_validate_op schema json_loads (ConfigInsert n scope shape))
    as [e|info]; [reflexivity|].
  rewrite bind_run.
  rewrite bool_decide_eq_false_2 by exact Hscope.
  reflexivity.
Qed.

Lemma insert_outside_instance_fails_witness :
  compile_ConfigInsert sample_catalog sample_json_loads sample_compile
    sample_ensure_set (mkObjectRef "Base" None) SESSION [] sample_ctx
    sample_store
  = (inl (UnsupportedFeatureError "CONFIGURE SESSION INSERT is not supported"),
     sample_store).
Proof.
  apply (insert_outside_instance_fails sample_catalog sample_json_loads
           sample_compile sample_ensure_set (mkObjectRef "Base" None)
           SESSION [] sample_ctx sample_store).
  discriminate.
Defined.

End ConfigClaims.

Section ResolutionClaims.

Import Config.

Lemma last_char_app (a b : string) :
  b <> EmptyString -> last_char (a ++ b)%string = last_char b.
Proof.
  intros Hb. induction a as [|c a IH]; [reflexivity|].
  change (last_char (String c (a ++ b)%string) = last_char b).
  destruct (a ++ b)%string as [|c' r] eqn:E.
  - destruct a as [|c0 a0]; [exfalso; apply Hb; exact E | discriminate E].
  - rewrite <- IH. reflexivity.
Qed.

Lemma cannot_be_configured_not_system (n n' : string) :
  cannot_be_configured n <>
  ConfigurationError
    (repr_str n' ++ " is a system-level configuration parameter; use " ++
     dquote ++ "CONFIGURE INSTANCE" ++ dquote).
Proof.
  unfold cannot_be_configured. intros H. inversion H as [Heq].
  apply (f_equal last_char) in Heq.
  rewrite !last_char_app in Heq by discriminate.
  vm_compute in Heq. discriminate Heq.
Qed.

Variable schema : Catalog.
Variable json_loads : string -> option PyJson.

(** What follows the resolution in [_validate_op]: metadata is read from
    the pointer.  It returns the resolved name and type, or raises something
    else than "cannot be configured directly". *)
Lemma validate_op_object_path (expr : ConfigOp) (cfg_host_type : TypeId) :
  module_is_accepted (op_name expr) = true ->
  lookup_type schema "cfg" "AbstractConfig" = Some cfg_host_type ->
  is_object_type schema cfg_host_type = true ->
  names_object_type schema cfg_host_type expr = true ->
  match resolve_object_type schema expr cfg_host_type (name (op_name expr)) with
  | inl e => _validate_op schema json_loads expr = inl e
  | inr (cfg_type, ptr, nm) =>
      (exists info, _validate_op schema json_loads expr = inr info
                    /\ param_name info = nm /\ param_type info = cfg_type)
      \/ (exists e, _validate_op schema json_loads expr = inl e
                    /\ forall n, e <> cannot_be_configured n)
  end.
Proof.
  intros Hmod Hhost Hobj Hnames.
  unfold _validate_op.
  assert (Hcheck :
    match module (op_name expr) with
    | Some m =>
        if negb (String.eqb m EmptyString) && negb (String.eqb m "cfg")
        then inl (QueryError
                ("invalid configuration parameter name: module must be " ++
                 "either 'cfg' or empty"))
        else inr tt
    | None => inr tt
    end = (inr tt : Exn + unit)).
  { unfold module_is_accepted in Hmod.
    destruct (module (op_name expr)) as [m|]; [|reflexivity].
    destruct (String.eqb m EmptyString), (String.eqb m "cfg");
      cbn in *; congruence. }
  rewrite Hcheck, Hhost. cbn [err_bind]. rewrite Hobj. cbn [assert err_bind].
  set (nm0 := name (op_name expr)).
  assert (Hres :
    match
      match expr with
      | ConfigSet _ _ _ | ConfigReset _ _ _ =>
          maybe_get_ptr schema cfg_host_type nm0
      | ConfigInsert _ _ _ => None
      end
    with
    | Some ptr =>
        match ptr_target schema ptr with
        | Some cfg_type => inr (cfg_type, ptr, nm0)
        | None => resolve_object_type schema expr cfg_host_type nm0
        end
    | None => resolve_object_type schema expr cfg_host_type nm0
    end = resolve_object_type schema expr cfg_host_type nm0).
  { destruct expr as [n sc e|n sc w|n sc sh]; cbn in Hnames, nm0;
      [discriminate| |reflexivity].
    subst nm0.
    destruct (maybe_get_ptr schema cfg_host_type (name n)) as [ptr|];
      [|reflexivity].
    destruct (ptr_target schema ptr); [discriminate|reflexivity]. }
  rewrite Hres. clear Hres.
  destruct (resolve_object_type schema expr cfg_host_type nm0)
    as [e|[[cfg_type ptr] nm]]; [reflexivity|].
  cbn [err_bind].
  destruct (ptr_cardinality schema ptr) as [card|]; cbn [err_bind];
    [|right; eexists; split; [reflexivity|intros; discriminate]].
  unfold loads.
  destruct (ptr_annotation schema ptr "backend_setting") as [v|];
    [destruct (json_loads v) as [b|]|]; cbn [err_bind];
    try (right; eexists; split; [reflexivity|intros; discriminate]).
  all: destruct (ptr_annotation schema ptr "affects_compilation") as [v'|];
    [destruct (json_loads v') as [b'|]|]; cbn [err_bind];
    try (right; eexists; split; [reflexivity|intros; discriminate]).
  all: destruct (annotation_is_true schema ptr "system"
                 && negb (bool_decide (op_scope expr = INSTANCE)));
    cbn [err_bind];
    [ right; eexists; split;
        [reflexivity|intros n0 Heq; symmetry in Heq;
                     by apply cannot_be_configured_not_system in Heq]
    | left; eexists; split; [reflexivity|split; reflexivity] ].
Qed.


(** The loop over the ancestors stops at the first type that is the target
    of any link and takes the first link of its referrers. *)
Lemma find_ptr_candidate_first (mro : list TypeId) (l : PtrId) :
  find_ptr_candidate schema mro = Some l <->
  exists pre ct post rest,
    mro = pre ++ ct :: post
    /\ Forall (fun c => get_link_referrers schema c = []) pre
    /\ get_link_referrers schema ct = l :: rest.
Proof.
  induction mro as [|c mro IH]; cbn.
  - split; [discriminate|].
    intros (pre & ct & post & rest & H & _). by destruct pre.
  - destruct (get_link_referrers schema c) as [|l0 ls] eqn:E.
    + rewrite IH. split.
      * intros (pre & ct & post & rest & -> & Hpre & Hct).
        exists (c :: pre), ct, post, rest. repeat split; auto.
      * intros (pre & ct & post & rest & Hm & Hpre & Hct).
        destruct pre as [|c' pre]; cbn in Hm; inversion Hm; subst.
        -- congruence.
        -- inversion Hpre; subst. by exists pre, ct, post, rest.
    + split.
      * intros [= ->]. exists [], c, mro, ls. repeat split; auto.
      * intros (pre & ct & post & rest & Hm & Hpre & Hct).
        destruct pre as [|c' pre]; cbn in Hm; inversion Hm; subst.
        -- congruence.
        -- inversion Hpre; subst. congruence.
Qed.

(** C7, amended.  For a configuration object type, [_validate_op] walks the
    type and its ancestors, most derived first, stops at the first one that
    is the target of any link and takes the first link of its referrers,
    without looking at the source of the link; it fails with
    [ConfigurationError] "<name> cannot be configured directly" exactly when
    no type of the chain is the target of a link or the source of the link
    taken is missing or not under the root configuration object; when it
    succeeds, the setting is named after the link taken. *)
Theorem object_resolution_takes_first_link (expr : ConfigOp)
    (cfg_host_type cfg_type : TypeId) :
  module_is_accepted (op_name expr) = true ->
  lookup_type schema "cfg" "AbstractConfig" = Some cfg_host_type ->
  is_object_type schema cfg_host_type = true ->
  names_object_type schema cfg_host_type expr = true ->
  lookup_type schema "cfg" (name (op_name expr)) = Some cfg_type ->
  is_object_type schema cfg_type = true ->
  let taken :=
    find_ptr_candidate schema (cfg_type :: get_ancestors schema cfg_type) in
  (_validate_op schema json_loads expr
     = inl (cannot_be_configured (name (op_name expr)))
   <-> (taken = None
        \/ exists l, taken = Some l
                     /\ link_is_under_root schema cfg_host_type l = false))
  /\ (forall info,
        _validate_op schema json_loads expr = inr info ->
        exists l, taken = Some l
                  /\ link_is_under_root schema cfg_host_type l = true
                  /\ param_name info = ptr_shortname schema l
                  /\ param_type info = cfg_type)
  /\ (forall l,
        taken = Some l <->
        exists pre ct post rest,
          cfg_type :: get_ancestors schema cfg_type = pre ++ ct :: post
          /\ Forall (fun c => get_link_referrers schema c = []) pre
          /\ get_link_referrers schema ct = l :: rest).
Proof.
  intros Hmod Hhost Hobj Hnames Htype Htobj taken.
  split; [|split; [|intros l; apply find_ptr_candidate_first]].
  all: pose proof (validate_op_object_path expr cfg_host_type
                     Hmod Hhost Hobj Hnames) as Hpath.
  all: unfold resolve_object_type in Hpath.
  all: assert (Hset : is_ConfigSet expr = false)
         by (destruct expr; [discriminate Hnames | reflexivity..]).
  all: rewrite Hset, Htype in Hpath; cbn [err_bind] in Hpath.
  all: rewrite Htobj in Hpath; cbn [assert err_bind] in Hpath.
  all: fold taken in Hpath; unfold link_is_under_root.
  all: destruct taken as [l|].
  all: try destruct (ptr_source schema l) as [src|] eqn:Esrc.
  all: try destruct (issubclass schema src cfg_host_type) eqn:Esub.
  - destruct Hpath as [(info & Hv & _) | (e & Hv & Hne)]; rewrite Hv.
    + split; [discriminate|].
      intros [|(l' & [= <-] & Hl')]; [discriminate|].
      rewrite Esrc in Hl'. congruence.
    + split.
      * intros [= ->]. by destruct (Hne (name (op_name expr))).
      * intros [|(l' & [= <-] & Hl')]; [discriminate|].
        rewrite Esrc in Hl'. congruence.
  - rewrite Hpath. split; [|reflexivity].
    intros _. right. exists l. by rewrite Esrc.
  - rewrite Hpath. split; [|reflexivity].
    intros _. right. exists l. by rewrite Esrc.
  - rewrite Hpath. split; [|reflexivity]. by left.
  - intros info Hinfo.
    destruct Hpath as [(info' & Hv & Hn & Ht) | (e & Hv & _)];
      rewrite Hv in Hinfo; [|discriminate].
    inversion Hinfo; subst info'.
    exists l. rewrite Esrc. auto.
  - intros info Hinfo. rewrite Hpath in Hinfo. discriminate.
  - intros info Hinfo. rewrite Hpath in Hinfo. discriminate.
  - intros info Hinfo. rewrite Hpath in Hinfo. discriminate.
Qed.

End ResolutionClaims.

Section ResolutionExamples.

Import Config.

(** C7, as stated, fails: [cfg::Special] is the target of a link from a
    type outside the configuration, and its ancestor [cfg::Base] is the
    target of a link from the root.  A search for the first link whose
    source is under the root finds the latter; the code stops at the former
    and fails. *)
Lemma filtered_resolution_counterexample :
  _validate_op sample_catalog sample_json_loads
    (ConfigInsert (mkObjectRef "Special" None) INSTANCE [])
    = inl (cannot_be_configured "Special") /\
  resolve_link_spec sample_catalog 0%nat
    (6%nat :: get_ancestors sample_catalog 6%nat) = Some 4%nat /\
  link_is_under_root sample_catalog 0%nat 4%nat = true /\
  ~ filtered_resolution_claim.
Proof.
  split; [vm_compute; reflexivity|].
  split; [vm_compute; reflexivity|].
  split; [vm_compute; reflexivity|].
  intros H.
  destruct (H sample_catalog sample_json_loads
              (ConfigInsert (mkObjectRef "Special" None) INSTANCE [])
              0%nat 6%nat) as [Hfail _]; try (vm_compute; reflexivity).
  destruct Hfail as [Hnone | (l & Hsome & Hl)].
  - vm_compute; reflexivity.
  - vm_compute in Hnone. discriminate Hnone.
  - vm_compute in Hsome. inversion Hsome; subst l.
    vm_compute in Hl. discriminate Hl.
Qed.

Lemma object_resolution_takes_first_link_witness :
  _validate_op sample_catalog sample_json_loads
    (ConfigInsert (mkObjectRef "Special" None) INSTANCE [])
    = inl (cannot_be_configured "Special").
Proof.
  destruct (object_resolution_takes_first_link sample_catalog
              sample_json_loads
              (ConfigInsert (mkObjectRef "Special" None) INSTANCE [])
              0%nat 6%nat) as [[_ Hfail] _];
    [ vm_compute; reflexivity .. | ].
  apply Hfail. right. exists 3%nat. split; vm_compute; reflexivity.
Defined.

End ResolutionExamples.

Section AliasClaims.

Import Config.

Variable schema : Catalog.
Variable json_loads : string -> option PyJson.
Variable dispatch_compile :
  QlExpr -> Ctx -> Store -> (Exn + IrNode) * Store.
Variable ensure_set : IrNode -> Ctx -> IrSet.
Variable get_config_type_shape : TypeId -> list QlStep -> list ShapeElement.

Lemma dict_setitem_run (l : nat) (k : option string) (v : string)
    (st : Store) (d : gmap (option string) string) :
  st !! l = Some d ->
  dict_setitem l k v st = (inr tt, <[l := <[k := v]> d]> st).
Proof. intros H. unfold dict_setitem. by rewrite H. Qed.

Lemma dict_copy_run (l : nat) (st : Store) (d : gmap (option string) string) :
  st !! l = Some d ->
  dict_copy l st = (inr (length st), st ++ [d]).
Proof. intros H. unfold dict_copy. by rewrite H. Qed.

(** C10.  Provided [dispatch.compile] leaves existing dictionaries alone:
    a [compile_ConfigReset] of an object-typed parameter that returns has
    set the default module of the caller's own alias dictionary to [cfg],
    and it stays so; [compile_ConfigInsert], whatever its outcome, leaves
    the caller's dictionary as it was, and when it returns, the dictionary
    with the default module [cfg] is a copy at a new address. *)
Theorem reset_aliases_in_place_insert_on_copy (n : ObjectRef)
    (scope : ConfigScope) (where_ : option QlExpr)
    (shape : list ShapeElement) (ctx : Ctx) (st : Store)
    (d : gmap (option string) string) :
  keeps_dictionaries dispatch_compile ->
  st !! modaliases ctx = Some d ->
  (forall ir st' info,
     compile_ConfigReset schema json_loads dispatch_compile ensure_set
       get_config_type_shape n scope where_ ctx st = (inr ir, st') ->
     _validate_op schema json_loads (ConfigReset n scope where_) = inr info ->
     is_object_type schema (param_type info) = true ->
     st' !! modaliases ctx = Some (<[None := "cfg"]> d)) /\
  (forall r st',
     compile_ConfigInsert schema json_loads dispatch_compile ensure_set
       n scope shape ctx st = (r, st') ->
     st' !! modaliases ctx = Some d /\
     (forall ir, r = inr ir ->
        length st <> modaliases ctx /\
        st' !! length st = Some (<[None := "cfg"]> d))).
Proof.
  intros Hkeep Hd.
  assert (Hlt : (modaliases ctx < length st)%nat)
    by (eapply lookup_lt_Some; eauto).
  split.
  - intros ir st' info Hrun Hinfo Hobj.
    unfold compile_ConfigReset in Hrun.
    rewrite lift_err_run, Hinfo, bind_run, Hobj in Hrun.
    cbn [negb andb] in Hrun.
    rewrite bind_run, (dict_setitem_run _ _ _ _ _ Hd), bind_run in Hrun.
    destruct (dispatch_compile _ ctx _) as [[e|node] st1] eqn:Ec;
      [discriminate|].
    cbn in Hrun. inversion Hrun; subst.
    eapply Hkeep; [exact Ec|].
    by apply list_lookup_insert_eq.
  - intros r st' Hrun.
    unfold compile_ConfigInsert in Hrun.
    rewrite lift_err_run in Hrun.
    destruct (_validate_op schema json_loads (ConfigInsert n scope shape))
      as [e|info]; [by inversion Hrun; subst|].
    rewrite bind_run in Hrun.
    destruct (bool_decide (scope = INSTANCE));
      [|by inversion Hrun; subst].
    cbn [ret] in Hrun.
    destruct (lookup_object schema "cfg" (name n)) as [subject|];
      [|by inversion Hrun; subst].
    rewrite lift_err_run in Hrun.
    destruct (inject_tname_in_shape shape) as [e|shape'];
      [by inversion Hrun; subst|].
    rewrite bind_run, (dict_copy_run _ _ _ Hd), bind_run in Hrun.
    erewrite dict_setitem_run in Hrun by apply lookup_snoc.
    rewrite bind_run in Hrun.
    match type of Hrun with
    | context [dispatch_compile ?q ?c ?s] =>
        destruct (dispatch_compile q c s) as [[e|node] st1] eqn:Ec
    end.
    + inversion Hrun; subst. split; [|discriminate].
      eapply Hkeep; [exact Ec|]. unfold Store in *.
      rewrite list_lookup_insert_ne by lia. by rewrite lookup_app_l.
    + assert (Hcaller : st1 !! modaliases ctx = Some d).
      { eapply Hkeep; [exact Ec|]. unfold Store in *.
        rewrite list_lookup_insert_ne by lia. by rewrite lookup_app_l. }
      assert (Hcopy : st1 !! length st = Some (<[None := "cfg"]> d)).
      { eapply Hkeep; [exact Ec|].
        apply list_lookup_insert_eq. rewrite length_app. cbn. lia. }
      assert (Hst : st' = st1).
      { destruct (set_expr (ensure_set node _)) as [[subj| | | | |]|];
          try (by inversion Hrun).
        rewrite lift_err_run in Hrun.
        destruct (_validate_config_object subj); by inversion Hrun. }
      subst st'. split; [exact Hcaller|].
      intros ir _. split; [lia | exact Hcopy].
Qed.

End AliasClaims.

Section AliasExamples.

Import Config.

Lemma sample_compile_keeps_dictionaries : keeps_dictionaries sample_compile.
Proof.
  intros q c st r st' Hrun l d Hl.
  unfold sample_compile in Hrun.
  destruct q; inversion Hrun; subst; exact Hl.
Qed.

Lemma reset_aliases_in_place_insert_on_copy_witness :
  snd (compile_ConfigReset sample_catalog sample_json_loads sample_compile
         sample_ensure_set sample_type_shape (mkObjectRef "Auth" None)
         INSTANCE None sample_ctx sample_store) !! 0%nat
    = Some (<[None := "cfg"]> sample_aliases) /\
  snd (compile_ConfigInsert sample_catalog sample_json_loads sample_compile
         sample_ensure_set (mkObjectRef "Auth" None) INSTANCE
         insert_Auth_shape sample_ctx sample_store) !! 0%nat
    = Some sample_aliases.
Proof.
  destruct (reset_aliases_in_place_insert_on_copy sample_catalog
              sample_json_loads sample_compile sample_ensure_set
              sample_type_shape (mkObjectRef "Auth" None) INSTANCE None
              insert_Auth_shape sample_ctx sample_store sample_aliases
              sample_compile_keeps_dictionaries eq_refl)
    as [Hreset Hinsert].
  split.
  - destruct (compile_ConfigReset sample_catalog sample_json_loads
                sample_compile sample_ensure_set sample_type_shape
                (mkObjectRef "Auth" None) INSTANCE None sample_ctx
                sample_store) as [[e|ir] st1] eqn:Erun.
    + vm_compute in Erun. discriminate Erun.
    + cbn [snd]. eapply Hreset.
      * reflexivity.
      * vm_compute. reflexivity.
      * vm_compute. reflexivity.
  - eapply Hinsert. apply surjective_pairing.
Defined.

End AliasExamples.

(** * Further properties of the modelled code *)

(** ** Listener lifecycle and configuration hooks *)

Section LifecycleFacts.

Import Server Hooks.

Variable env : Env.

(** Building blocks: which computations keep a part of the state. *)
Lemma keeps_ret {A B} (f : State -> B) (a : A) : keeps f (ret a).
Proof. intros s r s' H. by inversion H. Qed.

Lemma keeps_raise {A B} (f : State -> B) (e : Exn) : keeps f (raise (A:=A) e).
Proof. intros s r s' H. by inversion H. Qed.

Lemma keeps_gets {A B} (f : State -> B) (g : State -> A) : keeps f (gets g).
Proof. intros s r s' H. by inversion H. Qed.

Lemma keeps_bind {A B C} (f : State -> C) (m : M A) (k : A -> M B) :
  keeps f m -> (forall a, keeps f (k a)) -> keeps f (bind m k).
Proof.
  intros Hm Hk s r s' H. rewrite bind_run in H.
  destruct (m s) as [[e|a] s1] eqn:Em.
  - inversion H; subst. eapply Hm; eauto.
  - rewrite (Hk a _ _ _ H). eapply Hm; eauto.
Qed.

Lemma keeps_try {A B C} (f : State -> C) (m : M A) (h : Exn -> M B)
    (k : A -> M B) :
  keeps f m -> (forall e, keeps f (h e)) -> (forall a, keeps f (k a)) ->
  keeps f (try_except_else m h k).
Proof.
  intros Hm Hh Hk s r s' H. rewrite try_run in H.
  destruct (m s) as [[e|a] s1] eqn:Em.
  - rewrite (Hh e _ _ _ H). eapply Hm; eauto.
  - rewrite (Hk a _ _ _ H). eapply Hm; eauto.
Qed.

Lemma keeps_modify {B} (f : State -> B) (g : State -> State) :
  (forall s, f (g s) = f s) -> keeps f (modify g).
Proof. intros Hg s r s' H. inversion H; subst. apply Hg. Qed.

Lemma keeps_hook {B} (f : State -> B) (c : HookCall) :
  (forall e s, f (with_event e s) = f s) -> keeps f (hook env c).
Proof. intros Hf s r s' H. inversion H; subst. apply Hf. Qed.

Lemma keeps_logging {B} (f : State -> B) lvl msg :
  (forall e s, f (with_event e s) = f s) -> keeps f (logging lvl msg).
Proof. intros Hf. apply keeps_modify. intros s. apply Hf. Qed.

Lemma keeps_port_start {B} (f : State -> B) (p : nat) :
  heap_blind f -> keeps f (port_start env p).
Proof.
  intros [He Hh]. unfold port_start.
  apply keeps_bind; [apply keeps_gets|]. intros h.
  destruct (h !! p); [|apply keeps_raise].
  apply keeps_bind; [by apply keeps_modify|]. intros _.
  apply keeps_bind; [by apply keeps_hook|]. intros [e|].
  - apply keeps_raise.
  - by apply keeps_modify.
Qed.

Lemma keeps_port_stop {B} (f : State -> B) (p : nat) :
  heap_blind f -> keeps f (port_stop env p).
Proof.
  intros [He Hh]. unfold port_stop.
  apply keeps_bind; [apply keeps_gets|]. intros h.
  destruct (h !! p); [|apply keeps_raise].
  apply keeps_bind; [by apply keeps_modify|]. intros _.
  apply keeps_bind; [by apply keeps_hook|]. intros [e|].
  - apply keeps_raise.
  - by apply keeps_modify.
Qed.

Lemma keeps_new_port {B} (f : State -> B) cls host no conf :
  heap_blind f -> keeps f (_new_port env cls host no conf).
Proof.
  intros [He Hh]. unfold _new_port.
  apply keeps_bind; [by apply keeps_hook|]. intros [e|].
  - apply keeps_raise.
  - apply keeps_bind; [apply keeps_gets|]. intros h.
    apply keeps_bind; [by apply keeps_modify|]. intros _. apply keeps_ret.
Qed.

Lemma keeps_the_mgmt_port {B} (f : State -> B) : keeps f the_mgmt_port.
Proof.
  unfold the_mgmt_port. apply keeps_bind; [apply keeps_gets|].
  intros [p|]; [apply keeps_ret | apply keeps_raise].
Qed.

Lemma recorded_heap_blind : heap_blind recorded.
Proof. split; reflexivity. Qed.

Lemma recorded_mgmt_heap_blind : heap_blind recorded_mgmt.
Proof. split; reflexivity. Qed.

Lemma keeps_is_keeps_on_error {A B} (f : State -> B) (m : M A) :
  keeps f m -> keeps_on_error f m.
Proof. intros H s e s' Hrun. eapply H; eauto. Qed.

Lemma keeps_on_error_bind {A B C} (f : State -> C) (m : M A) (k : A -> M B) :
  keeps f m -> (forall a, keeps_on_error f (k a)) ->
  keeps_on_error f (bind m k).
Proof.
  intros Hm Hk s e s' H. rewrite bind_run in H.
  destruct (m s) as [[e0|a] s1] eqn:Em.
  - inversion H; subst. eapply Hm; eauto.
  - rewrite (Hk a _ _ _ H). eapply Hm; eauto.
Qed.

Lemma keeps_on_error_try {A B C} (f : State -> C) (m : M A)
    (h : Exn -> M B) (k : A -> M B) :
  keeps f m -> (forall e, keeps f (h e)) ->
  (forall a, keeps_on_error f (k a)) ->
  keeps_on_error f (try_except_else m h k).
Proof.
  intros Hm Hh Hk s e s' H. rewrite try_run in H.
  destruct (m s) as [[e0|a] s1] eqn:Em.
  - rewrite (Hh e0 _ _ _ H). eapply Hm; eauto.
  - rewrite (Hk a _ _ _ H). eapply Hm; eauto.
Qed.

Lemma keeps_on_error_modify {B} (f : State -> B) (g : State -> State) :
  keeps_on_error f (modify g).
Proof. intros s e s' H. inversion H. Qed.

(** The recovery of [_restart_mgmt_port] keeps what is recorded. *)
Lemma keeps_restart_original {A B} (f : State -> B) (e : Exn) :
  heap_blind f ->
  keeps f ((p0 <- the_mgmt_port ;; port_start env p0) ;;; raise (A:=A) e).
Proof.
  intros Hf. apply keeps_bind; [|intros; apply keeps_raise].
  apply keeps_bind; [apply keeps_the_mgmt_port|].
  intros p. by apply keeps_port_start.
Qed.

Lemma restart_keeps_on_error {B} (f : State -> B) (host : string) (no : Z) :
  heap_blind f -> keeps_on_error f (_restart_mgmt_port env host no).
Proof.
  intros Hf. unfold _restart_mgmt_port.
  apply keeps_on_error_bind.
  { apply keeps_bind; [apply keeps_the_mgmt_port|].
    intros p. by apply keeps_port_stop. }
  intros _. apply keeps_on_error_bind.
  { apply keeps_try; [by apply keeps_new_port| |intros; apply keeps_ret].
    intros e. by apply keeps_restart_original. }
  intros new. apply keeps_on_error_try.
  - by apply keeps_port_start.
  - intros e. apply keeps_bind; [|intros; by apply keeps_restart_original].
    apply keeps_try; [by apply keeps_port_stop| |intros; apply keeps_ret].
    intros _. apply keeps_logging. apply Hf.
  - intros _. apply keeps_on_error_modify.
Qed.

(** X1.  Whatever the hooks do, a [_restart_mgmt_port] that raises leaves
    the recorded management listener, host and port, the registry of
    configured ports and the cached rules as they were: the record changes
    only when the restart succeeds. *)
Theorem restart_failure_keeps_record (s : State) (host : string) (no : Z) :
  let run := _restart_mgmt_port env host no s in
  (exists e, fst run = inl e) ->
  recorded (snd run) = recorded s.
Proof.
  intros run [e He].
  destruct run as [r s'] eqn:Erun. cbn in He. subst r.
  eapply restart_keeps_on_error; [apply recorded_heap_blind | exact Erun].
Qed.

(** The handlers of [_restart_mgmt_port] end in [raise]. *)
Lemma bind_raises {A B} (m : M B) (k : B -> M A) (s : State) :
  (forall b s1, exists e' s', k b s1 = (inl e', s')) ->
  exists e' s', bind m k s = (inl e', s').
Proof.
  intros Hk. rewrite bind_run.
  destruct (m s) as [[e|b] s1]; [eauto|apply Hk].
Qed.

Lemma raise_raises {A} (e : Exn) (s : State) :
  exists e' s', raise (S:=State) (A:=A) e s = (inl e', s').
Proof. by exists e, s. Qed.

(** X2.  A [_restart_mgmt_port] that returns has stopped the old listener,
    built one port object for the requested host and port, started it, and
    recorded it with the new host and port; no other hook was called. *)
Theorem restart_success_moves_listener (s s' : State) (host : string)
    (no : Z) :
  _restart_mgmt_port env host no s = (inr tt, s') ->
  exists p0 P0,
    _mgmt_port s = Some p0 /\
    heap s !! p0 = Some P0 /\
    heap s' = <[p0 := set_lstate Stopped P0]> (heap s)
              ++ [mkPort ManagementPort host no None Running] /\
    recorded_mgmt s' = (Some (length (heap s)), host, no) /\
    events s' = events s
                ++ [EvHook (CStop p0) None;
                    EvHook (CConstruct ManagementPort host no) None;
                    EvHook (CStart (length (heap s))) None].
Proof.
  intros Hrun. unfold _restart_mgmt_port in Hrun.
  rewrite bind_run, bind_run in Hrun.
  destruct (_mgmt_port s) as [p0|] eqn:Hm.
  2:{ unfold the_mgmt_port in Hrun. rewrite bind_run in Hrun.
      cbn in Hrun. rewrite Hm in Hrun. discriminate Hrun. }
  rewrite (the_mgmt_port_run _ _ Hm) in Hrun.
  destruct (heap s !! p0) as [P0|] eqn:Hh.
  2:{ unfold port_stop in Hrun. rewrite bind_run in Hrun.
      cbn in Hrun. rewrite Hh in Hrun. discriminate Hrun. }
  exists p0, P0. split; [reflexivity|]. split; [exact Hh|].
  rewrite (port_stop_run _ _ _ _ Hh) in Hrun.
  destruct (env (events s) (CStop p0)) as [e0|] eqn:E0; [discriminate|].
  rewrite bind_run in Hrun. unfold try_except in Hrun.
  rewrite try_run, new_port_run in Hrun.
  set (s1 := after_hook _ (CStop p0) None s) in *.
  destruct (env (events s1) (CConstruct ManagementPort host no))
    as [e1|] eqn:E1.
  { cbv beta iota in Hrun.
    match type of Hrun with
    | context [bind ?m ?k ?st] =>
        destruct (bind_raises m k st (fun _ => raise_raises e1))
          as (e' & s2 & Hr)
    end.
    rewrite Hr in Hrun. discriminate Hrun. }
  cbn [ret] in Hrun.
  set (s2 := after_hook _ (CConstruct _ _ _) None s1) in *.
  assert (Hnew : length (heap s1) = length (heap s))
    by (subst s1; cbn; by rewrite length_insert).
  rewrite try_run in Hrun.
  erewrite port_start_run in Hrun by (subst s2; cbn; apply lookup_snoc).
  destruct (env (events s2) (CStart (length (heap s1)))) as [e2|] eqn:E2.
  { match type of Hrun with
    | context [bind ?m ?k ?st] =>
        destruct (bind_raises m k st) as (e' & s3 & Hr)
    end.
    { intros _ s3. apply bind_raises. intros _ s4. apply raise_raises. }
    rewrite Hr in Hrun. discriminate Hrun. }
  cbn in Hrun. inversion Hrun; subst s'; clear Hrun.
  subst s2 s1. cbn. rewrite length_insert.
  repeat split.
  - rewrite insert_app_r_alt by (rewrite length_insert; lia).
    rewrite length_insert, Nat.sub_diag. reflexivity.
  - by rewrite <- !app_assoc.
Qed.

Lemma keeps_start_portconf {B} (f : State -> B) (c : PortConf) (b : bool) :
  heap_blind f -> registry_blind f -> keeps f (_start_portconf env c b).
Proof.
  intros Hf Hr. unfold _start_portconf.
  apply keeps_bind; [apply keeps_gets|]. intros reg.
  destruct (reg !! c).
  { apply keeps_bind; [apply keeps_logging, Hf | intros; apply keeps_ret]. }
  apply keeps_bind.
  { repeat (match goal with
            | |- keeps _ (if ?x then _ else _) => destruct x
            end); apply keeps_ret || apply keeps_raise. }
  intros cls. apply keeps_bind; [by apply keeps_new_port|]. intros p.
  apply keeps_bind.
  { apply keeps_try; [by apply keeps_port_start| |].
    - intros ex. apply keeps_bind; [by apply keeps_port_stop|]. intros _.
      destruct b; [apply keeps_logging, Hf | apply keeps_raise].
    - intros _. apply keeps_logging, Hf. }
  intros _. apply keeps_bind; [|intros; apply keeps_ret].
  apply keeps_modify. intros s. apply Hr.
Qed.

Lemma keeps_stop_portconf {B} (f : State -> B) (c : PortConf) :
  heap_blind f -> registry_blind f -> keeps f (_stop_portconf env c).
Proof.
  intros Hf Hr. unfold _stop_portconf.
  apply keeps_bind; [apply keeps_gets|]. intros reg.
  destruct (reg !! c); [|apply keeps_logging, Hf].
  apply keeps_try.
  - apply keeps_bind; [apply keeps_modify; intros s; apply Hr|].
    intros _. by apply keeps_port_stop.
  - intros _. apply keeps_logging, Hf.
  - intros _. apply keeps_logging, Hf.
Qed.

Lemma mgmt_and_rules_blind :
  heap_blind mgmt_and_rules /\ registry_blind mgmt_and_rules.
Proof. repeat split. Qed.

(** The choice of the port class, as a table. *)
Lemma start_portconf_fresh (c : PortConf) (b : bool) (s : State) :
  _sys_conf_ports s !! c = None ->
  _start_portconf env c b s =
    match port_cls_of (protocol c) with
    | None =>
        (inl (InvalidReferenceError
                ("unknown protocol " ++ repr_str (protocol c))), s)
    | Some cls =>
        (port <- _new_port env cls (address c) (port c) (Some c) ;;
         try_except_else
           (port_start env port)
           (fun ex =>
              port_stop env port ;;;
              if b then logging LError "failed to start port for config: %r"
              else raise ex)
           (fun _ => logging LInfo "started port for config: %r") ;;;
         modify (fun s =>
                   with_sys_conf_ports (<[c := port]> (_sys_conf_ports s))
                                       s) ;;;
         ret (Some port)) s
    end.
Proof.
  intros Hreg. unfold _start_portconf, port_cls_of.
  rewrite bind_run. cbn [gets]. rewrite Hreg. rewrite bind_run.
  destruct (String.eqb (protocol c) "graphql+http"); [reflexivity|].
  destruct (String.eqb (protocol c) "edgeql+http"); [reflexivity|].
  destruct (String.eqb (protocol c) "notebook"); reflexivity.
Qed.

(** In the default mode a start that raises leaves the registry alone. *)
Lemma start_portconf_registry_on_error (c : PortConf) (s s' : State)
    (e : Exn) :
  _start_portconf env c false s = (inl e, s') ->
  _sys_conf_ports s' = _sys_conf_ports s.
Proof.
  intros Hrun.
  destruct (_sys_conf_ports s !! c) as [p|] eqn:Hreg.
  { unfold _start_portconf in Hrun. rewrite bind_run in Hrun.
    cbn [gets] in Hrun. rewrite Hreg in Hrun. discriminate Hrun. }
  rewrite (start_portconf_fresh _ _ _ Hreg) in Hrun.
  destruct (port_cls_of (protocol c)) as [cls|] eqn:Hcls;
    [|by inversion Hrun; subst].
  rewrite bind_run, new_port_run in Hrun.
  destruct (env (events s) (CConstruct cls (address c) (port c)))
    as [e1|] eqn:E1; [by inversion Hrun; subst|].
  rewrite bind_run, try_run in Hrun.
  erewrite port_start_run in Hrun by (cbn; apply lookup_snoc).
  match type of Hrun with
  | context [env ?h (CStart ?p)] =>
      destruct (env h (CStart p)) as [e2|] eqn:E2
  end; [|discriminate].
  rewrite bind_run in Hrun.
  erewrite port_stop_run in Hrun
    by (cbn; apply list_lookup_insert_eq; rewrite length_app; cbn; lia).
  match type of Hrun with
  | context [env ?h (CStop ?p)] =>
      destruct (env h (CStop p)) as [e3|] eqn:E3
  end; cbn in Hrun; by inversion Hrun; subst.
Qed.

(** X3.  In the default mode ([suppress_errors=False]) [_start_portconf]
    registers a key exactly when it returns a port: the port is then a new
    object of the class of the protocol, built from the configuration and
    [Running], stored under a key that was free; a call that returns [None]
    found the key registered and changed nothing but the log; a call that
    raises leaves the registry as it was.  The recorded management listener
    and the cached rules are never touched. *)
Theorem start_portconf_strict_outcomes (c : PortConf) (s s' : State)
    (r : Exn + option nat) :
  _start_portconf env c false s = (r, s') ->
  mgmt_and_rules s' = mgmt_and_rules s /\
  match r with
  | inr (Some p) =>
      _sys_conf_ports s !! c = None /\
      _sys_conf_ports s' = <[c := p]> (_sys_conf_ports s) /\
      p = length (heap s) /\
      exists cls,
        port_cls_of (protocol c) = Some cls /\
        heap s' = heap s ++ [mkPort cls (address c) (port c) (Some c) Running]
  | inr None =>
      is_Some (_sys_conf_ports s !! c) /\
      _sys_conf_ports s' = _sys_conf_ports s /\
      heap s' = heap s
  | inl e => _sys_conf_ports s' = _sys_conf_ports s
  end.
Proof.
  intros Hrun. split.
  { eapply keeps_start_portconf; [apply mgmt_and_rules_blind..|exact Hrun]. }
  destruct (_sys_conf_ports s !! c) as [p|] eqn:Hreg.
  { unfold _start_portconf in Hrun. rewrite bind_run in Hrun.
    cbn [gets] in Hrun. rewrite Hreg in Hrun. cbn in Hrun.
    inversion Hrun; subst. cbn. by repeat split. }
  rewrite (start_portconf_fresh _ _ _ Hreg) in Hrun.
  destruct (port_cls_of (protocol c)) as [cls|] eqn:Hcls;
    [|by inversion Hrun; subst].
  rewrite bind_run, new_port_run in Hrun.
  destruct (env (events s) (CConstruct cls (address c) (port c)))
    as [e1|] eqn:E1; [by inversion Hrun; subst|].
  rewrite bind_run, try_run in Hrun.
  erewrite port_start_run in Hrun by (cbn; apply lookup_snoc).
  match type of Hrun with
  | context [env ?h (CStart ?p)] =>
      destruct (env h (CStart p)) as [e2|] eqn:E2
  end.
  - rewrite bind_run in Hrun.
    erewrite port_stop_run in Hrun
      by (cbn; apply list_lookup_insert_eq; rewrite length_app; cbn; lia).
    match type of Hrun with
    | context [env ?h (CStop ?p)] =>
        destruct (env h (CStop p)) as [e3|] eqn:E3
    end; cbn in Hrun; by inversion Hrun; subst.
  - cbn in Hrun. inversion Hrun; subst; clear Hrun. cbn.
    repeat split. exists cls. split; [reflexivity|].
    rewrite insert_app_r_alt by lia. by rewrite Nat.sub_diag.
Qed.

(** X4.  A protocol other than [graphql+http], [edgeql+http] and
    [notebook] makes [_start_portconf] raise [InvalidReferenceError] before
    any port is built: no hook is called and the state is untouched, in
    best-effort mode as well. *)
Theorem start_portconf_unknown_protocol (c : PortConf) (b : bool)
    (s : State) :
  _sys_conf_ports s !! c = None ->
  port_cls_of (protocol c) = None ->
  _start_portconf env c b s =
    (inl (InvalidReferenceError
            ("unknown protocol " ++ repr_str (protocol c))), s).
Proof.
  intros Hreg Hcls. rewrite (start_portconf_fresh _ _ _ Hreg).
  by rewrite Hcls.
Qed.

(** What [_stop_portconf] does, by cases. *)
Lemma stop_portconf_run (c : PortConf) (s : State) :
  exists h evs,
    _stop_portconf env c s
      = (inr tt,
         mkState h (_mgmt_port s) (_mgmt_host_addr s) (_mgmt_port_no s)
                 (delete c (_sys_conf_ports s)) (_sys_auth s) (sys_config s)
                 (events s ++ evs))
    /\ match _sys_conf_ports s !! c with
       | None => evs = [EvLog LWarning "no port to stop for config: %r"]
       | Some p =>
           match heap s !! p with
           | Some _ => exists o lvl msg, evs = [EvHook (CStop p) o; EvLog lvl msg]
           | None => evs = [EvLog LError "failed to stop port for config: %r"]
           end
       end.
Proof.
  unfold _stop_portconf. rewrite bind_run. cbn [gets].
  destruct (_sys_conf_ports s !! c) as [p|] eqn:Hreg.
  - rewrite try_run, bind_run. cbn [modify].
    destruct (heap s !! p) as [P|] eqn:Hh.
    + erewrite port_stop_run by (cbn; exact Hh). cbn.
      destruct (env (events s) (CStop p)) as [e|];
        cbv [logging modify after_hook with_event with_sys_conf_ports]; cbn;
        eexists _, [_; _]; rewrite <- app_assoc;
        (split; [reflexivity | by eauto]).
    + unfold port_stop. rewrite bind_run. cbn. rewrite Hh.
      cbv [logging modify raise with_event with_sys_conf_ports]; cbn.
      eexists _, _. split; reflexivity.
  - cbv [logging modify with_event]; cbn.
    rewrite delete_id by exact Hreg.
    eexists _, _. split; reflexivity.
Qed.

(** X5.  [_stop_portconf] never raises, whatever the stop hook does: it
    returns normally, the key is free afterwards, every other registration
    and the recorded management listener and rules are as before. *)
Theorem stop_portconf_never_raises (c : PortConf) (s : State) :
  let run := _stop_portconf env c s in
  fst run = inr tt /\
  _sys_conf_ports (snd run) = delete c (_sys_conf_ports s) /\
  mgmt_and_rules (snd run) = mgmt_and_rules s.
Proof.
  destruct (stop_portconf_run c s) as (h & evs & Hrun & _).
  cbv zeta. rewrite Hrun. cbn. by repeat split.
Qed.

(** X6.  Stopping twice: whatever the first [_stop_portconf] did, the second
    one finds no registration, calls no hook and only logs the warning. *)
Theorem stop_portconf_twice (c : PortConf) (s : State) :
  let s1 := snd (_stop_portconf env c s) in
  _stop_portconf env c s1 =
    (inr tt, with_event (EvLog LWarning "no port to stop for config: %r") s1).
Proof.
  destruct (stop_portconf_run c s) as (h & evs & Hrun & _).
  cbv zeta. rewrite Hrun. cbn [snd].
  unfold _stop_portconf. rewrite bind_run. cbn [gets _sys_conf_ports].
  by rewrite lookup_delete_eq.
Qed.

(** X7.  Round trip: after a [_start_portconf] that returned the port [p],
    a [_stop_portconf] of the same key calls the stop hook of [p], returns
    normally whatever that hook does, and the registry is the one from
    before the start. *)
Theorem start_then_stop_restores_registry (c : PortConf) (b : bool)
    (s s1 : State) (p : nat) :
  _start_portconf env c b s = (inr (Some p), s1) ->
  let run := _stop_portconf env c s1 in
  fst run = inr tt /\
  _sys_conf_ports (snd run) = _sys_conf_ports s /\
  exists o lvl msg,
    events (snd run) = events s1 ++ [EvHook (CStop p) o; EvLog lvl msg].
Proof.
  intros Hstart.
  assert (Hreg : _sys_conf_ports s !! c = None).
  { destruct (_sys_conf_ports s !! c) eqn:E; [|reflexivity].
    unfold _start_portconf in Hstart. rewrite bind_run in Hstart.
    cbn [gets] in Hstart. rewrite E in Hstart. discriminate Hstart. }
  assert (Hs1 : _sys_conf_ports s1 = <[c := p]> (_sys_conf_ports s)
                /\ is_Some (heap s1 !! p)).
  { rewrite (start_portconf_fresh _ _ _ Hreg) in Hstart.
    destruct (port_cls_of (protocol c)) as [cls|]; [|discriminate].
    rewrite bind_run, new_port_run in Hstart.
    destruct (env (events s) (CConstruct cls (address c) (port c)));
      [discriminate|].
    rewrite bind_run, try_run in Hstart.
    erewrite port_start_run in Hstart by (cbn; apply lookup_snoc).
    match type of Hstart with
    | context [env ?h (CStart ?q)] => destruct (env h (CStart q))
    end.
    - rewrite bind_run in Hstart.
      erewrite port_stop_run in Hstart
        by (cbn; apply list_lookup_insert_eq; rewrite length_app; cbn; lia).
      match type of Hstart with
      | context [env ?h (CStop ?q)] => destruct (env h (CStop q))
      end; [discriminate|].
      destruct b; [|discriminate].
      cbn in Hstart. inversion Hstart; subst; clear Hstart. cbn.
      split; [reflexivity|]. apply lookup_lt_is_Some.
      rewrite !length_insert, length_app. cbn. lia.
    - cbn in Hstart. inversion Hstart; subst; clear Hstart. cbn.
      split; [reflexivity|]. apply lookup_lt_is_Some.
      rewrite !length_insert, length_app. cbn. lia. }
  destruct Hs1 as [Hs1 [P HP]].
  destruct (stop_portconf_run c s1) as (h & evs & Hrun & Hevs).
  rewrite Hs1, lookup_insert_eq, HP in Hevs.
  destruct Hevs as (o & lvl & msg & ->).
  cbv zeta. rewrite Hrun. cbn. split; [reflexivity|].
  split; [|by eauto].
  rewrite Hs1. by apply delete_insert_id.
Qed.

(** X8.  The hook table is not exhaustive: for a setting other than
    [ports], [listen_addresses], [listen_port] and [auth], the hooks run
    before and after an add, a remove or a reset return normally, call no
    listener hook and leave the server as it was, whatever the value. *)
Theorem unrecognized_settings_are_noops (EDGEDB_PORT : Z)
    (setting_name : string) (value : ConfigValue) (s : State) :
  setting_name <> "ports" ->
  setting_name <> "listen_addresses" ->
  setting_name <> "listen_port" ->
  setting_name <> "auth" ->
  _on_system_config_add env setting_name value s = (inr tt, s) /\
  _on_system_config_rem env setting_name value s = (inr tt, s) /\
  _on_system_config_reset env EDGEDB_PORT setting_name s = (inr tt, s) /\
  _after_system_config_add setting_name value s = (inr tt, s) /\
  _after_system_config_rem setting_name value s = (inr tt, s).
Proof.
  intros Hp Ha Hl Hau.
  unfold _on_system_config_add, _on_system_config_rem,
    _on_system_config_reset, _after_system_config_add,
    _after_system_config_rem.
  apply String.eqb_neq in Hp, Ha, Hl, Hau.
  rewrite Hp, Ha, Hl, Hau. by repeat split.
Qed.

(** X9.  The hooks for the [ports] setting.  Removing never raises, for any
    value.  Adding a port configuration is not best-effort: when the start
    of the new port fails, [_on_system_config_add] raises, with the error
    of the start or, when the stop that follows fails too, with the error
    of that stop, and the key is not registered.  Whenever the add raises,
    the recorded management listener, registry and rules are as before. *)
Theorem ports_hooks_failure_policy (c : PortConf) (value : ConfigValue)
    (s : State) :
  fst (_on_system_config_rem env "ports" value s) = inr tt /\
  (forall cls e,
     _sys_conf_ports s !! c = None ->
     port_cls_of (protocol c) = Some cls ->
     env (events s) (CConstruct cls (address c) (port c)) = None ->
     env (events s ++ [EvHook (CConstruct cls (address c) (port c)) None])
         (CStart (length (heap s))) = Some e ->
     let run := _on_system_config_add env "ports" (VPortConf c) s in
     fst run
       = inl match env (events s
                       ++ [EvHook (CConstruct cls (address c) (port c)) None;
                           EvHook (CStart (length (heap s))) (Some e)])
                      (CStop (length (heap s))) with
             | Some e' => e'
             | None => e
             end
     /\ _sys_conf_ports (snd run) !! c = None) /\
  (forall e s',
     _on_system_config_add env "ports" (VPortConf c) s = (inl e, s') ->
     recorded s' = recorded s).
Proof.
  split; [|split].
  - unfold _on_system_config_rem. cbn.
    destruct value; try reflexivity.
    destruct (stop_portconf_run v s) as (h & evs & Hrun & _).
    by rewrite Hrun.
  - intros cls e Hreg Hcls Hc Hs run. subst run.
    unfold _on_system_config_add. cbn [String.eqb Ascii.eqb Bool.eqb].
    rewrite bind_run, (start_portconf_fresh _ _ _ Hreg), Hcls.
    rewrite bind_run, new_port_run, Hc.
    rewrite bind_run, try_run.
    erewrite port_start_run by (cbn; apply lookup_snoc).
    cbn [events after_hook]. rewrite Hs.
    rewrite bind_run.
    erewrite port_stop_run
      by (cbn; apply list_lookup_insert_eq; rewrite length_app; cbn; lia).
    cbn [events after_hook]. rewrite <- app_assoc. cbn [app].
    destruct (env _ (CStop (length (heap s)))) as [e3|]; cbn;
      (split; [reflexivity | exact Hreg]).
  - intros e s' Hrun. unfold _on_system_config_add in Hrun. cbn in Hrun.
    rewrite bind_run in Hrun.
    destruct (_start_portconf env c false s) as [[e0|r] s1] eqn:Es;
      [|discriminate].
    inversion Hrun; subst; clear Hrun.
    pose proof (start_portconf_registry_on_error c s s' e Es) as Hreg.
    pose proof (keeps_start_portconf mgmt_and_rules c false
                  (proj1 mgmt_and_rules_blind) (proj2 mgmt_and_rules_blind)
                  _ _ _ Es) as Hm.
    unfold recorded, mgmt_and_rules in *. congruence.
Qed.

End LifecycleFacts.

Section LifecycleExamples.

Import Server Hooks.

Lemma restart_failure_keeps_record_witness :
  recorded (snd (_restart_mgmt_port env_nothing_starts "localhost" 10702
                                    server_10701))
  = recorded server_10701.
Proof.
  apply (restart_failure_keeps_record env_nothing_starts server_10701
           "localhost" 10702).
  exists cannot_listen. vm_compute. reflexivity.
Defined.

Lemma restart_success_moves_listener_witness :
  exists p0 P0,
    _mgmt_port server_10701 = Some p0 /\
    heap server_10701 !! p0 = Some P0 /\
    heap (snd (_restart_mgmt_port env_all_good "0.0.0.0" 10702 server_10701))
      = <[p0 := set_lstate Stopped P0]> (heap server_10701)
        ++ [mkPort ManagementPort "0.0.0.0" 10702 None Running] /\
    recorded_mgmt
      (snd (_restart_mgmt_port env_all_good "0.0.0.0" 10702 server_10701))
      = (Some (length (heap server_10701)), "0.0.0.0", 10702) /\
    events (snd (_restart_mgmt_port env_all_good "0.0.0.0" 10702
                                    server_10701))
      = events server_10701
        ++ [EvHook (CStop p0) None;
            EvHook (CConstruct ManagementPort "0.0.0.0" 10702) None;
            EvHook (CStart (length (heap server_10701))) None].
Proof.
  apply (restart_success_moves_listener env_all_good server_10701).
  vm_compute. reflexivity.
Defined.

Lemma start_portconf_strict_outcomes_witness :
  mgmt_and_rules
    (snd (_start_portconf env_all_good graphql_8888 false server_10701))
  = mgmt_and_rules server_10701 /\
  _sys_conf_ports
    (snd (_start_portconf env_all_good graphql_8888 false server_10701))
  = <[graphql_8888 := 1%nat]> (_sys_conf_ports server_10701).
Proof.
  pose proof (start_portconf_strict_outcomes env_all_good graphql_8888
                server_10701 _ _ (surjective_pairing _)) as [Hm H].
  assert (Hr : fst (_start_portconf env_all_good graphql_8888 false
                                    server_10701) = inr (Some 1%nat))
    by (vm_compute; reflexivity).
  rewrite Hr in H. destruct H as (_ & Hreg & _).
  split; [exact Hm | exact Hreg].
Defined.

Lemma start_portconf_unknown_protocol_witness :
  _start_portconf env_all_good gopher_7070 true server_10701
  = (inl (InvalidReferenceError "unknown protocol 'gopher'"), server_10701).
Proof.
  apply (start_portconf_unknown_protocol env_all_good gopher_7070 true
           server_10701); vm_compute; reflexivity.
Defined.

Lemma start_then_stop_restores_registry_witness :
  let s1 := snd (_start_portconf env_all_good graphql_8888 false
                                 server_10701) in
  fst (_stop_portconf env_all_good graphql_8888 s1) = inr tt /\
  _sys_conf_ports (snd (_stop_portconf env_all_good graphql_8888 s1))
    = _sys_conf_ports server_10701 /\
  exists o lvl msg,
    events (snd (_stop_portconf env_all_good graphql_8888 s1))
    = events s1 ++ [EvHook (CStop 1%nat) o; EvLog lvl msg].
Proof.
  intros s1.
  apply (start_then_stop_restores_registry env_all_good graphql_8888 false
           server_10701 s1 1%nat).
  assert (Hr : fst (_start_portconf env_all_good graphql_8888 false
                                    server_10701) = inr (Some 1%nat))
    by (vm_compute; reflexivity).
  rewrite <- Hr. apply surjective_pairing.
Defined.

Lemma unrecognized_settings_are_noops_witness :
  _on_system_config_add env_all_good "shared_buffers" (VStr "1GB")
                        server_10701 = (inr tt, server_10701) /\
  _on_system_config_rem env_all_good "shared_buffers" (VStr "1GB")
                        server_10701 = (inr tt, server_10701) /\
  _on_system_config_reset env_all_good 5656 "shared_buffers" server_10701
    = (inr tt, server_10701) /\
  _after_system_config_add "shared_buffers" (VStr "1GB") server_10701
    = (inr tt, server_10701) /\
  _after_system_config_rem "shared_buffers" (VStr "1GB") server_10701
    = (inr tt, server_10701).
Proof.
  apply (unrecognized_settings_are_noops env_all_good 5656 "shared_buffers"
           (VStr "1GB") server_10701); discriminate.
Defined.

Lemma ports_hooks_failure_policy_witness :
  let run := _on_system_config_add env_new_port_cannot_start "ports"
               (VPortConf graphql_8888) server_10701 in
  fst run = inl address_in_use /\
  _sys_conf_ports (snd run) !! graphql_8888 = None.
Proof.
  destruct (ports_hooks_failure_policy env_new_port_cannot_start
              graphql_8888 (VPortConf graphql_8888) server_10701)
    as (_ & H & _).
  apply (H HttpGraphQLPort address_in_use); reflexivity.
Defined.

End LifecycleExamples.

Section BestEffortFacts.

Import Server Hooks.

Variable env : Env.

(** X10.  In best-effort mode ([suppress_errors=True]) a failed start is
    never propagated: [_start_portconf] then stops the new port, logs the
    failure and still registers the port, which is [Stopped]; a call that
    returns a port has registered it under the key, [Running] exactly when
    no failure was logged.  The call raises only for an unknown protocol,
    when the constructor of the port raises, or when the stop that follows
    a failed start raises, and then the registry is as it was. *)
Theorem start_portconf_best_effort_outcomes (c : PortConf) (s s' : State)
    (r : Exn + option nat) :
  _start_portconf env c true s = (r, s') ->
  match r with
  | inr (Some p) =>
      _sys_conf_ports s' = <[c := p]> (_sys_conf_ports s) /\
      p = length (heap s) /\
      exists cls st,
        port_cls_of (protocol c) = Some cls /\
        heap s' = heap s ++ [mkPort cls (address c) (port c) (Some c) st] /\
        (st = Stopped /\
         last (events s')
           = Some (EvLog LError "failed to start port for config: %r") /\
         (exists e, In (EvHook (CStart p) (Some e)) (events s'))
         \/
         st = Running /\
         last (events s')
           = Some (EvLog LInfo "started port for config: %r"))
  | inr None =>
      is_Some (_sys_conf_ports s !! c) /\
      _sys_conf_ports s' = _sys_conf_ports s /\
      heap s' = heap s
  | inl e =>
      _sys_conf_ports s' = _sys_conf_ports s /\
      (port_cls_of (protocol c) = None
       \/ (exists cls,
             last (events s')
               = Some (EvHook (CConstruct cls (address c) (port c)) (Some e)))
       \/ last (events s') = Some (EvHook (CStop (length (heap s))) (Some e)))
  end.
Proof.
  intros Hrun.
  destruct (_sys_conf_ports s !! c) as [p|] eqn:Hreg.
  { unfold _start_portconf in Hrun. rewrite bind_run in Hrun.
    cbn [gets] in Hrun. rewrite Hreg in Hrun. cbn in Hrun.
    inversion Hrun; subst. cbn. by repeat split. }
  rewrite (start_portconf_fresh _ _ _ _ Hreg) in Hrun.
  destruct (port_cls_of (protocol c)) as [cls|] eqn:Hcls;
    [|inversion Hrun; subst; split; [reflexivity|by left]].
  rewrite bind_run, new_port_run in Hrun.
  destruct (env (events s) (CConstruct cls (address c) (port c)))
    as [e1|] eqn:E1.
  { inversion Hrun; subst. split; [reflexivity|].
    right; left. exists cls. cbn. by rewrite last_snoc. }
  rewrite bind_run, try_run in Hrun.
  erewrite port_start_run in Hrun by (cbn; apply lookup_snoc).
  match type of Hrun with
  | context [env ?h (CStart ?p)] =>
      destruct (env h (CStart p)) as [e2|] eqn:E2
  end.
  - rewrite bind_run in Hrun.
    erewrite port_stop_run in Hrun
      by (cbn; apply list_lookup_insert_eq; rewrite length_app; cbn; lia).
    match type of Hrun with
    | context [env ?h (CStop ?p)] =>
        destruct (env h (CStop p)) as [e3|] eqn:E3
    end; cbn in Hrun; inversion Hrun; subst; clear Hrun; cbn.
    + split; [reflexivity|]. right; right. by rewrite last_snoc.
    + repeat split. exists cls, Stopped. split; [reflexivity|].
      split.
      { rewrite list_insert_insert_eq.
        rewrite insert_app_r_alt by lia. by rewrite Nat.sub_diag. }
      left. split; [reflexivity|]. split; [by rewrite last_snoc|].
      exists e2. rewrite !in_app_iff. cbn. tauto.
  - cbn in Hrun. inversion Hrun; subst; clear Hrun. cbn.
    repeat split. exists cls, Running. split; [reflexivity|].
    split.
    { rewrite insert_app_r_alt by lia. by rewrite Nat.sub_diag. }
    right. split; [reflexivity|]. by rewrite last_snoc.
Qed.

End BestEffortFacts.

Section BestEffortExamples.

Import Server Hooks.

Lemma start_portconf_best_effort_outcomes_witness :
  let run := _start_portconf env_new_port_cannot_start graphql_8888 true
                             server_10701 in
  _sys_conf_ports (snd run)
    = <[graphql_8888 := 1%nat]> (_sys_conf_ports server_10701).
Proof.
  intros run.
  pose proof (start_portconf_best_effort_outcomes env_new_port_cannot_start
                graphql_8888 server_10701 _ _ (surjective_pairing run)) as H.
  assert (Hr : fst run = inr (Some 1%nat)) by (vm_compute; reflexivity).
  rewrite Hr in H. exact (proj1 H).
Defined.

End BestEffortExamples.

(** ** The bring-up of the configured ports *)

Section BringUpFacts.

Import Server Hooks.

Variable env : Env.

Hypothesis constructors_succeed :
  forall evs cls host no, env evs (CConstruct cls host no) = None.
Hypothesis stops_succeed : forall evs p, env evs (CStop p) = None.

(** One best-effort start, when only the start hook can fail. *)
Lemma best_effort_start_returns (c : PortConf) (s : State) :
  is_Some (port_cls_of (protocol c)) ->
  exists r s',
    _start_portconf env c true s = (inr r, s')
    /\ is_Some (_sys_conf_ports s' !! c)
    /\ (forall c', is_Some (_sys_conf_ports s !! c') ->
                   _sys_conf_ports s' !! c' = _sys_conf_ports s !! c')
    /\ sys_config s' = sys_config s.
Proof.
  intros [cls Hcls].
  destruct (_sys_conf_ports s !! c) as [p|] eqn:Hreg.
  { unfold _start_portconf. rewrite bind_run. cbn [gets]. rewrite Hreg.
    cbn. eexists _, _. split; [reflexivity|]. cbn. rewrite Hreg.
    by repeat split. }
  rewrite (start_portconf_fresh _ _ _ _ Hreg), Hcls.
  rewrite bind_run, new_port_run, constructors_succeed.
  rewrite bind_run, try_run.
  erewrite port_start_run by (cbn; apply lookup_snoc).
  assert (Hother : forall (p : nat) c',
            is_Some (_sys_conf_ports s !! c') ->
            <[c := p]> (_sys_conf_ports s) !! c' = _sys_conf_ports s !! c').
  { intros p c' Hc'. apply lookup_insert_ne. intros ->.
    rewrite Hreg in Hc'. by destruct Hc'. }
  match goal with
  | |- context [env ?h (CStart ?p)] =>
      destruct (env h (CStart p)) as [e2|] eqn:E2
  end.
  - rewrite bind_run.
    erewrite port_stop_run
      by (cbn; apply list_lookup_insert_eq; rewrite length_app; cbn; lia).
    rewrite stops_succeed. cbn.
    eexists _, _. split; [reflexivity|]. cbn.
    rewrite lookup_insert_eq. split; [by eexists|]. split; [|reflexivity].
    apply Hother.
  - cbn. eexists _, _. split; [reflexivity|]. cbn.
    rewrite lookup_insert_eq. split; [by eexists|]. split; [|reflexivity].
    apply Hother.
Qed.

Lemma start_each_returns (ports : list PortConf) :
  Forall (fun c => is_Some (port_cls_of (protocol c))) ports ->
  forall s, exists s',
    start_each env ports s = (inr tt, s')
    /\ (forall c, In c ports -> is_Some (_sys_conf_ports s' !! c))
    /\ (forall c', is_Some (_sys_conf_ports s !! c') ->
                   _sys_conf_ports s' !! c' = _sys_conf_ports s !! c').
Proof.
  induction 1 as [|c rest Hc Hrest IH]; intros s.
  - exists s. cbn. split; [reflexivity|]. split; [intros c []|done].
  - destruct (best_effort_start_returns c s Hc)
      as (r & s1 & Hrun & Hin & Hkeep & _).
    destruct (IH s1) as (s' & Hrun' & Hin' & Hkeep').
    exists s'. cbn [start_each]. rewrite bind_run, Hrun.
    split; [exact Hrun'|]. split.
    + intros c0 [<-|Hc0]; [|by apply Hin'].
      by rewrite (Hkeep' _ Hin).
    + intros c' Hc'. rewrite Hkeep'; [by apply Hkeep|].
      by rewrite Hkeep.
Qed.

(** X11.  Bringing up the configured ports when [Server.start] runs: as
    long as every configured protocol is known and no constructor and no
    stop hook of a port raises, the loop returns normally however many
    starts fail, every configured key is registered afterwards and every
    registration made before is kept. *)
Theorem bring_up_survives_start_failures (s : State)
    (ports : list PortConf) :
  cfg_ports (sys_config s) = Some ports ->
  Forall (fun c => is_Some (port_cls_of (protocol c))) ports ->
  let run := start_configured_ports env s in
  fst run = inr tt /\
  (forall c, In c ports -> is_Some (_sys_conf_ports (snd run) !! c)) /\
  (forall c', is_Some (_sys_conf_ports s !! c') ->
              _sys_conf_ports (snd run) !! c' = _sys_conf_ports s !! c').
Proof.
  intros Hcfg Hknown.
  destruct (start_each_returns ports Hknown s) as (s' & Hrun & Hin & Hkeep).
  cbv zeta. unfold start_configured_ports. rewrite bind_run.
  cbn [gets]. rewrite Hcfg, Hrun. by repeat split.
Qed.

End BringUpFacts.

Section BringUpAborts.

Import Server Hooks.

Variable env : Env.

Lemma start_each_app (pre post : list PortConf) (s : State) :
  start_each env (pre ++ post) s
  = (start_each env pre ;;; start_each env post) s.
Proof.
  revert s. induction pre as [|c pre IH]; intros s; [reflexivity|].
  cbn [start_each app]. rewrite !bind_run.
  destruct (_start_portconf env c true s) as [[e|r] s1]; [reflexivity|].
  rewrite IH. by rewrite bind_run.
Qed.

(** The registry only grows by the keys that are started. *)
Lemma start_portconf_other_keys (c c' : PortConf) (b : bool)
    (s s' : State) (r : Exn + option nat) :
  c' <> c ->
  _start_portconf env c b s = (r, s') ->
  _sys_conf_ports s' !! c' = _sys_conf_ports s !! c'.
Proof.
  intros Hne Hrun.
  destruct (_sys_conf_ports s !! c) as [p|] eqn:Hreg.
  { unfold _start_portconf in Hrun. rewrite bind_run in Hrun.
    cbn [gets] in Hrun. rewrite Hreg in Hrun. cbn in Hrun.
    by inversion Hrun; subst. }
  rewrite (start_portconf_fresh _ _ _ _ Hreg) in Hrun.
  destruct (port_cls_of (protocol c)) as [cls|];
    [|by inversion Hrun; subst].
  rewrite bind_run, new_port_run in Hrun.
  destruct (env (events s) (CConstruct cls (address c) (port c)))
    as [e1|]; [by inversion Hrun; subst|].
  rewrite bind_run, try_run in Hrun.
  erewrite port_start_run in Hrun by (cbn; apply lookup_snoc).
  match type of Hrun with
  | context [env ?h (CStart ?p)] =>
      destruct (env h (CStart p)) as [e2|]
  end.
  - rewrite bind_run in Hrun.
    erewrite port_stop_run in Hrun
      by (cbn; apply list_lookup_insert_eq; rewrite length_app; cbn; lia).
    match type of Hrun with
    | context [env ?h (CStop ?p)] =>
        destruct (env h (CStop p)) as [e3|]
    end; destruct b; cbn in Hrun; inversion Hrun; subst; cbn;
      try reflexivity; by apply lookup_insert_ne.
  - cbn in Hrun. inversion Hrun; subst. cbn. by apply lookup_insert_ne.
Qed.

Lemma start_each_other_keys (ports : list PortConf) (c' : PortConf) :
  ~ In c' ports ->
  forall s r s',
    start_each env ports s = (r, s') ->
    _sys_conf_ports s' !! c' = _sys_conf_ports s !! c'.
Proof.
  induction ports as [|c rest IH]; intros Hnin s r s' Hrun.
  - by inversion Hrun; subst.
  - cbn [start_each] in Hrun. rewrite bind_run in Hrun.
    assert (Hne : c' <> c) by (intros ->; apply Hnin; by left).
    destruct (_start_portconf env c true s) as [[e|r1] s1] eqn:E1.
    + inversion Hrun; subst.
      eapply start_portconf_other_keys; eauto.
    + rewrite (IH (fun H => Hnin (or_intror H)) _ _ _ Hrun).
      eapply start_portconf_other_keys; eauto.
Qed.

(** X12.  The bring-up is not best-effort for every failure: a configured
    port of an unknown protocol that is reached makes the loop raise
    [InvalidReferenceError], and the ports configured after it are not
    started. *)
Theorem bring_up_stops_at_unknown_protocol (s s1 : State)
    (pre post : list PortConf) (c : PortConf) :
  cfg_ports (sys_config s) = Some (pre ++ c :: post) ->
  start_each env pre s = (inr tt, s1) ->
  _sys_conf_ports s1 !! c = None ->
  port_cls_of (protocol c) = None ->
  start_configured_ports env s
  = (inl (InvalidReferenceError
            ("unknown protocol " ++ repr_str (protocol c))), s1)
  /\ forall c', ~ In c' pre ->
                _sys_conf_ports s1 !! c' = _sys_conf_ports s !! c'.
Proof.
  intros Hcfg Hpre Hreg Hcls. split.
  - unfold start_configured_ports. rewrite bind_run. cbn [gets].
    rewrite Hcfg, start_each_app, bind_run, Hpre.
    cbn [start_each]. rewrite bind_run.
    rewrite (start_portconf_fresh _ _ _ _ Hreg), Hcls. reflexivity.
  - intros c' Hnin. eapply start_each_other_keys; eauto.
Qed.

End BringUpAborts.

Section BringUpExamples.

Import Server Hooks.

Lemma bring_up_survives_start_failures_witness :
  let run := start_configured_ports env_new_port_cannot_start
               (server_with_ports [graphql_8888; edgeql_8889]) in
  fst run = inr tt /\
  is_Some (_sys_conf_ports (snd run) !! graphql_8888) /\
  is_Some (_sys_conf_ports (snd run) !! edgeql_8889).
Proof.
  intros run.
  assert (Hknown : Forall (fun c => is_Some (port_cls_of (protocol c)))
                          [graphql_8888; edgeql_8889])
    by (repeat constructor; by eexists).
  destruct (bring_up_survives_start_failures env_new_port_cannot_start
              (fun _ _ _ _ => eq_refl) (fun _ _ => eq_refl)
              (server_with_ports [graphql_8888; edgeql_8889])
              [graphql_8888; edgeql_8889] eq_refl Hknown)
    as (Hr & Hin & _).
  split; [exact Hr|].
  split; apply Hin; cbn; tauto.
Defined.

Lemma bring_up_stops_at_unknown_protocol_witness :
  let s := server_with_ports [gopher_7070; graphql_8888] in
  start_configured_ports env_all_good s
  = (inl (InvalidReferenceError "unknown protocol 'gopher'"), s)
  /\ _sys_conf_ports s !! graphql_8888 = None.
Proof.
  intros s.
  destruct (bring_up_stops_at_unknown_protocol env_all_good s s []
              [graphql_8888] gopher_7070 eq_refl eq_refl eq_refl eq_refl)
    as [Hrun Hkeep].
  split; [exact Hrun | reflexivity].
Defined.

End BringUpExamples.

(** ** The cached rules *)

Section AuthFacts.

Import Server.

Lemma insert_by_priority_filter (p : Z) (a : Auth) (l : list Auth) :
  List.filter (fun x => priority x =? p) (insert_by_priority a l)
  = List.filter (fun x => priority x =? p) (a :: l).
Proof.
  induction l as [|b l IH]; [reflexivity|]. cbn [insert_by_priority].
  destruct (Z.leb_spec (priority a) (priority b)) as [Hle|Hlt];
    [reflexivity|].
  cbn [List.filter] in *. rewrite IH.
  destruct (Z.eqb_spec (priority a) p), (Z.eqb_spec (priority b) p);
    try reflexivity; lia.
Qed.

(** X13.  The sort of the cached rules is stable: the rules of one and the
    same priority are cached in the order in which the system configuration
    lists them. *)
Theorem populate_sys_auth_stable (s : State) (p : Z) :
  List.filter (fun a => priority a =? p)
              (_sys_auth (snd (_populate_sys_auth s)))
  = List.filter (fun a => priority a =? p) (lookup_auth (sys_config s)).
Proof.
  cbn. induction (lookup_auth (sys_config s)) as [|a l IH]; [reflexivity|].
  cbn [sorted_by_priority foldr]. fold (sorted_by_priority l).
  rewrite insert_by_priority_filter. cbn [List.filter]. by rewrite IH.
Qed.

(** The loop of [get_auth_method] returns the method of the first rule that
    matches. *)
Lemma first_matching_method_first (user : string) (l : list Auth)
    (a : Auth) :
  In a l -> auth_matches user a = true ->
  exists pre b post,
    l = pre ++ b :: post
    /\ Forall (fun c => auth_matches user c = false) pre
    /\ auth_matches user b = true
    /\ first_matching_method user l = Some (method b).
Proof.
  induction l as [|c l IH]; [intros []|].
  intros Hin Ha. cbn [first_matching_method].
  destruct (auth_matches user c) eqn:Ec.
  - exists [], c, l. by repeat split.
  - destruct Hin as [->|Hin]; [congruence|].
    destruct (IH Hin Ha) as (pre & b & post & -> & Hpre & Hb & Hm).
    exists (c :: pre), b, post. repeat split; auto.
Qed.

Lemma sorted_suffix (pre l : list Auth) :
  StronglySorted by_priority (pre ++ l) -> StronglySorted by_priority l.
Proof.
  induction pre as [|x pre IH]; [auto|].
  cbn. intros H. inversion H; subst. auto.
Qed.

(** X14.  After the cache is rebuilt, a user that some configured rule
    matches gets the method of a matching rule of the lowest priority value:
    [get_auth_method] returns the method of a configured rule that matches
    the user, and no configured rule that matches has a smaller priority. *)
Theorem lowest_priority_match_wins (s : State) (user : string) (a : Auth) :
  In a (lookup_auth (sys_config s)) ->
  auth_matches user a = true ->
  exists b,
    In b (lookup_auth (sys_config s))
    /\ auth_matches user b = true
    /\ get_auth_method (snd (_populate_sys_auth s)) user = Some (method b)
    /\ forall c, In c (lookup_auth (sys_config s)) ->
                 auth_matches user c = true ->
                 priority b <= priority c.
Proof.
  intros Hin Ha. cbn [_populate_sys_auth bind gets modify snd].
  set (l := lookup_auth (sys_config s)) in *.
  pose proof (sorted_by_priority_perm l) as Hperm.
  pose proof (sorted_by_priority_sorted l) as Hsorted.
  assert (Hin' : In a (sorted_by_priority l))
    by (eapply Permutation_in; [symmetry; exact Hperm | exact Hin]).
  destruct (first_matching_method_first user _ a Hin' Ha)
    as (pre & b & post & Hl & Hpre & Hb & Hm).
  exists b. split; [|split; [exact Hb|split]].
  - eapply Permutation_in; [exact Hperm|]. rewrite Hl.
    apply in_or_app. right. by left.
  - unfold get_auth_method. cbn [_sys_auth with_sys_auth].
    destruct (sorted_by_priority l) as [|x xs] eqn:El; [destruct Hin'|].
    exact Hm.
  - intros c Hc Hcm.
    assert (Hc' : In c (sorted_by_priority l))
      by (eapply Permutation_in; [symmetry; exact Hperm | exact Hc]).
    rewrite Hl in Hc', Hsorted.
    apply in_app_or in Hc' as [Hc'|[->|Hc']].
    + rewrite Forall_forall in Hpre. apply list_elem_of_In in Hc'.
      specialize (Hpre c Hc'). congruence.
    + lia.
    + apply sorted_suffix in Hsorted.
      inversion Hsorted as [|? ? _ Hall]; subst.
      rewrite Forall_forall in Hall. apply list_elem_of_In in Hc'.
      exact (Hall c Hc').
Qed.

End AuthFacts.

Section AuthExamples.

Import Server.

Lemma lowest_priority_match_wins_witness :
  exists b,
    In b (lookup_auth (sys_config server_with_rules))
    /\ auth_matches "bob" b = true
    /\ get_auth_method (snd (_populate_sys_auth server_with_rules)) "bob"
       = Some (method b)
    /\ forall c, In c (lookup_auth (sys_config server_with_rules)) ->
                 auth_matches "bob" c = true ->
                 priority b <= priority c.
Proof.
  apply (lowest_priority_match_wins server_with_rules "bob" auth_bob).
  - cbn. auto.
  - vm_compute. reflexivity.
Defined.

End AuthExamples.

(** ** The arbitrator, beyond the order of service *)

Section ArbitratorFacts.

Import Arbitrator ArbitratorFacts.

Lemma remove_first_perm (t : Task) (l : list Task) :
  In t l -> Permutation (t :: remove_first t l) l.
Proof.
  induction l as [|x l IH]; [intros []|]. cbn.
  destruct (Nat.eqb_spec x t) as [->|Hne]; [reflexivity|].
  intros [->|Hin]; [congruence|].
  rewrite perm_swap. by rewrite IH.
Qed.

Lemma remove_first_count (t x : Task) (l : list Task) :
  In t l ->
  count_occ Nat.eq_dec l x
  = (count_occ Nat.eq_dec (remove_first t l) x
     + count_occ Nat.eq_dec [t] x)%nat.
Proof.
  intros Hin. rewrite <- count_occ_app.
  apply (Permutation_count_occ Nat.eq_dec).
  rewrite <- (remove_first_perm t l Hin) at 1.
  apply Permutation_cons_append.
Qed.

Ltac count_callers :=
  unfold Task in *;
  repeat rewrite count_occ_app in *; cbn [count_occ] in *;
  repeat match goal with
         | |- context [Nat.eq_dec ?a ?b] => destruct (Nat.eq_dec a b)
         | H : context [Nat.eq_dec ?a ?b] |- _ => destruct (Nat.eq_dec a b)
         end; try lia.

Lemma callers_inv_step (s s' : State) (a : Action) :
  callers_inv s -> step s a = inr s' -> callers_inv s'.
Proof.
  unfold callers_inv, waiting. intros Hinv Hstep.
  rewrite (Permutation_count_occ Nat.eq_dec) in Hinv |- *. intros x.
  specialize (Hinv x).
  destruct a as [t|t|t]; cbn in Hstep.
  - unfold _acquire_sys_pgcon in Hstep.
    destruct (_sys_pgcon_waiters s) as [[items getters]|]; [|discriminate].
    inversion Hstep; subst; clear Hstep.
    unfold get_turn, Queue_get; cbn in *.
    destruct items as [|c rest]; cbn; count_callers.
  - inversion Hstep; subst; clear Hstep. unfold resume.
    destruct (_sys_pgcon_waiters s) as [[items getters]|] eqn:Eq;
      [|by rewrite Eq].
    destruct (is_in t (woken s)) eqn:Ew; [|by rewrite Eq].
    apply is_in_true in Ew.
    pose proof (remove_first_count t x _ Ew) as Hrm.
    unfold get_turn, Queue_get; cbn in *.
    destruct items as [|c rest]; cbn; count_callers.
  - unfold _release_sys_pgcon in Hstep.
    destruct (_sys_pgcon_waiters s) as [[items getters]|]; [|discriminate].
    unfold Queue_put_nowait in Hstep; cbn in *.
    destruct getters as [|g gs]; inversion Hstep; subst; clear Hstep; cbn;
      count_callers.
Qed.

(** X15.  In every run of the arbitrator, disciplined or not, each call of
    [_acquire_sys_pgcon] is accounted for exactly once: the caller has been
    served, or it is woken and about to run, or it is suspended in the
    queue. *)
Theorem every_caller_is_accounted_for (conn : Conn) (tr : list Action)
    (s : State) :
  run (init conn new_server) tr = inr s ->
  Permutation (granted s ++ waiting s) (arrivals s).
Proof.
  assert (Hgen : forall tr s0 s1,
            callers_inv s0 -> run s0 tr = inr s1 -> callers_inv s1).
  { clear. induction tr as [|a tr IH]; intros s0 s1 Hinv Hrun; cbn in Hrun.
    - by inversion Hrun; subst.
    - destruct (step s0 a) as [e|s'] eqn:Es; [discriminate|].
      eapply IH; [|exact Hrun]. eapply callers_inv_step; eauto. }
  intros Hrun. apply (Hgen tr (init conn new_server) s); [|exact Hrun].
  unfold callers_inv. cbn. reflexivity.
Qed.

Lemma wakeup_inv_step (s s' : State) (a : Action) :
  exclusive_inv s ->
  wakeup_inv s ->
  match a with Release t => is_in t (holding s) = true | _ => True end ->
  step s a = inr s' ->
  wakeup_inv s'.
Proof.
  unfold exclusive_inv, wakeup_inv. intros Hex Hinv Hd Hstep.
  destruct a as [t|t|t]; cbn in Hstep.
  - unfold _acquire_sys_pgcon in Hstep.
    destruct (_sys_pgcon_waiters s) as [[items getters]|]; [|discriminate].
    inversion Hstep; subst; clear Hstep.
    unfold get_turn, Queue_get; cbn in *.
    destruct items as [|c rest]; cbn in *; [congruence|].
    destruct rest; [congruence | cbn in Hex; lia].
  - inversion Hstep; subst; clear Hstep. unfold resume.
    destruct (_sys_pgcon_waiters s) as [[items getters]|] eqn:Eq;
      [|by rewrite Eq].
    destruct (is_in t (woken s)) eqn:Ew; [|by rewrite Eq].
    unfold get_turn, Queue_get; cbn in *.
    destruct items as [|c rest]; cbn in *; [congruence|].
    destruct rest; [congruence | cbn in Hex; lia].
  - unfold _release_sys_pgcon in Hstep.
    destruct (_sys_pgcon_waiters s) as [[items getters]|]; [|discriminate].
    unfold Queue_put_nowait in Hstep; cbn in *.
    destruct getters as [|g gs]; inversion Hstep; subst; clear Hstep; cbn.
    + congruence.
    + intros _ _. by destruct (woken s).
Qed.

(** X16.  No wake-up is lost: in every run of callers that release only
    what they hold, whenever the connection lies in the queue while a caller
    is suspended in it, some caller has been woken and is about to run. *)
Theorem no_lost_wakeup (conn : Conn) (tr : list Action) (s : State)
    (q : Queue) :
  disciplined (init conn new_server) tr = true ->
  run (init conn new_server) tr = inr s ->
  _sys_pgcon_waiters s = Some q ->
  _queue q <> [] ->
  _getters q <> [] ->
  woken s <> [].
Proof.
  assert (Hgen : forall tr s0 s1,
            exclusive_inv s0 -> wakeup_inv s0 ->
            disciplined s0 tr = true -> run s0 tr = inr s1 ->
            wakeup_inv s1).
  { clear. induction tr as [|a tr IH]; intros s0 s1 Hex Hinv Hd Hrun;
      cbn in Hd, Hrun.
    - by inversion Hrun; subst.
    - apply andb_prop in Hd as [Hd1 Hd2].
      destruct (step s0 a) as [e|s'] eqn:Es; [discriminate|].
      apply (IH s' s1); auto.
      + eapply exclusive_inv_step; eauto. destruct a; auto.
      + eapply wakeup_inv_step; eauto. destruct a; auto. }
  intros Hd Hrun Hq.
  assert (Hinit : wakeup_inv (init conn new_server)) by (cbn; congruence).
  pose proof (Hgen tr _ _ (exclusive_inv_init conn) Hinit Hd Hrun) as Hinv.
  unfold wakeup_inv in Hinv. by rewrite Hq in Hinv.
Qed.

(** X17.  Without overtaking a wake-up is never wasted: in a run of
    disciplined callers in which nobody enters [_acquire_sys_pgcon] between
    a release and the run of the woken waiter, a woken task that runs gets
    the connection at once; it is never sent to the back of the queue. *)
Theorem woken_waiter_is_served (conn : Conn) (tr : list Action)
    (s : State) (t : Task) :
  disciplined (init conn new_server) tr = true ->
  no_overtaking (init conn new_server) tr = true ->
  run (init conn new_server) tr = inr s ->
  In t (woken s) ->
  granted (resume t s) = granted s ++ [t] /\
  holding (resume t s) = holding s ++ [t] /\
  woken (resume t s) = [].
Proof.
  intros Hd Hno Hrun Hin.
  pose proof (fifo_inv_run tr _ _ (exclusive_inv_init conn)
                (fifo_inv_init conn) Hd Hno Hrun) as Hinv.
  unfold fifo_inv in Hinv. unfold resume.
  destruct (_sys_pgcon_waiters s) as [[items getters]|] eqn:Eq.
  - destruct Hinv as (_ & Hb & _). cbn in Hb.
    destruct Hb as [Hb|(w & Hb & Hq)]; rewrite Hb in Hin; [destruct Hin|].
    destruct Hin as [->|[]].
    rewrite Hb. cbn. rewrite Nat.eqb_refl. cbn.
    unfold get_turn, Queue_get. cbn. rewrite Hb. cbn. rewrite Nat.eqb_refl.
    destruct items as [|c rest]; [congruence|]. by cbn.
  - exfalso.
    assert (Hw : forall tr s0 s1,
              _sys_pgcon_waiters s0 <> None -> run s0 tr = inr s1 ->
              _sys_pgcon_waiters s1 <> None).
    { clear. induction tr as [|a tr IH]; intros s0 s1 Hq Hrun; cbn in Hrun.
      - by inversion Hrun; subst.
      - destruct (step s0 a) as [e|s'] eqn:Es; [discriminate|].
        apply (IH s' s1); [|exact Hrun].
        destruct a as [t|t|t]; cbn in Es.
        + unfold _acquire_sys_pgcon in Es.
          destruct (_sys_pgcon_waiters s0) as [q|]; [|congruence].
          inversion Es; subst. unfold get_turn.
          by destruct (Queue_get t q) as [[c|] q'].
        + inversion Es; subst. unfold resume.
          destruct (_sys_pgcon_waiters s0) as [q|] eqn:E0; [|congruence].
          destruct (is_in t (woken s0)); [|by rewrite E0].
          unfold get_turn. by destruct (Queue_get t q) as [[c|] q'].
        + unfold _release_sys_pgcon in Es.
          destruct (_sys_pgcon_waiters s0) as [q|]; [|congruence].
          destruct (Queue_put_nowait (__sys_pgcon s0) q) as [w q'].
          by inversion Es; subst. }
    apply (Hw tr (init conn new_server) s); [discriminate | exact Hrun |].
    exact Eq.
Qed.

End ArbitratorFacts.

Section ArbitratorExamples.

Import Arbitrator ArbitratorFacts.

Lemma every_caller_is_accounted_for_witness :
  Permutation (granted after_overtaking_run ++ waiting after_overtaking_run)
              (arrivals after_overtaking_run).
Proof.
  apply (every_caller_is_accounted_for 7%nat overtaking_run).
  vm_compute. reflexivity.
Defined.

Lemma no_lost_wakeup_witness :
  woken (mkState (Some 7%nat) (Some (mkQueue [Some 7%nat] [2%nat]))
                 [1%nat] [] [0%nat; 1%nat; 2%nat] [0%nat]) <> [].
Proof.
  apply (no_lost_wakeup 7%nat
           [Acquire 0%nat; Acquire 1%nat; Acquire 2%nat; Release 0%nat]
           _ (mkQueue [Some 7%nat] [2%nat])).
  - vm_compute. reflexivity.
  - vm_compute. reflexivity.
  - reflexivity.
  - discriminate.
  - discriminate.
Defined.

Lemma woken_waiter_is_served_witness :
  let s := mkState (Some 7%nat) (Some (mkQueue [Some 7%nat] [2%nat]))
                   [1%nat] [] [0%nat; 1%nat; 2%nat] [0%nat] in
  granted (resume 1%nat s) = granted s ++ [1%nat] /\
  holding (resume 1%nat s) = holding s ++ [1%nat] /\
  woken (resume 1%nat s) = [].
Proof.
  apply (woken_waiter_is_served 7%nat
           [Acquire 0%nat; Acquire 1%nat; Acquire 2%nat; Release 0%nat]).
  - vm_compute. reflexivity.
  - vm_compute. reflexivity.
  - vm_compute. reflexivity.
  - cbn. auto.
Defined.

End ArbitratorExamples.

Section ReleaseFacts.

Import Arbitrator ArbitratorFacts.

Lemma remove_first_absent (t : Task) (l : list Task) :
  is_in t l = false -> remove_first t l = l.
Proof.
  induction l as [|x l IH]; [reflexivity|]. cbn.
  rewrite Nat.eqb_sym.
  destruct (Nat.eqb x t); [discriminate|]. cbn.
  intros H. by rewrite IH.
Qed.

(** X18.  [_release_sys_pgcon] does not look at its caller, so the
    discipline of the callers is necessary as well as sufficient: from a
    state in which the connection is in the queue or with a single holder,
    a release keeps it so exactly when the releasing task held the
    connection; a release by any other task puts a second reference to the
    connection in circulation. *)
Theorem release_keeps_exclusivity_iff_holder (s s' : State) (t : Task) :
  exclusive_inv s ->
  _release_sys_pgcon t s = inr s' ->
  (exclusive_inv s' <-> is_in t (holding s) = true).
Proof.
  unfold exclusive_inv, _release_sys_pgcon. intros Hinv Hrel.
  destruct (_sys_pgcon_waiters s) as [[items getters]|]; [|discriminate].
  assert (Hlen : (length (items ++ [__sys_pgcon s])
                  + length (remove_first t (holding s)) = 1)%nat
                 <-> is_in t (holding s) = true).
  { rewrite length_app. cbn in *.
    destruct (is_in t (holding s)) eqn:Ein.
    - apply is_in_true in Ein. apply remove_first_length in Ein.
      split; [reflexivity|]. intros _. lia.
    - rewrite (remove_first_absent _ _ Ein).
      split; [lia|discriminate]. }
  unfold Queue_put_nowait in Hrel. cbn in Hrel.
  destruct getters as [|g gs]; inversion Hrel; subst; exact Hlen.
Qed.

End ReleaseFacts.

Section ReleaseExamples.

Import Arbitrator ArbitratorFacts.

Lemma release_keeps_exclusivity_iff_holder_witness :
  _release_sys_pgcon 0%nat (init 7%nat new_server)
  = inr (mkState (Some 7%nat) (Some (mkQueue [Some 7%nat; Some 7%nat] []))
                 [] [] [] [])
  /\ ~ exclusive_inv
        (mkState (Some 7%nat) (Some (mkQueue [Some 7%nat; Some 7%nat] []))
                 [] [] [] []).
Proof.
  split; [reflexivity|]. intros Hinv.
  pose proof (proj1 (release_keeps_exclusivity_iff_holder
                       (init 7%nat new_server) _ 0%nat
                       (exclusive_inv_init 7%nat) eq_refl) Hinv) as H.
  vm_compute in H. discriminate H.
Defined.

End ReleaseExamples.

(** ** The rewriting of nested inserts *)

Section InjectFacts.

Import Config ConfigFacts.

Lemma nested_inserts_app (l1 l2 : list ShapeElement) :
  nested_inserts (l1 ++ l2) = nested_inserts l1 ++ nested_inserts l2.
Proof.
  induction l1 as [|[e [c|]] l1 IH]; cbn; auto.
  destruct c; cbn; by rewrite ?IH.
Qed.

(** The loop over the shape inside [_inject_tname] is the loop of
    [compile_ConfigInsert]. *)
Lemma inject_tname_insert (subject : list QlStep)
    (shape : list ShapeElement) :
  _inject_tname (InsertQuery subject shape) =
    (shape' <-? inject_tname_in_shape shape ;;
     match subject with
     | [] => inl IndexError
     | step0 :: _ =>
         assert (is_BaseObjectRef step0) ?;;
         inr (InsertQuery subject (shape' ++ [tname_element step0]))
     end).
Proof.
  reflexivity.
Qed.

Lemma inject_tname_is_insert (q q' : QlExpr) :
  _inject_tname q = inr q' ->
  is_InsertQuery (Some q') = is_InsertQuery (Some q).
Proof.
  destruct q as [st|subject shape|r w|e els|t];
    try (cbn; intros [= <-]; reflexivity).
  rewrite inject_tname_insert.
  destruct (inject_tname_in_shape shape) as [e|shape']; [discriminate|].
  cbn. destruct subject as [|step0 rest]; [discriminate|].
  destruct (is_BaseObjectRef step0); [|discriminate].
  cbn. by intros [= <-].
Qed.

(** What the loop over a shape returns, element by element. *)
Lemma inject_tname_in_shape_cons (el : ShapeElement)
    (rest : list ShapeElement) :
  inject_tname_in_shape (el :: rest) =
    (el' <-? (if is_InsertQuery (element_compexpr el) then
                match element_compexpr el with
                | Some q => q' <-? _inject_tname q ;;
                            inr (mkShapeElement (element_expr el) (Some q'))
                | None => inr el
                end
              else inr el) ;;
     rest' <-? inject_tname_in_shape rest ;;
     inr (el' :: rest')).
Proof.
  destruct el as [e [c|]]; [|reflexivity].
  destruct c; try reflexivity.
  cbn [inject_tname_in_shape is_InsertQuery element_compexpr element_expr].
  by destruct (_inject_tname (InsertQuery subject shape)).
Qed.

(** The loop over a shape keeps its length. *)
Lemma inject_tname_in_shape_length (sh sh' : list ShapeElement) :
  inject_tname_in_shape sh = inr sh' -> length sh' = length sh.
Proof.
  revert sh'. induction sh as [|[e1 [c1|]] sh IH]; intros sh' E.
  - by inversion E.
  - rewrite inject_tname_in_shape_cons in E.
    cbn [element_compexpr element_expr] in E.
    destruct (if is_InsertQuery (Some c1)
              then q' <-? _inject_tname c1 ;;
                   inr (mkShapeElement e1 (Some q'))
              else inr (mkShapeElement e1 (Some c1))) as [err|el'];
      [discriminate|].
    cbn [err_bind] in E.
    destruct (inject_tname_in_shape sh) as [err|sh1]; [discriminate|].
    cbn in E. inversion E; subst. cbn. f_equal. by apply IH.
  - rewrite inject_tname_in_shape_cons in E. cbn in E.
    destruct (inject_tname_in_shape sh) as [err|sh1]; [discriminate|].
    cbn in E. inversion E; subst. cbn. f_equal. by apply IH.
Qed.




(** X21.  The loop of [compile_ConfigInsert] over the shape of the
    statement keeps its length and each element's expression; an element
    that is not computed by an insert is kept as it is, and one that is
    keeps being computed by an insert with one more shape element. *)
Theorem inject_tname_in_shape_elementwise
    (shape shape' : list ShapeElement) :
  inject_tname_in_shape shape = inr shape' ->
  Forall2 (fun el el' =>
             element_expr el' = element_expr el
             /\ match element_compexpr el with
                | Some (InsertQuery subject sh) =>
                    exists sh', element_compexpr el'
                                = Some (InsertQuery subject sh')
                                /\ length sh' = S (length sh)
                | _ => el' = el
                end)
          shape shape'.
Proof.
  revert shape'. induction shape as [|el rest IHrest]; intros shape' Hs.
  - inversion Hs; subst. constructor.
  - rewrite inject_tname_in_shape_cons in Hs.
    destruct el as [e [c|]]; cbn [element_compexpr element_expr] in *.
    + destruct c as [st|subject sh|r w|e' els|t];
        try (cbn in Hs;
             destruct (inject_tname_in_shape rest) as [err|rest'];
             [discriminate|]; cbn in Hs; inversion Hs; subst;
             constructor; [by split|by apply IHrest]).
      cbn [is_InsertQuery] in Hs. rewrite inject_tname_insert in Hs.
      destruct (inject_tname_in_shape sh) as [err|sh'] eqn:Esh;
        [discriminate|].
      cbn [err_bind] in Hs.
      destruct subject as [|step0 steps]; [discriminate|].
      destruct (is_BaseObjectRef step0); [|discriminate].
      cbn in Hs.
      destruct (inject_tname_in_shape rest) as [err|rest'];
        [discriminate|].
      cbn in Hs. inversion Hs; subst.
      constructor; [|by apply IHrest].
      split; [reflexivity|]. eexists. split; [reflexivity|].
      rewrite length_app, (inject_tname_in_shape_length _ _ Esh). cbn. lia.
    + cbn in Hs. destruct (inject_tname_in_shape rest) as [err|rest'];
        [discriminate|].
      cbn in Hs. inversion Hs; subst.
      constructor; [by split|by apply IHrest].
Qed.

End InjectFacts.

Section InjectExamples.

Import Config ConfigFacts.


Lemma inject_tname_in_shape_elementwise_witness :
  exists shape',
    inject_tname_in_shape insert_Auth_nested_shape = inr shape'
    /\ length shape' = length insert_Auth_nested_shape.
Proof.
  eexists. split; [reflexivity|].
  symmetry.
  exact (Forall2_length _ _ _
           (inject_tname_in_shape_elementwise insert_Auth_nested_shape _
              eq_refl)).
Defined.

End InjectExamples.

(** ** Validation of configuration operations *)

Section ValidationFacts.

Import Config ConfigFacts.

Variable schema : Catalog.
Variable json_loads : string -> option PyJson.
Variable dispatch_compile :
  QlExpr -> Ctx -> Store -> (Exn + IrNode) * Store.
Variable ensure_set : IrNode -> Ctx -> IrSet.
Variable get_config_type_shape : TypeId -> list QlStep -> list ShapeElement.
Variable evaluate : IrSet -> bool.

(** X22.  The module part of the name of a setting is only checked: an
    empty module and [cfg] are the same as no module at all, and any other
    module is refused with [QueryError] before the catalog is looked at. *)
Theorem module_qualifier_is_cfg_or_empty (expr : ConfigOp) (m : string) :
  _validate_op schema json_loads (with_module (Some m) expr) =
    if String.eqb m EmptyString || String.eqb m "cfg" then
      _validate_op schema json_loads (with_module None expr)
    else
      inl (QueryError
             ("invalid configuration parameter name: module must be " ++
              "either 'cfg' or empty")).
Proof.
  destruct expr as [n sc e|n sc w|n sc sh]; unfold _validate_op;
    cbn [with_module op_name op_scope module name];
    destruct (String.eqb m EmptyString), (String.eqb m "cfg"); reflexivity.
Qed.

(** X23.  The scope of an operation is looked at last and only for
    system-level settings: what fails at [INSTANCE] scope fails in the same
    way at every scope, and what is valid at [INSTANCE] scope is, at
    another scope, either valid with the same description or refused as a
    system-level setting. *)
Theorem scope_is_checked_last (expr : ConfigOp) :
  match _validate_op schema json_loads (with_scope INSTANCE expr) with
  | inl e => _validate_op schema json_loads expr = inl e
  | inr info =>
      _validate_op schema json_loads expr = inr info
      \/ (op_scope expr <> INSTANCE
          /\ _validate_op schema json_loads expr
             = inl (system_level_error (param_name info)))
  end.
Proof.
  assert (Hname : op_name (with_scope INSTANCE expr) = op_name expr)
    by by destruct expr.
  assert (Hres : forall host nm,
            resolve_object_type schema (with_scope INSTANCE expr) host nm
            = resolve_object_type schema expr host nm)
    by by destruct expr.
  assert (Hptr : forall host nm,
            match with_scope INSTANCE expr with
            | ConfigSet _ _ _ | ConfigReset _ _ _ =>
                maybe_get_ptr schema host nm
            | ConfigInsert _ _ _ => None
            end
            = match expr with
              | ConfigSet _ _ _ | ConfigReset _ _ _ =>
                  maybe_get_ptr schema host nm
              | ConfigInsert _ _ _ => None
              end)
    by by destruct expr.
  assert (Hsc : op_scope (with_scope INSTANCE expr) = INSTANCE)
    by by destruct expr.
  unfold _validate_op. rewrite Hname, Hsc.
  destruct (match module (op_name expr) with
            | Some m => _
            | None => _
            end) as [e|[]]; [reflexivity|].
  cbn [err_bind].
  destruct (lookup_type schema "cfg" "AbstractConfig") as [host|];
    [|reflexivity].
  cbn [err_bind].
  destruct (is_object_type schema host); [|reflexivity].
  cbn [assert err_bind]. rewrite Hptr, !Hres.
  destruct (match
               match expr with
               | ConfigSet _ _ _ | ConfigReset _ _ _ =>
                   maybe_get_ptr schema host (name (op_name expr))
               | ConfigInsert _ _ _ => None
               end
             with
             | Some ptr => _
             | None => _
             end) as [e|[[cfg_type ptr] nm]]; [reflexivity|].
  cbn [err_bind].
  destruct (ptr_cardinality schema ptr) as [card|]; [|reflexivity].
  cbn [err_bind].
  destruct (match ptr_annotation schema ptr "backend_setting" with
            | Some v => _
            | None => _
            end) as [e|bs]; [reflexivity|].
  cbn [err_bind].
  destruct (match ptr_annotation schema ptr "affects_compilation" with
            | Some v => _
            | None => _
            end) as [e|ac]; [reflexivity|].
  cbn [err_bind].
  rewrite bool_decide_eq_true_2 by reflexivity.
  rewrite andb_false_r. cbn [err_bind param_name].
  destruct (annotation_is_true schema ptr "system"); [|by left].
  destruct (bool_decide (op_scope expr = INSTANCE)) eqn:Esc; [by left|].
  right. split; [|reflexivity].
  by apply bool_decide_eq_false in Esc.
Qed.

(** X24.  [CONFIGURE ... SET] takes the name for a property of the root
    configuration object only: when the root has no such property with a
    target, the operation is refused as an unrecognized parameter, also
    when a configuration object type of that name exists. *)
Theorem set_needs_a_property (n : ObjectRef) (sc : ConfigScope)
    (e : QlExpr) (cfg_host_type : TypeId) :
  module_is_accepted n = true ->
  lookup_type schema "cfg" "AbstractConfig" = Some cfg_host_type ->
  is_object_type schema cfg_host_type = true ->
  (forall ptr, maybe_get_ptr schema cfg_host_type (name n) = Some ptr ->
               ptr_target schema ptr = None) ->
  _validate_op schema json_loads (ConfigSet n sc e)
  = inl (ConfigurationError
           ("unrecognized configuration parameter " ++ repr_str (name n))).
Proof.
  intros Hmod Hhost Hobj Hptr. unfold _validate_op.
  cbn [op_name op_scope].
  assert (Hcheck :
    match module n with
    | Some m =>
        if negb (String.eqb m EmptyString) && negb (String.eqb m "cfg")
        then inl (QueryError
                ("invalid configuration parameter name: module must be " ++
                 "either 'cfg' or empty"))
        else inr tt
    | None => inr tt
    end = (inr tt : Exn + unit)).
  { unfold module_is_accepted in Hmod.
    destruct (module n) as [m|]; [|reflexivity].
    destruct (String.eqb m EmptyString), (String.eqb m "cfg");
      cbn in *; congruence. }
  rewrite Hcheck, Hhost. cbn [err_bind]. rewrite Hobj. cbn [assert err_bind].
  destruct (maybe_get_ptr schema cfg_host_type (name n)) as [ptr|] eqn:Eptr;
    [rewrite (Hptr ptr eq_refl)|]; reflexivity.
Qed.

(** X25.  Validation comes first: an operation that [_validate_op] refuses
    is refused by its compiler with the same error, before anything is
    compiled and with the alias dictionaries as they were. *)
Theorem invalid_operation_compiles_nothing (expr : ConfigOp) (ctx : Ctx)
    (st : Store) (e : Exn) :
  _validate_op schema json_loads expr = inl e ->
  compile_config_op schema json_loads dispatch_compile ensure_set
                    get_config_type_shape evaluate expr ctx st
  = (inl e, st).
Proof.
  intros H.
  destruct expr as [n sc ex|n sc w|n sc sh]; cbn [compile_config_op];
    unfold compile_ConfigSet, compile_ConfigReset, compile_ConfigInsert;
    by rewrite lift_err_run, H.
Qed.

(** X26.  [CONFIGURE ... RESET] of a parameter whose type is not an object
    type compiles nothing and leaves the alias dictionaries alone: with a
    [FILTER] it is refused with [QueryError], and without one the node has
    no selector. *)
Theorem reset_of_primitive_parameter (n : ObjectRef) (sc : ConfigScope)
    (where_ : option QlExpr) (ctx : Ctx) (st : Store) (info : SettingInfo) :
  _validate_op schema json_loads (ConfigReset n sc where_) = inr info ->
  is_object_type schema (param_type info) = false ->
  compile_ConfigReset schema json_loads dispatch_compile ensure_set
                      get_config_type_shape n sc where_ ctx st
  = (match where_ with
     | Some _ =>
         inl (QueryError
                ("RESET of a primitive configuration parameter " ++
                 "must not have a FILTER clause"))
     | None =>
         inr (ensure_set
                (NodeExpr
                   (IrConfigReset (param_name info) (cardinality info) sc
                                  (requires_restart info)
                                  (backend_setting info) None))
                ctx)
     end, st).
Proof.
  intros Hinfo Hobj. unfold compile_ConfigReset.
  rewrite lift_err_run, Hinfo, bind_run, Hobj.
  by destruct where_.
Qed.

(** X27.  [compile_ConfigSet] never writes to an alias dictionary itself:
    whatever its outcome, a dictionary that [dispatch.compile] leaves alone
    is as it was. *)
Theorem set_leaves_aliases_alone (n : ObjectRef) (sc : ConfigScope)
    (e : QlExpr) (ctx : Ctx) (st st' : Store) (r : Exn + IrSet) :
  keeps_dictionaries dispatch_compile ->
  compile_ConfigSet schema json_loads dispatch_compile ensure_set evaluate
                    n sc e ctx st = (r, st') ->
  forall l d, st !! l = Some d -> st' !! l = Some d.
Proof.
  intros Hkeep Hrun l d Hl. unfold compile_ConfigSet in Hrun.
  rewrite lift_err_run in Hrun.
  destruct (_validate_op schema json_loads (ConfigSet n sc e)) as [err|info];
    [by inversion Hrun; subst|].
  rewrite bind_run in Hrun.
  destruct (dispatch_compile e ctx st) as [[err|node] st1] eqn:Ec.
  - inversion Hrun; subst. by eapply Hkeep.
  - rewrite bind_run in Hrun.
    destruct (evaluate (ensure_set node ctx)); cbn in Hrun;
      inversion Hrun; subst; by eapply Hkeep.
Qed.

(** X28.  [compile_ConfigReset] of an object-typed parameter writes the
    default module [cfg] into the caller's own alias dictionary before the
    selector is compiled and never restores it: the entry is there also
    when the compilation of the selector fails.  No other dictionary and no
    other key is written. *)
Theorem reset_aliases_not_restored (n : ObjectRef) (sc : ConfigScope)
    (where_ : option QlExpr) (ctx : Ctx) (st st' : Store)
    (r : Exn + IrSet) (info : SettingInfo)
    (d : gmap (option string) string) :
  keeps_dictionaries dispatch_compile ->
  st !! modaliases ctx = Some d ->
  _validate_op schema json_loads (ConfigReset n sc where_) = inr info ->
  is_object_type schema (param_type info) = true ->
  compile_ConfigReset schema json_loads dispatch_compile ensure_set
                      get_config_type_shape n sc where_ ctx st = (r, st') ->
  st' !! modaliases ctx = Some (<[None := "cfg"]> d)
  /\ forall l d', l <> modaliases ctx ->
                  st !! l = Some d' -> st' !! l = Some d'.
Proof.
  intros Hkeep Hd Hinfo Hobj Hrun.
  unfold compile_ConfigReset in Hrun.
  rewrite lift_err_run, Hinfo, bind_run, Hobj in Hrun.
  cbn [negb andb] in Hrun.
  rewrite bind_run, (dict_setitem_run _ _ _ _ _ Hd), bind_run in Hrun.
  destruct (dispatch_compile _ ctx _) as [[e|node] st1] eqn:Ec;
    cbn in Hrun; inversion Hrun; subst; (split; [|intros l d' Hne Hl]);
    (eapply Hkeep; [exact Ec|]); unfold Store in *;
    try (apply list_lookup_insert_eq; by eapply lookup_lt_Some);
    by rewrite list_lookup_insert_ne.
Qed.

End ValidationFacts.

(** ** What a compiled CONFIGURE INSERT went through *)

Section InsertFacts.

Import Config ConfigFacts.

Variable schema : Catalog.
Variable json_loads : string -> option PyJson.
Variable dispatch_compile :
  QlExpr -> Ctx -> Store -> (Exn + IrNode) * Store.
Variable ensure_set : IrNode -> Ctx -> IrSet.

(** X29.  A [CONFIGURE INSERT] that compiles was at [INSTANCE] scope and
    named a configuration item.  What [dispatch.compile] was given is the
    insert of [cfg::<name>], whatever module the name was written with,
    with the shape of the statement after the loop over its nested inserts
    and no [_tname] of its own, in a context that exposes expressions,
    allows the computable [_tname] and whose alias dictionary is a fresh
    copy with the default module [cfg].  The result wraps the subject of
    the compiled insert, which [_validate_config_object] accepted, under
    the name that [_validate_op] resolved. *)
Theorem insert_success_inversion (n : ObjectRef) (sc : ConfigScope)
    (shape : list ShapeElement) (ctx : Ctx) (st st' : Store) (ir : IrSet)
    (d : gmap (option string) string) :
  st !! modaliases ctx = Some d ->
  compile_ConfigInsert schema json_loads dispatch_compile ensure_set
                       n sc shape ctx st = (inr ir, st') ->
  sc = INSTANCE /\
  is_Some (lookup_object schema "cfg" (name n)) /\
  exists info shape' node subject,
    _validate_op schema json_loads (ConfigInsert n sc shape) = inr info /\
    inject_tname_in_shape shape = inr shape' /\
    length shape' = length shape /\
    dispatch_compile
      (InsertQuery [StepObjectRef (mkObjectRef (name n) (Some "cfg"))]
                   shape')
      (insert_subctx ctx (length st))
      (<[length st := <[None := "cfg"]> d]> (st ++ [d]))
      = (inr node, st') /\
    set_expr (ensure_set node (insert_subctx ctx (length st)))
      = Some (InsertStmt subject) /\
    _validate_config_object subject = inr tt /\
    ir = ensure_set
           (NodeExpr
              (IrConfigInsert (param_name info) (cardinality info) sc
                              (requires_restart info) (backend_setting info)
                              subject))
           ctx.
Proof.
  intros Hd Hrun. unfold compile_ConfigInsert in Hrun.
  rewrite lift_err_run in Hrun.
  destruct (_validate_op schema json_loads (ConfigInsert n sc shape))
    as [e|info]; [discriminate|].
  rewrite bind_run in Hrun.
  destruct (bool_decide (sc = INSTANCE)) eqn:Esc; [|discriminate].
  apply bool_decide_eq_true in Esc.
  cbn [ret] in Hrun.
  destruct (lookup_object schema "cfg" (name n)) as [subj0|];
    [|discriminate].
  rewrite lift_err_run in Hrun.
  destruct (inject_tname_in_shape shape) as [e|shape'] eqn:Einj;
    [discriminate|].
  rewrite bind_run, (dict_copy_run _ _ _ Hd), bind_run in Hrun.
  erewrite dict_setitem_run in Hrun by apply lookup_snoc.
  rewrite bind_run in Hrun.
  match type of Hrun with
  | context [dispatch_compile ?q ?c ?s] =>
      destruct (dispatch_compile q c s) as [[e|node] st1] eqn:Ec
  end; [discriminate|].
  unfold newscope in *.
  destruct (set_expr (ensure_set node _)) as [[subject| | | | |]|] eqn:Ese;
    try discriminate.
  rewrite lift_err_run in Hrun.
  destruct (_validate_config_object subject) as [e|[]] eqn:Ev;
    [discriminate|].
  cbn in Hrun. inversion Hrun; subst.
  split; [reflexivity|]. split; [by eexists|].
  exists info, shape', node, subject.
  split; [reflexivity|]. split; [reflexivity|].
  split; [by apply inject_tname_in_shape_length|].
  split; [exact Ec|]. split; [exact Ese|]. by split.
Qed.

End InsertFacts.

Section ValidationExamples.

Import Config ConfigFacts.

Lemma select_fails_keeps_dictionaries : keeps_dictionaries select_fails.
Proof.
  intros q c st r st' Hrun l d Hl.
  unfold select_fails, sample_compile in Hrun.
  destruct q; inversion Hrun; subst; exact Hl.
Qed.

Lemma set_needs_a_property_witness :
  _validate_op sample_catalog sample_json_loads
    (ConfigSet (mkObjectRef "Auth" None) INSTANCE (OtherExpr 0))
  = inl (ConfigurationError "unrecognized configuration parameter 'Auth'").
Proof.
  apply (set_needs_a_property sample_catalog sample_json_loads
           (mkObjectRef "Auth" None) INSTANCE (OtherExpr 0) 0%nat);
    try reflexivity.
  intros ptr H. vm_compute in H. discriminate H.
Defined.

Lemma invalid_operation_compiles_nothing_witness :
  compile_config_op sample_catalog sample_json_loads sample_compile
    sample_ensure_set sample_type_shape all_constant
    (ConfigReset (mkObjectRef "listen_port" None) SESSION None)
    sample_ctx sample_store
  = (inl (system_level_error "listen_port"), sample_store).
Proof.
  apply (invalid_operation_compiles_nothing sample_catalog sample_json_loads
           sample_compile sample_ensure_set sample_type_shape all_constant).
  vm_compute. reflexivity.
Defined.

Lemma reset_of_primitive_parameter_witness :
  compile_ConfigReset sample_catalog sample_json_loads sample_compile
    sample_ensure_set sample_type_shape (mkObjectRef "listen_port" None)
    INSTANCE (Some (OtherExpr 0)) sample_ctx sample_store
  = (inl (QueryError
            ("RESET of a primitive configuration parameter " ++
             "must not have a FILTER clause")),
     sample_store).
Proof.
  apply (reset_of_primitive_parameter sample_catalog sample_json_loads
           sample_compile sample_ensure_set sample_type_shape
           (mkObjectRef "listen_port" None) INSTANCE (Some (OtherExpr 0))
           sample_ctx sample_store
           (mkSettingInfo "listen_port" 4%nat One false None (JBool false)));
    vm_compute; reflexivity.
Defined.

Lemma set_leaves_aliases_alone_witness :
  snd (compile_ConfigSet sample_catalog sample_json_loads sample_compile
         sample_ensure_set nothing_is_constant
         (mkObjectRef "listen_port" None) INSTANCE (OtherExpr 0)
         sample_ctx sample_store) !! 0%nat
  = Some sample_aliases.
Proof.
  apply (set_leaves_aliases_alone sample_catalog sample_json_loads
           sample_compile sample_ensure_set nothing_is_constant
           (mkObjectRef "listen_port" None) INSTANCE (OtherExpr 0)
           sample_ctx sample_store _ _
           sample_compile_keeps_dictionaries (surjective_pairing _)).
  reflexivity.
Defined.

Lemma reset_aliases_not_restored_witness :
  let run :=
    compile_ConfigReset sample_catalog sample_json_loads select_fails
      sample_ensure_set sample_type_shape (mkObjectRef "Auth" None)
      INSTANCE None sample_ctx sample_store in
  fst run = inl (QueryError "cannot compile") /\
  snd run !! 0%nat = Some (<[None := "cfg"]> sample_aliases).
Proof.
  intros run. split; [vm_compute; reflexivity|].
  assert (Hinfo :
            _validate_op sample_catalog sample_json_loads
              (ConfigReset (mkObjectRef "Auth" None) INSTANCE None)
            = inr (mkSettingInfo "auth" 1%nat Many false None (JBool false)))
    by (vm_compute; reflexivity).
  exact (proj1 (reset_aliases_not_restored sample_catalog sample_json_loads
                  select_fails sample_ensure_set sample_type_shape
                  (mkObjectRef "Auth" None) INSTANCE None sample_ctx
                  sample_store (snd run) (fst run) _ sample_aliases
                  select_fails_keeps_dictionaries eq_refl Hinfo eq_refl
                  (surjective_pairing run))).
Defined.

Lemma insert_success_inversion_witness :
  let run :=
    compile_ConfigInsert sample_catalog sample_json_loads sample_compile
      sample_ensure_set (mkObjectRef "Auth" None) INSTANCE
      insert_Auth_nested_shape sample_ctx sample_store in
  exists ir, fst run = inr ir /\
  exists shape' node,
    inject_tname_in_shape insert_Auth_nested_shape = inr shape' /\
    sample_compile
      (InsertQuery [StepObjectRef (mkObjectRef "Auth" (Some "cfg"))] shape')
      (insert_subctx sample_ctx 1)
      (<[1%nat := <[None := "cfg"]> sample_aliases]>
         (sample_store ++ [sample_aliases]))
    = (inr node, snd run).
Proof.
  intros run.
  destruct run as [[e|ir] st'] eqn:Erun.
  { exfalso. apply (f_equal fst) in Erun. vm_compute in Erun.
    discriminate Erun. }
  exists ir. split; [reflexivity|].
  destruct (insert_success_inversion sample_catalog sample_json_loads
              sample_compile sample_ensure_set (mkObjectRef "Auth" None)
              INSTANCE insert_Auth_nested_shape sample_ctx sample_store st'
              ir sample_aliases eq_refl Erun)
    as (_ & _ & info & shape' & node & subject & _ & Hinj & _ & Hc & _).
  exists shape', node. split; [exact Hinj | exact Hc].
Defined.

End ValidationExamples.
